(** * sf-metaexplorer: reconciliation, selection, cache freshness, commit preload

    A shallow embedding of the core of the metadata explorer:
    - [MetadataService]: [compareMetadata], [retrieve] and [deploy], and
      the inventory sources behind them ([getPackageName],
      [collectComponentTree], [listRemoteComponents], [listLocalComponents],
      [listLocalComponentsByTypes]) (src/services/MetadataService.ts),
    - the [useSelection] hook and [getTypeComponents] of [useMetadata]
      (src/hooks),
    - what [App] derives: the cache status, the tri-state of a group, the
      scopes, the node ids of the type tree, the grouped view, and the
      commit preload (src/components/App.tsx),
    - [GitService.getModifiedFilesFromCommits] (src/services/GitService.ts),
    - the persisted state of [SyncStateService]
      (src/services/SyncStateService.ts).

    JavaScript [Set<string>] values are [gset string]; arrays are lists;
    objects used as maps are [gmap]s; optional fields are [option]; a call
    that may throw returns an [Outcome]; a string is kept as its UTF-8
    bytes. *)

From Stdlib Require Import ZArith Ascii String DecimalString DecimalNat.
From stdpp Require Import gmap strings list.

#[local] Set Warnings "-clear-no-such-hyp".

Local Open Scope string_scope.
Local Open Scope list_scope.
Local Open Scope nat_scope.

(** ** Data model (src/types/metadata.ts) *)

Inductive MetadataStatus := LocalOnly | RemoteOnly | Synced | Conflict.

#[global] Instance MetadataStatus_eq_dec : EqDecision MetadataStatus.
Proof. solve_decision. Defined.

(** [lastModifiedDate] is a JavaScript [Date]; it is kept as its time value
    in milliseconds. *)
Record MetadataComponent := mkComponent {
  id : string;
  type : string;
  fullName : string;
  fileName : option string;
  lastModifiedDate : option Z;
  lastModifiedBy : option string;
  packageName : option string;
  isThirdParty : option bool;
  status : MetadataStatus;
}.

#[global] Instance MetadataComponent_eq_dec : EqDecision MetadataComponent.
Proof. solve_decision. Defined.

Record MetadataComparison := mkComparison {
  localOnly : list MetadataComponent;
  remoteOnly : list MetadataComponent;
  synced : list MetadataComponent;
  conflicts : list MetadataComponent;
}.

(** [{ ...component, status: s }] *)
Definition with_status (component : MetadataComponent) (s : MetadataStatus)
  : MetadataComponent :=
  {| id := id component; type := type component;
     fullName := fullName component; fileName := fileName component;
     lastModifiedDate := lastModifiedDate component;
     lastModifiedBy := lastModifiedBy component;
     packageName := packageName component;
     isThirdParty := isThirdParty component;
     status := s |}.

(** [{ ...component, status: 'synced',
       lastModifiedDate: remoteComponent?.lastModifiedDate,
       lastModifiedBy: remoteComponent?.lastModifiedBy }] *)
Definition synced_with (component : MetadataComponent)
    (remoteComponent : option MetadataComponent) : MetadataComponent :=
  {| id := id component; type := type component;
     fullName := fullName component; fileName := fileName component;
     lastModifiedDate := remoteComponent ≫= lastModifiedDate;
     lastModifiedBy := remoteComponent ≫= lastModifiedBy;
     packageName := packageName component;
     isThirdParty := isThirdParty component;
     status := Synced |}.

Definition names (l : list MetadataComponent) : list string := fullName <$> l.

(** ** The reconciler (MetadataService.compareMetadata) *)

(** The two inventory calls of the service.  Both catch their own failures
    and answer the empty list, so they are total functions of the type
    name. *)
Record InventorySource := mkInventory {
  listRemoteComponents : string → list MetadataComponent;
  listLocalComponents : string → list MetadataComponent;
}.

(** [for (const component of xs) { if (test component) out.push(f component) }] *)
Definition push_when {A B : Type} (test : A → bool) (f : A → B)
    (out : list B) (xs : list A) : list B :=
  foldl (λ acc component, if test component then acc ++ [f component] else acc)
        out xs.

(** [remoteComponents.find((remote) => remote.fullName === name)] *)
Definition find_by_name (name : string) (remoteComponents : list MetadataComponent)
  : option MetadataComponent :=
  List.find (λ remote, bool_decide (fullName remote = name)) remoteComponents.

Definition compareMetadata (svc : InventorySource) (ty : string)
  : MetadataComparison :=
  let remoteComponents := listRemoteComponents svc ty in
  let localComponents := listLocalComponents svc ty in
  let remoteNames : gset string := list_to_set (names remoteComponents) in
  let localNames : gset string := list_to_set (names localComponents) in
  let localOnly1 :=
    push_when (λ component, negb (bool_decide (fullName component ∈ remoteNames)))
              (λ component, with_status component LocalOnly)
              [] localComponents in
  let remoteOnly1 :=
    push_when (λ component, negb (bool_decide (fullName component ∈ localNames)))
              (λ component, with_status component RemoteOnly)
              [] remoteComponents in
  let synced1 :=
    push_when (λ component, bool_decide (fullName component ∈ remoteNames))
              (λ component,
                 synced_with component
                   (find_by_name (fullName component) remoteComponents))
              [] localComponents in
  {| localOnly := localOnly1; remoteOnly := remoteOnly1;
     synced := synced1; conflicts := [] |}.

(** The scenario of the specification: local [A], remote [A; B], type T. *)
Definition plain (i ty n : string) (s : MetadataStatus) : MetadataComponent :=
  mkComponent i ty n None None None None None s.

Definition scenario_local : list MetadataComponent :=
  [plain "local-T-A-0" "T" "A" LocalOnly].
Definition scenario_remote : list MetadataComponent :=
  [plain "remote-T-A-0" "T" "A" RemoteOnly;
   plain "remote-T-B-1" "T" "B" RemoteOnly].
Definition scenario_svc : InventorySource :=
  mkInventory (λ _, scenario_remote) (λ _, scenario_local).

(** ** The selection model (useSelection)

    The hook keeps one piece of state, [selectedIds : Set<string>]; every
    operation is a functional update [prev => next] of it.  The component
    list is an argument of the hook, supplied anew at each render. *)

(** [ids.forEach((id) => next.delete(id))] *)
Definition delete_each (ids : list string) (next : gset string) : gset string :=
  foldl (λ acc i, acc ∖ {[i]}) next ids.

(** [ids.forEach((id) => next.add(id))] *)
Definition add_each (ids : list string) (next : gset string) : gset string :=
  foldl (λ acc i, acc ∪ {[i]}) next ids.

Definition toggle (i : string) (prev : gset string) : gset string :=
  let next := prev in
  if bool_decide (i ∈ next) then next ∖ {[i]} else next ∪ {[i]}.

Definition toggleMultiple (ids : list string) (prev : gset string) : gset string :=
  let next := prev in
  let allSelected := forallb (λ i, bool_decide (i ∈ next)) ids in
  if allSelected then delete_each ids next else add_each ids next.

Definition selectAll (components : list MetadataComponent) (prev : gset string)
  : gset string :=
  list_to_set (id <$> components).

Definition deselectAll (prev : gset string) : gset string := ∅.

Definition isSelected (selectedIds : gset string) (i : string) : bool :=
  bool_decide (i ∈ selectedIds).

Definition selectedComponents (allComponents : list MetadataComponent)
    (selectedIds : gset string) : list MetadataComponent :=
  List.filter (λ component, bool_decide (id component ∈ selectedIds)) allComponents.

Definition count (allComponents : list MetadataComponent)
    (selectedIds : gset string) : nat :=
  length (selectedComponents allComponents selectedIds).

(** A run of individual [toggle] calls, oldest first. *)
Definition toggle_each (ids : list string) (prev : gset string) : gset string :=
  foldl (λ acc i, toggle i acc) prev ids.

(** ** Cache freshness (useSyncState and App) *)

Record OrgInfo := mkOrg {
  username : string;
  orgId : string;
  instanceUrl : string;
  isDefault : bool;
  isScratch : bool;
  isDevHub : bool;
  alias : option string;
}.

Record LastSync := mkLastSync {
  orgUsername : string;
  timestamp : string;
  metadataTypes : list string;
}.

Record CachedMetadata := mkCached {
  lastFetched : Z;
  components : list MetadataComponent;
}.

(** The persisted blob.  Its [ui] preferences play no part in what follows
    and are left out. *)
Record SyncState := mkSyncState {
  lastSync : option LastSync;
  cache : gmap string CachedMetadata;
  subscriptions : option (gmap string (list string));
}.

Definition DEFAULT_STATE : SyncState := mkSyncState None ∅ (Some ∅).

(** [state?.lastSync?.orgUsername ?? null]; [state] is [null] until the
    first load has finished. *)
Definition lastSyncOrg (state : option SyncState) : option string :=
  st ← state; ls ← lastSync st; Some (orgUsername ls).

(** JavaScript truthiness of a [string | null]: the empty string is falsy. *)
Definition truthy (v : option string) : bool :=
  match v with
  | Some s => negb (bool_decide (s = ""))
  | None => false
  end.

(** [Boolean(currentOrg && lastSyncOrg && currentOrg.username !== lastSyncOrg)] *)
Definition isCacheStale (currentOrg : option OrgInfo) (lso : option string) : bool :=
  match currentOrg with
  | None => false
  | Some org =>
      if truthy lso then negb (bool_decide (Some (username org) = lso))
      else false
  end.

Inductive CacheStatus := Fresh | Stale | Empty.

(** [isCacheStale ? 'stale' : lastSyncOrg ? 'fresh' : 'empty'] *)
Definition cacheStatus (currentOrg : option OrgInfo) (lso : option string)
  : CacheStatus :=
  if isCacheStale currentOrg lso then Stale
  else if truthy lso then Fresh else Empty.

(** ** Calls that may throw *)

(** What a [catch] clause receives: an [Error] object with its message, or
    some other value. *)
Inductive Thrown := ErrorObject (msg : string) | NotAnError.

Inductive Outcome (A : Type) : Type :=
  | Returns (a : A)
  | Throws (e : Thrown).
Arguments Returns {A} a.
Arguments Throws {A} e.

Definition bindO {A B : Type} (m : Outcome A) (k : A → Outcome B) : Outcome B :=
  match m with
  | Returns a => k a
  | Throws e => Throws e
  end.

Notation "x ←! m ; k" := (bindO m (λ x, k))
  (at level 20, m at level 100, k at level 200, right associativity,
   only parsing).

(** [try { body } catch (error) { handler(error) }] *)
Definition try_catch {A : Type} (body : Outcome A) (handler : Thrown → Outcome A)
  : Outcome A :=
  match body with
  | Returns a => Returns a
  | Throws e => handler e
  end.

(** [error instanceof Error ? error.message : undefined] *)
Definition error_message (error : Thrown) : option string :=
  match error with
  | ErrorObject m => Some m
  | NotAnError => None
  end.

(** ** String helpers of the JavaScript runtime, on byte strings *)

Definition newline : ascii := ascii_of_nat 10.
Definition backslash : ascii := ascii_of_nat 92.
Definition slash : ascii := ascii_of_nat 47.

(** [s.split('\n')] *)
Fixpoint split_lines (s : string) : list string :=
  match s with
  | EmptyString => [EmptyString]
  | String c rest =>
      if bool_decide (c = newline) then EmptyString :: split_lines rest
      else match split_lines rest with
           | [] => [String c EmptyString]
           | w :: ws => String c w :: ws
           end
  end.

(** [String.prototype.trim] strips the code points of WhiteSpace and
    LineTerminator: U+0009 to U+000D, U+0020, U+00A0, U+1680, U+2000 to
    U+200A, U+2028, U+2029, U+202F, U+205F, U+3000 and U+FEFF.  A string is
    kept as its UTF-8 bytes, so a code point is recognised by its encoding:
    [is_space] holds the ones of one byte, [is_space2] the one of two (C2 A0)
    and [is_space3] the ones of three (E1 9A 80; E2 80 80 to 8A, A8, A9, AF;
    E2 81 9F; E3 80 80; EF BB BF). *)
Definition is_space (c : ascii) : bool :=
  let n := nat_of_ascii c in
  ((9 <=? n) && (n <=? 13)) || (n =? 32).

Definition is_space2 (c1 c2 : ascii) : bool :=
  (nat_of_ascii c1 =? 194) && (nat_of_ascii c2 =? 160).

Definition is_space3 (c1 c2 c3 : ascii) : bool :=
  let n1 := nat_of_ascii c1 in
  let n2 := nat_of_ascii c2 in
  let n3 := nat_of_ascii c3 in
  ((n1 =? 225) && (n2 =? 154) && (n3 =? 128))
  || ((n1 =? 226) && (n2 =? 128)
      && (((128 <=? n3) && (n3 <=? 138))
          || (n3 =? 168) || (n3 =? 169) || (n3 =? 175)))
  || ((n1 =? 226) && (n2 =? 129) && (n3 =? 159))
  || ((n1 =? 227) && (n2 =? 128) && (n3 =? 128))
  || ((n1 =? 239) && (n2 =? 187) && (n3 =? 191)).

(** [s] is one white space code point and nothing else. *)
Definition white_space (s : string) : bool :=
  match s with
  | String c1 EmptyString => is_space c1
  | String c1 (String c2 EmptyString) => is_space2 c1 c2
  | String c1 (String c2 (String c3 EmptyString)) => is_space3 c1 c2 c3
  | _ => false
  end.

Fixpoint trimStart (s : string) : string :=
  match s with
  | EmptyString => EmptyString
  | String c1 rest1 =>
      if is_space c1 then trimStart rest1
      else
        match rest1 with
        | EmptyString => s
        | String c2 rest2 =>
            if is_space2 c1 c2 then trimStart rest2
            else
              match rest2 with
              | EmptyString => s
              | String c3 rest3 =>
                  if is_space3 c1 c2 c3 then trimStart rest3 else s
              end
        end
  end.

(** From the end: once the rest is trimmed, what is left is dropped when
    it is the encoding of one white space code point. *)
Fixpoint trimEnd (s : string) : string :=
  match s with
  | EmptyString => EmptyString
  | String c rest =>
      let r := trimEnd rest in
      if white_space (String c r) then EmptyString else String c r
  end.

Definition trim (s : string) : string := trimEnd (trimStart s).

(** [haystack.startsWith(needle)] *)
Fixpoint startsWith (needle haystack : string) : bool :=
  match needle, haystack with
  | EmptyString, _ => true
  | String a n, String b h => bool_decide (a = b) && startsWith n h
  | String _ _, EmptyString => false
  end.

(** Whether [needle] occurs somewhere in [haystack]. *)
Fixpoint includes (needle haystack : string) : bool :=
  startsWith needle haystack ||
  match haystack with
  | EmptyString => false
  | String _ h => includes needle h
  end.

Definition lower (c : ascii) : ascii :=
  let n := nat_of_ascii c in
  if (65 <=? n) && (n <=? 90) then ascii_of_nat (n + 32) else c.

Fixpoint lowercase (s : string) : string :=
  match s with
  | EmptyString => EmptyString
  | String c rest => String (lower c) (lowercase rest)
  end.

(** Decimal rendering of a length inside a template string. *)
Definition decimal (n : nat) : string := NilEmpty.string_of_uint (Nat.to_uint n).

(** ** Commit preload: changed files of a batch of commits (GitService) *)

(** [const normalizePath = (value) => value.replace(/\\/g, '/')] *)
Fixpoint normalizePath (value : string) : string :=
  match value with
  | EmptyString => EmptyString
  | String c rest =>
      String (if bool_decide (c = backslash) then slash else c) (normalizePath rest)
  end.

Definition is_hex (c : ascii) : bool :=
  let n := nat_of_ascii c in
  ((48 <=? n) && (n <=? 57)) || ((97 <=? n) && (n <=? 102))
  || ((65 <=? n) && (n <=? 70)).

(** [COMMIT_HASH_REGEX = /^[0-9a-f]{7,40}$/i], as [COMMIT_HASH_REGEX.test] *)
Definition COMMIT_HASH_REGEX (s : string) : bool :=
  (7 <=? String.length s) && (String.length s <=? 40)
  && forallb is_hex (list_ascii_of_string s).

(** [dir.replace(/\/$/, '')]: one trailing slash is dropped. *)
Fixpoint drop_trailing_slash (dir : string) : string :=
  match dir with
  | EmptyString => EmptyString
  | String c EmptyString => if bool_decide (c = slash) then EmptyString else dir
  | String c rest => String c (drop_trailing_slash rest)
  end.

Definition filterFilesToPackages (files packageDirs : list string) : list string :=
  if length packageDirs =? 0 then files
  else
    let normalizedDirs :=
      (λ dir, drop_trailing_slash (normalizePath dir)) <$> packageDirs in
    List.filter
      (λ file,
         existsb (λ dir, bool_decide (file = dir)
                          || startsWith (dir +:+ "/") file)
                 normalizedDirs)
      files.

(** The version-control collaborator: [execFileSync('git', args, ...)] run
    in the project directory.  It answers the standard output or throws. *)
Definition Git := list string → Outcome string.

Record CommitFiles := mkCommitFiles {
  files : list string;
  warning : option string;
}.

Record GitFileResult := mkGitFileResult {
  result_files : list string;
  warnings : list string;
}.

(** [out.split('\n').map((file) => file.trim()).filter((file) => file.length > 0)] *)
Definition output_lines (out : string) : list string :=
  List.filter (λ file, 0 <? String.length file) (trim <$> split_lines out).

(** The inner [try] block of [getModifiedFilesFromCommit]: the diff of a
    merge commit against the merge base of its two parents. *)
Definition merge_base_diff (git : Git) (commitHash : string)
  : Outcome (list string) :=
  mergeParentOut ←! git ["rev-parse"; commitHash +:+ "^2"];
  let mergeParent := trim mergeParentOut in
  mergeBaseOut ←! git ["merge-base"; commitHash +:+ "^1"; mergeParent];
  let mergeBase := trim mergeBaseOut in
  out ←! git ["diff"; "--name-only"; "--diff-filter=ACMRT"; mergeBase; commitHash];
  Returns (output_lines out).

Definition getModifiedFilesFromCommit (git : Git) (commitHash : string)
  : CommitFiles :=
  if negb (COMMIT_HASH_REGEX commitHash) then
    {| files := [];
       warning := Some ("Invalid commit hash format: " +:+ commitHash) |}
  else
    match git ["diff-tree"; "-r"; "--no-commit-id"; "--name-only";
               "--diff-filter=ACMRT"; commitHash] with
    | Throws error =>
        let message := default "Unknown error" (error_message error) in
        {| files := [];
           warning := Some ("Error processing commit " +:+ commitHash
                            +:+ ": " +:+ message) |}
    | Returns out =>
        let output := output_lines out in
        if 0 <? length output then {| files := output; warning := None |}
        else
          match merge_base_diff git commitHash with
          | Returns mergeOutput => {| files := mergeOutput; warning := None |}
          | Throws _ =>
              {| files := [];
                 warning := Some ("Could not resolve merge files for "
                                  +:+ commitHash +:+ ".") |}
          end
    end.

(** [Array.from(new Set(xs))]: first occurrences, in order of insertion. *)
Fixpoint unique_from (seen : gset string) (xs : list string) : list string :=
  match xs with
  | [] => []
  | x :: rest =>
      if bool_decide (x ∈ seen) then unique_from seen rest
      else x :: unique_from (seen ∪ {[x]}) rest
  end.

(** The loop over the batch: the state is [(warnings, allFiles)]. *)
Definition collect_commit (git : Git) (acc : list string * list string)
    (commitHash : string) : list string * list string :=
  let '(warnings0, allFiles) := acc in
  let r := getModifiedFilesFromCommit git commitHash in
  let warnings1 := if truthy (warning r)
                   then warnings0 ++ [default "" (warning r)] else warnings0 in
  (warnings1, allFiles ++ files r).

Definition collect_commits (git : Git) (commitHashes : list string)
  : list string * list string :=
  foldl (collect_commit git) ([], []) commitHashes.

(** [packageDirs] is the answer of [GitService.getPackageDirectories], which
    catches its own failures and answers the empty list. *)
Definition getModifiedFilesFromCommits (git : Git) (packageDirs : list string)
    (commitHashes : list string) : GitFileResult :=
  let '(warnings0, allFiles) := collect_commits git commitHashes in
  let uniqueFiles :=
    List.filter (λ file, 0 <? String.length file)
                (unique_from ∅ (normalizePath <$> allFiles)) in
  let filtered := filterFilesToPackages uniqueFiles packageDirs in
  let warnings1 :=
    if (0 <? length uniqueFiles) && (length filtered =? 0)
       && (0 <? length packageDirs)
    then warnings0 ++ ["No files matched the configured packageDirectories."]
    else warnings0 in
  {| result_files := filtered; warnings := warnings1 |}.

(** A small repository for experiments: commit [abc1234] touches one file,
    [0f0f0f0f] is a merge whose direct diff is empty, [fffffff] is a merge
    whose second parent cannot be resolved. *)
Definition demo_git : Git := λ args,
  match args with
  | ["diff-tree"; _; _; _; _; "abc1234"] =>
      Returns ("force-app/main/default/classes/A.cls" +:+ String newline "")
  | ["diff-tree"; _; _; _; _; _] => Returns ""
  | ["rev-parse"; "0f0f0f0f^2"] => Returns ("1111111" +:+ String newline "")
  | ["merge-base"; "0f0f0f0f^1"; "1111111"] =>
      Returns ("2222222" +:+ String newline "")
  | ["diff"; _; _; "2222222"; "0f0f0f0f"] =>
      Returns ("force-app/main/default/classes/B.cls" +:+ String newline "")
  | _ => Throws (ErrorObject "Command failed")
  end.

(** ** Retrieve and deploy (MetadataService) *)

Record MetadataProgress := mkProgress {
  current : nat;
  total : nat;
  progress_message : option string;
}.

(** The result every action hands back: [{ success, message, details? }]. *)
Record ActionResult := mkResult {
  success : bool;
  message : string;
  details : option (list string);
}.

(** [/cancelled|canceled/i.test(value)], after the guard [!value]. *)
Definition isCanceled (value : option string) : bool :=
  if truthy value then
    let v := lowercase (default "" value) in
    includes "cancelled" v || includes "canceled" v
  else false.

(** One entry of [response.messages]: a plain string or [{ fileName?, problem? }]. *)
Inductive RetrieveMessage :=
  | MessageText (text : string)
  | MessageObject (fileName0 problem : option string).

(** A field of the remote response that holds one value or an array. *)
Inductive OneOrMany (A : Type) : Type :=
  | Many (items : list A)
  | One (item : A).
Arguments Many {A} items.
Arguments One {A} item.

Record RetrieveResponse := mkRetrieveResponse {
  retrieve_status : option string;
  retrieve_success : bool;
  retrieve_messages : option (OneOrMany RetrieveMessage);
}.

Record ComponentFailure := mkFailure {
  failure_fullName : option string;
  failure_problem : option string;
}.

(** [response.details?.componentFailures] of a deploy, already looked up. *)
Record DeployResponse := mkDeployResponse {
  deploy_status : option string;
  deploy_success : bool;
  componentFailures : option (OneOrMany ComponentFailure);
}.

(** The operation handle the transport answers.  [op_cancel] is what the
    handle's [cancel] does when it has one; [op_onUpdate] is what
    registering a listener does when [onUpdate] is a function;
    [pollStatus] waits for the terminal response. *)
Record Operation (Response : Type) := mkOperation {
  op_cancel : option (Outcome unit);
  op_onUpdate : option (Outcome unit);
  pollStatus : Outcome Response;
}.
Arguments op_cancel {Response} _.
Arguments op_onUpdate {Response} _.
Arguments pollStatus {Response} _.

(** The callbacks of the caller; either may throw. *)
Definition ProgressCallback := MetadataProgress → Outcome unit.
Definition CancelableCallback := Outcome unit → Outcome unit.

(** The closure handed to [onCancelable]:
    [async () => { if (typeof cancel === 'function') await cancel.call(op) }] *)
Definition cancel_closure {Response : Type} (op : Operation Response)
  : Outcome unit :=
  match op_cancel op with
  | Some run => run
  | None => Returns ()
  end.

Definition call_optional {A : Type} (callback : option (A → Outcome unit)) (a : A)
  : Outcome unit :=
  match callback with
  | Some f => f a
  | None => Returns ()
  end.

(** [if (typeof op.onUpdate === 'function') op.onUpdate(listener)] *)
Definition register_listener {Response : Type} (op : Operation Response)
  : Outcome unit :=
  match op_onUpdate op with
  | Some register => register
  | None => Returns ()
  end.

(** [if (onProgress && total > 0) onProgress({ current: total, total, message })] *)
Definition report_completed (onProgress : option ProgressCallback) (n : nat)
  : Outcome unit :=
  match onProgress with
  | Some f =>
      if 0 <? n then f (mkProgress n n (Some "Status: Completed")) else Returns ()
  | None => Returns ()
  end.

(** [components.map((component) => `${component.type}: ${component.fullName}`)] *)
Definition describe (components : list MetadataComponent) : list string :=
  (λ component, type component +:+ ": " +:+ fullName component) <$> components.

Definition retrieve_problem (m : RetrieveMessage) : string :=
  match m with
  | MessageText text => text
  | MessageObject _ problem => default "Unknown error" problem
  end.

(** JavaScript truthiness of one entry of [messages]: only the empty string
    is falsy; an object always counts. *)
Definition message_truthy (m : RetrieveMessage) : bool :=
  match m with
  | MessageText text => negb (bool_decide (text = ""))
  | MessageObject _ _ => true
  end.

Definition retrieve_details (messages : option (OneOrMany RetrieveMessage))
  : list string :=
  match messages with
  | Some (Many items) => retrieve_problem <$> items
  | Some (One item) =>
      if message_truthy item then [retrieve_problem item] else ["Unknown error"]
  | None => ["Unknown error"]
  end.

Definition deploy_failure_line (failure : ComponentFailure) : string :=
  default "Unknown" (failure_fullName failure) +:+ ": "
  +:+ default "Unknown error" (failure_problem failure).

Definition deploy_details (failures : option (OneOrMany ComponentFailure))
  : list string :=
  match failures with
  | Some (Many items) => deploy_failure_line <$> items
  | Some (One item) => [deploy_failure_line item]
  | None => ["Unknown error"]
  end.

(** The remote transport as [retrieve] uses it:
    [new ComponentSet()], the [add] calls and [componentSet.retrieve(...)],
    given the (type, fullName) pairs that were added. *)
Definition RetrieveTransport :=
  list (string * string) → Outcome (Operation RetrieveResponse).

(** The body of the [try] block of [retrieve]. *)
Definition retrieve_try (startRetrieve : RetrieveTransport)
    (components : list MetadataComponent)
    (onProgress : option ProgressCallback)
    (onCancelable : option CancelableCallback) : Outcome ActionResult :=
  op ←! startRetrieve ((λ component, (type component, fullName component))
                         <$> components);
  _ ←! call_optional onCancelable (cancel_closure op);
  let n := length components in
  _ ←! register_listener op;
  response ←! pollStatus op;
  _ ←! report_completed onProgress n;
  if isCanceled (retrieve_status response) then
    Returns (mkResult false "Retrieve cancelled" None)
  else if retrieve_success response then
    Returns (mkResult true
               ("Successfully retrieved " +:+ decimal (length components)
                +:+ " component(s)")
               (Some (describe components)))
  else
    Returns (mkResult false "Retrieve failed"
               (Some (retrieve_details (retrieve_messages response)))).

(** The [catch] clause of [retrieve]. *)
Definition retrieve_catch (error : Thrown) : Outcome ActionResult :=
  if isCanceled (error_message error) then
    Returns (mkResult false "Retrieve cancelled" None)
  else
    Returns (mkResult false
               ("Retrieve error: "
                +:+ default "Unknown error" (error_message error))
               None).

Definition retrieve (startRetrieve : RetrieveTransport)
    (components : list MetadataComponent)
    (onProgress : option ProgressCallback)
    (onCancelable : option CancelableCallback) : Outcome ActionResult :=
  try_catch (retrieve_try startRetrieve components onProgress onCancelable)
            retrieve_catch.

(** What [deploy] needs from the project and the transport.  A source
    component is known here by its path. *)
Record DeployTransport := mkDeployTransport {
  projectPath : string;
  (** [SfProject.resolve(projectPath)] and the full paths of its unique
      package directories *)
  packageDirectories : Outcome (list string);
  (** [ComponentSet.fromSource({ fsPaths })], then
      [getSourceComponents({ fullName, type })] on the set it answers *)
  fromSource : list string → Outcome (string → string → Outcome (list string));
  (** [componentSet.deploy(...)] on the source components that were added *)
  startDeploy : list string → Outcome (Operation DeployResponse);
}.

Definition getPackagePaths (tr : DeployTransport) : list string :=
  match packageDirectories tr with
  | Returns packages =>
      if 0 <? length packages then packages else [projectPath tr]
  | Throws _ => [projectPath tr]
  end.

(** The loop that fills the component set to deploy. *)
Fixpoint gather_sources (getSourceComponents : string → string → Outcome (list string))
    (components : list MetadataComponent) (componentSet : list string)
  : Outcome (list string) :=
  match components with
  | [] => Returns componentSet
  | component :: rest =>
      sourceComponents ←!
        getSourceComponents (fullName component) (type component);
      gather_sources getSourceComponents rest (componentSet ++ sourceComponents)
  end.

(** The body of the [try] block of [deploy]. *)
Definition deploy_try (tr : DeployTransport)
    (components : list MetadataComponent)
    (onProgress : option ProgressCallback)
    (onCancelable : option CancelableCallback) : Outcome ActionResult :=
  let packagePaths := getPackagePaths tr in
  getSourceComponents ←! fromSource tr packagePaths;
  componentSet ←! gather_sources getSourceComponents components [];
  if length componentSet =? 0 then
    Returns (mkResult false "No local components found to deploy" None)
  else
    op ←! startDeploy tr componentSet;
    _ ←! call_optional onCancelable (cancel_closure op);
    let n := length components in
    _ ←! register_listener op;
    response ←! pollStatus op;
    _ ←! report_completed onProgress n;
    if isCanceled (deploy_status response) then
      Returns (mkResult false "Deploy cancelled" None)
    else if deploy_success response then
      Returns (mkResult true
                 ("Successfully deployed " +:+ decimal (length components)
                  +:+ " component(s)")
                 (Some (describe components)))
    else
      Returns (mkResult false "Deploy failed"
                 (Some (deploy_details (componentFailures response)))).

(** The [catch] clause of [deploy]. *)
Definition deploy_catch (error : Thrown) : Outcome ActionResult :=
  if isCanceled (error_message error) then
    Returns (mkResult false "Deploy cancelled" None)
  else
    Returns (mkResult false
               ("Deploy error: "
                +:+ default "Unknown error" (error_message error))
               None).

Definition deploy (tr : DeployTransport)
    (components : list MetadataComponent)
    (onProgress : option ProgressCallback)
    (onCancelable : option CancelableCallback) : Outcome ActionResult :=
  try_catch (deploy_try tr components onProgress onCancelable) deploy_catch.

(** ** Vocabulary of the statements *)

(** The full names held by the three base buckets, bucket after bucket. *)
Definition bucket_names (cmp : MetadataComparison) : list string :=
  names (localOnly cmp) ++ names (remoteOnly cmp) ++ names (synced cmp).

(** [n] is a full name of exactly one of the three base buckets. *)
Definition in_exactly_one_bucket (n : string) (cmp : MetadataComparison) : Prop :=
  let lo := names (localOnly cmp) in
  let ro := names (remoteOnly cmp) in
  let sy := names (synced cmp) in
  ((n ∈ lo) ∧ (n ∉ ro) ∧ (n ∉ sy))
  ∨ ((n ∉ lo) ∧ (n ∈ ro) ∧ (n ∉ sy))
  ∨ ((n ∉ lo) ∧ (n ∉ ro) ∧ (n ∈ sy)).

(** The number of distinct full names over both inventories. *)
Definition union_cardinal (localComponents remoteComponents : list MetadataComponent)
  : nat :=
  size (list_to_set (names localComponents) ∪ list_to_set (names remoteComponents)
        : gset string).

(** ** More of the JavaScript runtime on strings *)

(** [s.split(sep)] for a separator of one character *)
Fixpoint split_char (sep : ascii) (s : string) : list string :=
  match s with
  | EmptyString => [EmptyString]
  | String c rest =>
      if bool_decide (c = sep) then EmptyString :: split_char sep rest
      else match split_char sep rest with
           | [] => [String c EmptyString]
           | w :: ws => String c w :: ws
           end
  end.

(** [s.slice(n)] for [0 <= n] *)
Fixpoint slice_from (n : nat) (s : string) : string :=
  match n, s with
  | 0, _ => s
  | S m, EmptyString => EmptyString
  | S m, String _ rest => slice_from m rest
  end.

(** [s.replace(needle, '')] with a string pattern: the first occurrence of
    [needle] is dropped. *)
Fixpoint remove_first (needle s : string) : string :=
  if startsWith needle s then slice_from (String.length needle) s
  else match s with
       | EmptyString => EmptyString
       | String c rest => String c (remove_first needle rest)
       end.

Definition colon : ascii := ascii_of_nat 58.
Definition dot : ascii := ascii_of_nat 46.
Definition dash : ascii := ascii_of_nat 45.
Definition underscore : ascii := ascii_of_nat 95.

(** ** Tri-state aggregation and scopes (App) *)

Inductive SelectionState := SelectedNone | SelectedPartial | SelectedAll.

(** [getSelectionState] of [App], over the selection it closes over. *)
Definition getSelectionState (selectedIds : gset string)
    (comps : list MetadataComponent) : SelectionState :=
  if length comps =? 0 then SelectedNone
  else
    let selectedCount :=
      length (List.filter (λ component, isSelected selectedIds (id component))
                          comps) in
    if selectedCount =? 0 then SelectedNone
    else if selectedCount =? length comps then SelectedAll
    else SelectedPartial.

Inductive ScopeKind := Unpackaged | InPackage.

#[global] Instance ScopeKind_eq_dec : EqDecision ScopeKind.
Proof. solve_decision. Defined.

(** [{ scope: 'unpackaged' }] or [{ scope: 'package', packageName }] *)
Record SelectionScope := mkScope {
  scope : ScopeKind;
  scope_packageName : option string;
}.

Record ParsedNode := mkParsed {
  parsed_scope : SelectionScope;
  typeName : option string;
}.

(** [parseNodeId] of [App]: node ids of the type tree back to scope and type. *)
Definition parseNodeId (nodeId : string) : option ParsedNode :=
  if startsWith "unpackaged:type:" nodeId then
    let typeName0 := remove_first "unpackaged:type:" nodeId in
    Some (mkParsed (mkScope Unpackaged None) (Some typeName0))
  else if startsWith "package:" nodeId then
    let remainder := remove_first "package:" nodeId in
    let parts := split_char colon remainder in
    let packageName0 := parts !! 0 in
    let typeMarker := parts !! 1 in
    let typeName0 := parts !! 2 in
    if bool_decide (typeMarker = Some "type") && truthy typeName0
    then Some (mkParsed (mkScope InPackage packageName0) typeName0)
    else Some (mkParsed (mkScope InPackage packageName0) None)
  else None.

(** The node ids that [typeNodes] gives to the type entries. *)
Definition unpackaged_node_id (typeName0 : string) : string :=
  "unpackaged:type:" +:+ typeName0.
Definition package_node_id (packageName0 : string) : string :=
  "package:" +:+ packageName0.
Definition package_type_node_id (packageName0 typeName0 : string) : string :=
  "package:" +:+ packageName0 +:+ ":type:" +:+ typeName0.

(** [scopedComponents] of [App] *)
Definition scopedComponents (selectionScope : SelectionScope)
    (comps : list MetadataComponent) : list MetadataComponent :=
  match scope selectionScope with
  | Unpackaged =>
      List.filter (λ component, negb (truthy (packageName component))) comps
  | InPackage =>
      List.filter
        (λ component,
           bool_decide (packageName component = scope_packageName selectionScope))
        comps
  end.

(** [handleToggleAll]: the state update it asks of the selection. *)
Definition handleToggleAll (filteredComponents : list MetadataComponent)
    (selectedIds : gset string) : gset string :=
  if length filteredComponents =? 0 then selectedIds
  else toggleMultiple (id <$> filteredComponents) selectedIds.

(** The object a component is grouped under in the grouped view. *)
Definition objectName (component : MetadataComponent) : string :=
  if bool_decide (type component = "CustomObject") then fullName component
  else if includes "." (fullName component) then
    default "" (split_char dot (fullName component) !! 0)
  else if includes "-" (fullName component) then
    default "" (split_char dash (fullName component) !! 0)
  else "Uncategorized".

(** The label of a component under its object in the grouped view. *)
Definition displayName (objectName0 : string) (component : MetadataComponent)
  : string :=
  if bool_decide (type component = "CustomObject") then fullName component
  else if startsWith (objectName0 +:+ ".") (fullName component) then
    slice_from (String.length objectName0 + 1) (fullName component)
  else if startsWith (objectName0 +:+ "-") (fullName component) then
    slice_from (String.length objectName0 + 1) (fullName component)
  else fullName component.

(** ** The inventory sources (MetadataService) *)

#[local] Set Warnings "-register-all".

(** What the source resolver knows of a local component; [getChildren()]
    answers [source_children]. *)
Inductive SourceComponent :=
  SourceNode (source_type source_fullName : string)
             (source_xml source_content : option string)
             (source_children : list SourceComponent).

Definition source_type (c : SourceComponent) : string :=
  match c with SourceNode t _ _ _ _ => t end.
Definition source_fullName (c : SourceComponent) : string :=
  match c with SourceNode _ n _ _ _ => n end.
Definition source_xml (c : SourceComponent) : option string :=
  match c with SourceNode _ _ x _ _ => x end.
Definition source_content (c : SourceComponent) : option string :=
  match c with SourceNode _ _ _ x _ => x end.
Definition getChildren (c : SourceComponent) : list SourceComponent :=
  match c with SourceNode _ _ _ _ cs => cs end.

(** The number of components of a tree. *)
Fixpoint tree_size (c : SourceComponent) : nat :=
  match c with
  | SourceNode _ _ _ _ cs => S (list_sum (List.map tree_size cs))
  end.

(** One entry of [connection.metadata.list]. *)
Record FileProperties := mkFileProperties {
  fp_fullName : string;
  fp_fileName : option string;
  fp_lastModifiedDate : option string;
  fp_lastModifiedByName : option string;
}.

(** [connection.metadata.list([{ type }])]: an array, one entry, or
    nothing; or a rejection. *)
Definition Connection := string → Outcome (option (OneOrMany FileProperties)).

(** [resolver.getComponentsFromPath(path)] *)
Definition Resolver := string → Outcome (list SourceComponent).

Definition is_word (c : ascii) : bool :=
  let n := nat_of_ascii c in
  ((48 <=? n) && (n <=? 57)) || ((65 <=? n) && (n <=? 90))
  || ((97 <=? n) && (n <=? 122)) || (n =? 95).

(** The first [n] characters of [s]. *)
Fixpoint slice_to (n : nat) (s : string) : string :=
  match n, s with
  | 0, _ => EmptyString
  | S m, EmptyString => EmptyString
  | S m, String c rest => String c (slice_to m rest)
  end.

(** Where group 1 of [/^([A-Za-z0-9_]+)__/] ends: the quantifier is greedy,
    so it is the longest run of word characters from the start that two
    underscores follow. *)
Fixpoint namespace_length (s : string) : option nat :=
  match s with
  | EmptyString => None
  | String c rest =>
      if is_word c then
        match namespace_length rest with
        | Some k => Some (S k)
        | None => if startsWith "__" rest then Some 1 else None
        end
      else None
  end.

Module MetadataService.

Definition OBJECT_TYPES : list string :=
  ["CustomObject"; "CustomField"; "ValidationRule"; "RecordType";
   "BusinessProcess"; "FieldSet"; "CompactLayout"; "ListView"; "WebLink";
   "SharingReason"].

Definition getPackageName (type0 fullName0 : string) : option string :=
  if bool_decide (type0 ∈ OBJECT_TYPES) then None
  else match namespace_length fullName0 with
       | Some k => Some (slice_to k fullName0)
       | None => None
       end.

(** [component.xml ?? component.content] *)
Definition source_file (component : SourceComponent) : option string :=
  match source_xml component with
  | Some x => Some x
  | None => source_content component
  end.

Definition localComponentKey (component : SourceComponent) : string :=
  source_type component +:+ ":" +:+ source_fullName component +:+ ":"
  +:+ default "" (source_file component).

Definition toLocalMetadataComponent (component : SourceComponent) (index : nat)
  : MetadataComponent :=
  let type0 := source_type component in
  let packageName0 := getPackageName type0 (source_fullName component) in
  {| packageName := packageName0;
     isThirdParty := Some (bool_decide (packageName0 ≠ None));
     id := "local-" +:+ type0 +:+ "-" +:+ source_fullName component +:+ "-"
           +:+ decimal index;
     type := type0;
     fullName := source_fullName component;
     fileName := source_file component;
     lastModifiedDate := None;
     lastModifiedBy := None;
     status := LocalOnly |}.

(** The [while] loop of [collectComponentTree].  The stack is kept with its
    top first: [stack.pop()] takes the head and [stack.push(...children)]
    leaves the last child on top.  [fuel] bounds the number of turns. *)
Fixpoint collect_loop (fuel : nat) (stack collected : list SourceComponent)
  : option (list SourceComponent) :=
  match stack with
  | [] => Some collected
  | current :: rest =>
      match fuel with
      | 0 => None
      | S fuel' =>
          collect_loop fuel' (rev (getChildren current) ++ rest)
                       (collected ++ [current])
      end
  end.

(** The loop takes one turn for each component of the tree, so
    [tree_size root] turns are enough and the default is never used
    (see [collect_loop_enough]). *)
Definition collectComponentTree (root : SourceComponent)
  : list SourceComponent :=
  default [] (collect_loop (tree_size root) [root] []).

(** The innermost loop of [listAllLocalSourceComponents]: the components of
    one tree, skipping keys already seen.  The state is [(seen, all)]. *)
Definition keep_unseen (acc : gset string * list SourceComponent)
    (component : SourceComponent) : gset string * list SourceComponent :=
  let key := localComponentKey component in
  if bool_decide (key ∈ acc.1) then acc
  else (acc.1 ∪ {[key]}, acc.2 ++ [component]).

(** The loop of [listAllLocalSourceComponents] over the package paths. *)
Fixpoint gather_paths (resolver : Resolver)
    (packagePaths : list string)
    (acc : gset string * list SourceComponent)
  : Outcome (gset string * list SourceComponent) :=
  match packagePaths with
  | [] => Returns acc
  | packagePath :: rest =>
      roots ←! resolver packagePath;
      gather_paths resolver rest
        (foldl (λ acc0 root, foldl keep_unseen acc0 (collectComponentTree root))
               acc roots)
  end.

Definition listAllLocalSourceComponents (project : DeployTransport)
    (resolver : Resolver) : Outcome (list SourceComponent) :=
  acc ←! gather_paths resolver (getPackagePaths project) (∅, []);
  Returns acc.2.

Definition listRemoteComponents (connection : Connection)
    (newDate : string → Z) (type0 : string) : list MetadataComponent :=
  match connection type0 with
  | Throws _ => []
  | Returns listResult =>
      let items := match listResult with
                   | Some (Many l) => l
                   | Some (One item) => [item]
                   | None => []
                   end in
      imap (λ index item,
              let packageName0 := getPackageName type0 (fp_fullName item) in
              {| packageName := packageName0;
                 isThirdParty := Some (bool_decide (packageName0 ≠ None));
                 id := "remote-" +:+ type0 +:+ "-" +:+ fp_fullName item +:+ "-"
                       +:+ decimal index;
                 type := type0;
                 fullName := fp_fullName item;
                 fileName := fp_fileName item;
                 lastModifiedDate :=
                   if truthy (fp_lastModifiedDate item)
                   then newDate <$> fp_lastModifiedDate item else None;
                 lastModifiedBy := fp_lastModifiedByName item;
                 status := RemoteOnly |})
           items
  end.

Definition listLocalComponents (project : DeployTransport)
    (resolver : Resolver) (type0 : string) : list MetadataComponent :=
  match listAllLocalSourceComponents project resolver with
  | Throws _ => []
  | Returns components0 =>
      imap (λ index component, toLocalMetadataComponent component index)
           (List.filter (λ component, bool_decide (source_type component = type0))
                        components0)
  end.

(** The loop of [listLocalComponentsByTypes]; the state is
    [(index, buckets)]. *)
Definition bucket_component (requested : gset string)
    (acc : nat * gmap string (list MetadataComponent))
    (component : SourceComponent) : nat * gmap string (list MetadataComponent) :=
  if negb (bool_decide (source_type component ∈ requested)) then acc
  else
    let mapped := toLocalMetadataComponent component acc.1 in
    let buckets :=
      match acc.2 !! source_type component with
      | Some current0 => <[source_type component := current0 ++ [mapped]]> acc.2
      | None => <[source_type component := [mapped]]> acc.2
      end in
    (acc.1 + 1, buckets).

Definition listLocalComponentsByTypes (project : DeployTransport)
    (resolver : Resolver) (typeNames : list string)
  : gmap string (list MetadataComponent) :=
  let requested : gset string := list_to_set typeNames in
  let buckets0 : gmap string (list MetadataComponent) :=
    foldl (λ buckets typeName0, <[typeName0 := []]> buckets) ∅ typeNames in
  match listAllLocalSourceComponents project resolver with
  | Throws _ => buckets0
  | Returns components0 =>
      (foldl (bucket_component requested) (0, buckets0) components0).2
  end.

End MetadataService.

(** ** The persisted state (SyncStateService)

    The state file holds the JSON text of a [SyncState].  [DEFAULT_STATE] is
    one object for the whole process; [{ ...DEFAULT_STATE }] copies its
    fields, so a state loaded without a readable file shares the [cache] and
    [subscriptions] objects of [DEFAULT_STATE], and an assignment into them
    is seen by every later such load.  The keys of those objects are names
    of metadata types and of orgs; they are taken outside the property names
    of [Object.prototype] ([plain_key]). *)

Definition Object_prototype_keys : list string :=
  ["constructor"; "__defineGetter__"; "__defineSetter__"; "hasOwnProperty";
   "__lookupGetter__"; "__lookupSetter__"; "isPrototypeOf";
   "propertyIsEnumerable"; "toString"; "valueOf"; "__proto__";
   "toLocaleString"].

Definition plain_key (k : string) : bool :=
  negb (bool_decide (k ∈ Object_prototype_keys)).

Module SyncStateService.

Inductive StateFile :=
  | NoFile
  | Unreadable
  | Stored (content : SyncState).

(** What a failed write leaves of the file.  [ensureStateDir] and the
    opening of the file fail before anything is written.  [writeFileSync]
    opens the file with truncation, so a fault raised while it writes
    (a full disk, an input/output error) leaves an empty or partial text,
    which [JSON.parse] refuses; a fault raised once all was written leaves
    the new text. *)
Inductive FaultLeaves := FileUntouched | FileTruncated | FileWritten.

Record WriteFault := mkWriteFault {
  fault_error : Thrown;
  fault_leaves : FaultLeaves;
}.

(** The file, the fault that a write raises (if any), and the two shared
    objects of [DEFAULT_STATE]. *)
Record World := mkWorld {
  file : StateFile;
  write_fault : option WriteFault;
  default_cache : gmap string CachedMetadata;
  default_subscriptions : gmap string (list string);
}.

(** A field that holds an object: the shared one of [DEFAULT_STATE] or one
    of its own. *)
Inductive Ref (A : Type) : Type :=
  | Shared
  | Own (a : A).
Arguments Shared {A}.
Arguments Own {A} a.

Record Loaded := mkLoaded {
  loaded_lastSync : option LastSync;
  loaded_cache : Ref (gmap string CachedMetadata);
  loaded_subscriptions : option (Ref (gmap string (list string)));
}.

Definition load (w : World) : Loaded :=
  match file w with
  | Stored content =>
      mkLoaded (lastSync content) (Own (cache content))
               (Own <$> subscriptions content)
  | NoFile | Unreadable => mkLoaded None Shared (Some Shared)
  end.

Definition cache_of (w : World) (state : Loaded) : gmap string CachedMetadata :=
  match loaded_cache state with
  | Shared => default_cache w
  | Own m => m
  end.

Definition subscriptions_of (w : World) (state : Loaded)
  : option (gmap string (list string)) :=
  match loaded_subscriptions state with
  | Some Shared => Some (default_subscriptions w)
  | Some (Own m) => Some m
  | None => None
  end.

(** What [JSON.stringify(state)] writes. *)
Definition snapshot (w : World) (state : Loaded) : SyncState :=
  mkSyncState (loaded_lastSync state) (cache_of w state) (subscriptions_of w state).

(** [save]: [ensureStateDir] and [writeFileSync]. *)
Definition save (w : World) (state : Loaded) : World * Outcome unit :=
  match write_fault w with
  | Some fault =>
      (mkWorld (match fault_leaves fault with
                | FileUntouched => file w
                | FileTruncated => Unreadable
                | FileWritten => Stored (snapshot w state)
                end)
               (write_fault w) (default_cache w) (default_subscriptions w),
       Throws (fault_error fault))
  | None =>
      (mkWorld (Stored (snapshot w state)) None
               (default_cache w) (default_subscriptions w),
       Returns ())
  end.

(** [now] is [new Date().toISOString()]. *)
Definition updateLastSync (w : World) (orgUsername0 : string)
    (types : list string) (now : string) : World * Outcome unit :=
  let state := load w in
  save w (mkLoaded (Some (mkLastSync orgUsername0 now types))
                   (loaded_cache state) (loaded_subscriptions state)).

Definition getCachedMetadata (w : World) (type0 : string)
  : option CachedMetadata :=
  cache_of w (load w) !! type0.

(** [state.cache[type] = data] *)
Definition setCachedMetadata (w : World) (type0 : string)
    (data : CachedMetadata) : World * Outcome unit :=
  let state := load w in
  match loaded_cache state with
  | Shared =>
      save (mkWorld (file w) (write_fault w)
                    (<[type0 := data]> (default_cache w))
                    (default_subscriptions w))
           state
  | Own m =>
      save w (mkLoaded (loaded_lastSync state) (Own (<[type0 := data]> m))
                       (loaded_subscriptions state))
  end.

(** [state.cache = {}] *)
Definition clearCache (w : World) : World * Outcome unit :=
  let state := load w in
  save w (mkLoaded (loaded_lastSync state) (Own ∅) (loaded_subscriptions state)).

(** [state.subscriptions?.[orgUsername] ?? null] *)
Definition getSubscriptions (w : World) (orgUsername0 : string)
  : option (list string) :=
  m ← subscriptions_of w (load w); m !! orgUsername0.

(** [state.subscriptions = state.subscriptions ?? {};
     state.subscriptions[orgUsername] = types] *)
Definition setSubscriptions (w : World) (orgUsername0 : string)
    (types : list string) : World * Outcome unit :=
  let state := load w in
  match loaded_subscriptions state with
  | Some Shared =>
      save (mkWorld (file w) (write_fault w) (default_cache w)
                    (<[orgUsername0 := types]> (default_subscriptions w)))
           state
  | Some (Own m) =>
      save w (mkLoaded (loaded_lastSync state) (loaded_cache state)
                       (Some (Own (<[orgUsername0 := types]> m))))
  | None =>
      save w (mkLoaded (loaded_lastSync state) (loaded_cache state)
                       (Some (Own (<[orgUsername0 := types]> ∅))))
  end.

(** The state the [useSyncState] hook holds after it has loaded. *)
Definition hook_state (w : World) : option SyncState :=
  Some (snapshot w (load w)).

(** A process start on a project without state file. *)
Definition fresh_world : World := mkWorld NoFile None ∅ ∅.

End SyncStateService.

(** ** The commit preload of [App] *)

(** What [setResult] shows. *)
Record ResultState := mkResultState {
  result_success : bool;
  result_title : string;
  result_message : string;
  result_details : option (list string);
}.

Inductive PreloadOutcome :=
  | NoFilesFound (result : ResultState)
  | TypesAutoAdded (missingSubscribed nextSubscribedTypes : list string)
                   (result : ResultState)
  | PreloadDone (matchedComponents : list MetadataComponent)
                (unmatchedFiles : list string) (result : ResultState).

(** [try { resolved = resolver.getComponentsFromPath(path.join(projectPath, file)) }
     catch { resolved = [] }] *)
Definition resolve_file (resolver : Resolver) (pathJoin : string → string)
    (file : string) : list SourceComponent :=
  match resolver (pathJoin file) with
  | Returns resolved => resolved
  | Throws _ => []
  end.

(** [componentMap]: keyed by [`${type}:${fullName}`], a later component
    replaces an earlier one with the same key. *)
Definition componentMap (allCachedComponents : list MetadataComponent)
  : gmap string MetadataComponent :=
  foldl (λ m component,
           <[type component +:+ ":" +:+ fullName component := component]> m)
        ∅ allCachedComponents.

Definition resolved_key (resolvedComponent : SourceComponent) : string :=
  source_type resolvedComponent +:+ ":" +:+ source_fullName resolvedComponent.

(** The inner loop over the components one file resolves to; the state is
    [(matchedIds, matched)]. *)
Definition match_resolved (cmap : gmap string MetadataComponent)
    (acc : gset string * bool) (resolvedComponent : SourceComponent)
  : gset string * bool :=
  match cmap !! resolved_key resolvedComponent with
  | Some cached => (acc.1 ∪ {[id cached]}, true)
  | None => acc
  end.

(** The loop over the files; the state is [(matchedIds, unmatchedFiles)].
    [resolvedByFile.get(file)] is what the resolver answered for the file
    in the first loop. *)
Definition match_file (resolver : Resolver) (pathJoin : string → string)
    (cmap : gmap string MetadataComponent)
    (acc : gset string * list string) (file : string)
  : gset string * list string :=
  let resolved := resolve_file resolver pathJoin file in
  if length resolved =? 0 then (acc.1, acc.2 ++ [file])
  else
    let '(matchedIds, matched) :=
      foldl (match_resolved cmap) (acc.1, false) resolved in
    if matched then (matchedIds, acc.2) else (matchedIds, acc.2 ++ [file]).

(** The types the files resolve to, in order of first appearance:
    [Array.from(resolvedTypes)]. *)
Definition resolvedTypes (resolver : Resolver) (pathJoin : string → string)
    (files0 : list string) : list string :=
  unique_from ∅
    (files0 ≫= λ file, source_type <$> resolve_file resolver pathJoin file).

(** The body of [preload], given what [getModifiedFilesFromCommits]
    answered.  [localeSort] is the sort by [localeCompare]; [pathJoin] is
    [path.join(projectPath, _)].  The outcome carries what the body hands
    to the state setters: the result to show, the next subscription list
    (which is also persisted for the connected org), and the components
    given to [selectAll]. *)
Definition preload (found : GitFileResult) (resolver : Resolver)
    (pathJoin : string → string) (localeSort : list string → list string)
    (subscribedTypes : list string)
    (allCachedComponents : list MetadataComponent)
    (usingLocalBaseline : bool) : PreloadOutcome :=
  let files0 := result_files found in
  let warnings0 := warnings found in
  if length files0 =? 0 then
    NoFilesFound
      (mkResultState false "No files found"
         "No files were detected for the provided commits."
         (if 0 <? length warnings0
          then Some ((λ w, "Warning: " +:+ w) <$> warnings0) else None))
  else
    let missingSubscribed :=
      List.filter (λ typeName0, negb (bool_decide (typeName0 ∈ subscribedTypes)))
                  (resolvedTypes resolver pathJoin files0) in
    if 0 <? length missingSubscribed then
      TypesAutoAdded missingSubscribed
        (localeSort (unique_from ∅ (subscribedTypes ++ missingSubscribed)))
        (mkResultState true "Types auto-added"
           ("Added " +:+ decimal (length missingSubscribed)
            +:+ " type(s) to subscriptions. Re-running preload...")
           (Some ((λ typeName0, "Added: " +:+ typeName0) <$> missingSubscribed)))
    else
      let cmap := componentMap allCachedComponents in
      let '(matchedIds, unmatchedFiles) :=
        foldl (match_file resolver pathJoin cmap) (∅, []) files0 in
      let matchedComponents :=
        List.filter (λ component, bool_decide (id component ∈ matchedIds))
                    allCachedComponents in
      let details0 :=
        ((λ w, "Warning: " +:+ w) <$> warnings0)
        ++ ((λ file, "Unmatched: " +:+ file) <$> unmatchedFiles) in
      PreloadDone matchedComponents unmatchedFiles
        (mkResultState (0 <? length matchedComponents)
           (if 0 <? length matchedComponents
            then "Preload complete" else "Preload incomplete")
           ("Matched " +:+ decimal (length matchedComponents)
            +:+ " component(s) from " +:+ decimal (length files0)
            +:+ " file(s) using "
            +:+ (if usingLocalBaseline then "local baseline" else "sync cache")
            +:+ ".")
           (if 0 <? length details0 then Some details0 else None)).

(** ** The hook over the service (useMetadata) *)

(** [getTypeComponents]: for one type, the buckets in the order the cache
    receives them. *)
Definition typeComponentsOf (svc : InventorySource) (typeName0 : string)
  : list MetadataComponent :=
  let comp := compareMetadata svc typeName0 in
  localOnly comp ++ synced comp ++ remoteOnly comp ++ conflicts comp.

(** ** Vocabulary of the statements about the inventory sources *)

(** The order in which [collectComponentTree] visits a tree: a component,
    then the trees of its children, last child first. *)
Fixpoint preorder (c : SourceComponent) : list SourceComponent :=
  match c with
  | SourceNode _ _ _ _ cs => c :: concat (rev (List.map preorder cs))
  end.

(** [within c root]: [c] is [root] or a descendant of it. *)
Inductive within : SourceComponent → SourceComponent → Prop :=
  | within_root root : within root root
  | within_child child parent root :
      child ∈ getChildren parent → within parent root → within child root.

(** The service as an inventory source: its two listing calls. *)
Definition service_inventory (connection : Connection) (newDate : string → Z)
    (project : DeployTransport) (resolver : Resolver) : InventorySource :=
  mkInventory (MetadataService.listRemoteComponents connection newDate)
              (MetadataService.listLocalComponents project resolver).

(** All characters of [s] are of the class [[A-Za-z0-9_]]. *)
Definition all_word (s : string) : bool :=
  forallb is_word (list_ascii_of_string s).

(** What the loops of [listAllLocalSourceComponents] keep true of
    [(seen, all)]. *)
Definition seen_all (acc : gset string * list SourceComponent) : Prop :=
  acc.1 = list_to_set (MetadataService.localComponentKey <$> acc.2)
  ∧ NoDup (MetadataService.localComponentKey <$> acc.2).

(** The candidates of a run over package paths: the trees of all roots. *)
Definition candidates (rootss : list (list SourceComponent))
  : list SourceComponent :=
  rootss ≫= λ roots, roots ≫= MetadataService.collectComponentTree.

(** A small project for experiments: one package directory whose roots are
    an object with two fields and a class; the class is met twice. *)
Definition demo_object : SourceComponent :=
  SourceNode "CustomObject" "Invoice__c"
    (Some "objects/Invoice__c/Invoice__c.object-meta.xml") None
    [SourceNode "CustomField" "Invoice__c.Total__c"
       (Some "objects/Invoice__c/fields/Total__c.field-meta.xml") None [];
     SourceNode "CustomField" "Invoice__c.ns__Due__c"
       (Some "objects/Invoice__c/fields/ns__Due__c.field-meta.xml") None []].

Definition demo_class : SourceComponent :=
  SourceNode "ApexClass" "ns__Billing"
    (Some "classes/ns__Billing.cls-meta.xml") (Some "classes/ns__Billing.cls") [].

Definition demo_project : DeployTransport :=
  mkDeployTransport "/project" (Returns ["/project/force-app"])
    (λ _, Throws NotAnError) (λ _, Throws NotAnError).

Definition demo_resolver : Resolver := λ path,
  if bool_decide (path = "/project/force-app")
  then Returns [demo_object; demo_class; demo_class]
  else Throws (ErrorObject "ENOENT").

Definition demo_sources : list SourceComponent :=
  [demo_object;
   SourceNode "CustomField" "Invoice__c.ns__Due__c"
     (Some "objects/Invoice__c/fields/ns__Due__c.field-meta.xml") None [];
   SourceNode "CustomField" "Invoice__c.Total__c"
     (Some "objects/Invoice__c/fields/Total__c.field-meta.xml") None [];
   demo_class].

(** [s] starts with a white space code point. *)
Definition starts_with_space (s : string) : bool :=
  match s with
  | EmptyString => false
  | String c1 rest1 =>
      is_space c1 ||
      match rest1 with
      | EmptyString => false
      | String c2 rest2 =>
          is_space2 c1 c2 ||
          match rest2 with
          | EmptyString => false
          | String c3 _ => is_space3 c1 c2 c3
          end
      end
  end.

(** [s] does not start with white space. *)
Definition no_leading_space (s : string) : Prop := starts_with_space s = false.

(** The UTF-8 bytes of U+00A0, U+FEFF and U+2028. *)
Definition no_break_space : string :=
  String (ascii_of_nat 194) (String (ascii_of_nat 160) "").
Definition byte_order_mark : string :=
  String (ascii_of_nat 239) (String (ascii_of_nat 187)
    (String (ascii_of_nat 191) "")).
Definition line_separator : string :=
  String (ascii_of_nat 226) (String (ascii_of_nat 128)
    (String (ascii_of_nat 168) "")).

(** A name between a no-break space and a byte order mark in front and a
    line separator and a space behind. *)
Definition demo_padded_name : string :=
  no_break_space +:+ byte_order_mark +:+ "A.cls" +:+ line_separator +:+ " ".

(** A git answer of two lines: a name that ends in a no-break space, and a
    line that holds a no-break space only. *)
Definition demo_padded_output : string :=
  "classes/A.cls" +:+ no_break_space +:+ String newline no_break_space
  +:+ String newline "".

(** The ids of the cached components that the components of one file hit
    in [componentMap]. *)
Definition hit_ids (cmap : gmap string MetadataComponent)
    (resolved : list SourceComponent) : list string :=
  omap (λ resolvedComponent, id <$> cmap !! resolved_key resolvedComponent)
       resolved.

(** A project for experiments with the preload: the file of [demo_class]
    resolves to it, any other file to nothing. *)
Definition demo_file_resolver : Resolver := λ path,
  if bool_decide (path = "force-app/main/default/classes/ns__Billing.cls")
  then Returns [demo_class] else Returns [].

Definition demo_found : GitFileResult :=
  mkGitFileResult ["force-app/main/default/classes/ns__Billing.cls";
                   "README.md"] [].

Definition demo_cached : list MetadataComponent :=
  [plain "remote-ApexClass-ns__Billing-0" "ApexClass" "ns__Billing" Synced;
   plain "remote-ApexClass-Other-1" "ApexClass" "Other" RemoteOnly].

(** ** Facts about the reconciler *)

Section Reconciler.

Lemma push_when_spec {A B : Type} (test : A → bool) (f : A → B) out xs :
  push_when test f out xs = out ++ (f <$> List.filter test xs).
Proof.
  unfold push_when. revert out.
  induction xs as [|x xs IH]; intros out; simpl.
  - by rewrite app_nil_r.
  - rewrite IH. destruct (test x); simpl; [by rewrite <- app_assoc | done].
Qed.

Lemma names_with_status (l : list MetadataComponent) s :
  names ((λ c, with_status c s) <$> l) = names l.
Proof. unfold names. rewrite <- list_fmap_compose. by apply list_fmap_ext. Qed.

Lemma names_synced_with (l : list MetadataComponent) g :
  names ((λ c, synced_with c (g c)) <$> l) = names l.
Proof. unfold names. rewrite <- list_fmap_compose. by apply list_fmap_ext. Qed.

Lemma names_filter (P : MetadataComponent → bool) (Q : string → bool)
    (l : list MetadataComponent) :
  (∀ c, P c = Q (fullName c)) →
  names (List.filter P l) = List.filter Q (names l).
Proof.
  intros HPQ. unfold names. induction l as [|c l IH]; [done|].
  rewrite fmap_cons. cbn [List.filter]. rewrite HPQ.
  destruct (Q (fullName c)); rewrite ?fmap_cons; by rewrite IH.
Qed.

Lemma elem_of_List_filter {A : Type} (P : A → bool) (l : list A) x :
  x ∈ List.filter P l ↔ x ∈ l ∧ P x = true.
Proof. rewrite !list_elem_of_In. apply List.filter_In. Qed.

Lemma NoDup_List_filter {A : Type} (P : A → bool) (l : list A) :
  NoDup l → NoDup (List.filter P l).
Proof. rewrite !NoDup_ListNoDup. apply List.NoDup_filter. Qed.

Variable svc : InventorySource.
Variable ty : string.

Local Abbreviation L := (listLocalComponents svc ty).
Local Abbreviation R := (listRemoteComponents svc ty).

Lemma localOnly_names :
  names (localOnly (compareMetadata svc ty))
  = List.filter (λ n, negb (bool_decide (n ∈ names R))) (names L).
Proof.
  unfold compareMetadata; cbn [localOnly].
  rewrite push_when_spec, app_nil_l, names_with_status.
  apply names_filter. intros c. f_equal. apply bool_decide_ext.
  by rewrite elem_of_list_to_set.
Qed.

Lemma remoteOnly_names :
  names (remoteOnly (compareMetadata svc ty))
  = List.filter (λ n, negb (bool_decide (n ∈ names L))) (names R).
Proof.
  unfold compareMetadata; cbn [remoteOnly].
  rewrite push_when_spec, app_nil_l, names_with_status.
  apply names_filter. intros c. f_equal. apply bool_decide_ext.
  by rewrite elem_of_list_to_set.
Qed.

Lemma synced_spec :
  synced (compareMetadata svc ty)
  = (λ c, synced_with c (find_by_name (fullName c) R))
      <$> List.filter (λ c, bool_decide (fullName c ∈ names R)) L.
Proof.
  unfold compareMetadata; cbn [synced].
  rewrite push_when_spec, app_nil_l. f_equal.
  apply List.filter_ext. intros c. apply bool_decide_ext.
  by rewrite elem_of_list_to_set.
Qed.

Lemma synced_names :
  names (synced (compareMetadata svc ty))
  = List.filter (λ n, bool_decide (n ∈ names R)) (names L).
Proof.
  rewrite synced_spec.
  rewrite (names_synced_with _ (λ c, find_by_name (fullName c) R)).
  by apply names_filter.
Qed.

Lemma elem_of_localOnly_names n :
  n ∈ names (localOnly (compareMetadata svc ty)) ↔ n ∈ names L ∧ n ∉ names R.
Proof.
  rewrite localOnly_names, elem_of_List_filter, negb_true_iff, bool_decide_eq_false.
  done.
Qed.

Lemma elem_of_remoteOnly_names n :
  n ∈ names (remoteOnly (compareMetadata svc ty)) ↔ n ∈ names R ∧ n ∉ names L.
Proof.
  rewrite remoteOnly_names, elem_of_List_filter, negb_true_iff, bool_decide_eq_false.
  done.
Qed.

Lemma elem_of_synced_names n :
  n ∈ names (synced (compareMetadata svc ty)) ↔ n ∈ names L ∧ n ∈ names R.
Proof.
  rewrite synced_names, elem_of_List_filter, bool_decide_eq_true. done.
Qed.

End Reconciler.

Section ReconcilerClaims.

Variable svc : InventorySource.
Variable ty : string.

Local Abbreviation L := (listLocalComponents svc ty).
Local Abbreviation R := (listRemoteComponents svc ty).
Local Abbreviation cmp := (compareMetadata svc ty).

Lemma filter_complement_length {A : Type} (P : A → bool) (l : list A) :
  length (List.filter (λ x, negb (P x)) l) + length (List.filter P l) = length l.
Proof.
  induction l as [|x l IH]; [done|]. cbn [List.filter].
  destruct (P x); cbn [negb length]; lia.
Qed.

Lemma names_length (l : list MetadataComponent) : length (names l) = length l.
Proof. unfold names. apply length_fmap. Qed.

Lemma bucket_names_NoDup :
  NoDup (names L) → NoDup (names R) → NoDup (bucket_names cmp).
Proof.
  intros HL HR. unfold bucket_names.
  apply NoDup_app; split_and!.
  - rewrite localOnly_names. by apply NoDup_List_filter.
  - intros n Hlo [Hin|Hin]%elem_of_app.
    + apply elem_of_localOnly_names in Hlo. apply elem_of_remoteOnly_names in Hin.
      tauto.
    + apply elem_of_localOnly_names in Hlo. apply elem_of_synced_names in Hin.
      tauto.
  - apply NoDup_app; split_and!.
    + rewrite remoteOnly_names. by apply NoDup_List_filter.
    + intros n Hro Hin.
      apply elem_of_remoteOnly_names in Hro. apply elem_of_synced_names in Hin.
      tauto.
    + rewrite synced_names. by apply NoDup_List_filter.
Qed.

Lemma remoteOnly_length :
  NoDup (names R) →
  length (remoteOnly cmp)
  = size (list_to_set (names R) ∖ list_to_set (names L) : gset string).
Proof.
  intros HR. rewrite <- names_length. rewrite remoteOnly_names.
  rewrite <- (size_list_to_set (C := gset string)); [|by apply NoDup_List_filter].
  f_equal. apply set_eq. intros n.
  rewrite elem_of_list_to_set, elem_of_List_filter, elem_of_difference,
    !elem_of_list_to_set, negb_true_iff, bool_decide_eq_false.
  done.
Qed.

Lemma local_buckets_length :
  length (localOnly cmp) + length (synced cmp) = length L.
Proof.
  rewrite <- !names_length. rewrite localOnly_names, synced_names.
  apply (filter_complement_length (λ n, bool_decide (n ∈ names R))).
Qed.

(** C1: when the full names are pairwise distinct on each side (and each
    side carries its source's tag), [compareMetadata] puts every full name
    of either input into exactly one of [localOnly], [remoteOnly] and
    [synced]; the buckets hold no full name twice and none that was not
    given; the untouched local and remote components are the members of
    [localOnly] and [remoteOnly]; and the three lengths add up to the number
    of distinct full names of the two inputs. *)
Theorem compareMetadata_partitions :
  Forall (λ c, status c = LocalOnly) L →
  Forall (λ c, status c = RemoteOnly) R →
  NoDup (names L) →
  NoDup (names R) →
  (∀ n, n ∈ names L ∨ n ∈ names R → in_exactly_one_bucket n cmp)
  ∧ (∀ n, n ∈ bucket_names cmp → n ∈ names L ∨ n ∈ names R)
  ∧ NoDup (bucket_names cmp)
  ∧ (∀ c, c ∈ localOnly cmp ↔ c ∈ L ∧ fullName c ∉ names R)
  ∧ (∀ c, c ∈ remoteOnly cmp ↔ c ∈ R ∧ fullName c ∉ names L)
  ∧ conflicts cmp = []
  ∧ length (localOnly cmp) + length (remoteOnly cmp) + length (synced cmp)
    = union_cardinal L R.
Proof.
  intros HtagL HtagR HL HR. split_and!.
  - intros n Hn. unfold in_exactly_one_bucket; cbv zeta.
    rewrite elem_of_localOnly_names, elem_of_remoteOnly_names,
      elem_of_synced_names.
    destruct (decide (n ∈ names L)), (decide (n ∈ names R)); tauto.
  - intros n. unfold bucket_names. rewrite !elem_of_app.
    rewrite elem_of_localOnly_names, elem_of_remoteOnly_names,
      elem_of_synced_names.
    fold L R. tauto.
  - by apply bucket_names_NoDup.
  - intros c. unfold compareMetadata; cbn [localOnly].
    rewrite push_when_spec, app_nil_l.
    rewrite list_elem_of_fmap. split.
    + intros (c0 & -> & [Hc0 Hn]%elem_of_List_filter).
      apply negb_true_iff, bool_decide_eq_false in Hn.
      rewrite elem_of_list_to_set in Hn.
      rewrite Forall_forall in HtagL. specialize (HtagL _ Hc0).
      destruct c0; simpl in *; subst. done.
    + intros [Hc Hn]. exists c. split.
      * rewrite Forall_forall in HtagL. specialize (HtagL _ Hc).
        destruct c; simpl in *; subst. done.
      * apply elem_of_List_filter. split; [done|].
        apply negb_true_iff, bool_decide_eq_false.
        by rewrite elem_of_list_to_set.
  - intros c. unfold compareMetadata; cbn [remoteOnly].
    rewrite push_when_spec, app_nil_l.
    rewrite list_elem_of_fmap. split.
    + intros (c0 & -> & [Hc0 Hn]%elem_of_List_filter).
      apply negb_true_iff, bool_decide_eq_false in Hn.
      rewrite elem_of_list_to_set in Hn.
      rewrite Forall_forall in HtagR. specialize (HtagR _ Hc0).
      destruct c0; simpl in *; subst. done.
    + intros [Hc Hn]. exists c. split.
      * rewrite Forall_forall in HtagR. specialize (HtagR _ Hc).
        destruct c; simpl in *; subst. done.
      * apply elem_of_List_filter. split; [done|].
        apply negb_true_iff, bool_decide_eq_false.
        by rewrite elem_of_list_to_set.
  - done.
  - unfold union_cardinal. rewrite size_union_alt.
    rewrite size_list_to_set by done. rewrite names_length.
    rewrite <- remoteOnly_length by done.
    pose proof local_buckets_length. lia.
Qed.

End ReconcilerClaims.

Lemma compareMetadata_partitions_witness :
  length (localOnly (compareMetadata scenario_svc "T"))
  + length (remoteOnly (compareMetadata scenario_svc "T"))
  + length (synced (compareMetadata scenario_svc "T"))
  = union_cardinal scenario_local scenario_remote.
Proof.
  apply (compareMetadata_partitions scenario_svc "T").
  - repeat constructor.
  - repeat constructor.
  - apply (bool_decide_unpack _). vm_compute. exact I.
  - apply (bool_decide_unpack _). vm_compute. exact I.
Defined.

Lemma find_by_name_Some n (rs : list MetadataComponent) :
  n ∈ names rs →
  ∃ r, find_by_name n rs = Some r ∧ r ∈ rs ∧ fullName r = n.
Proof.
  unfold find_by_name, names. induction rs as [|r rs IH]; intros Hn.
  - by apply elem_of_nil in Hn.
  - rewrite fmap_cons in Hn. cbn [List.find].
    destruct (decide (fullName r = n)) as [Heq|Hne].
    + rewrite bool_decide_eq_true_2 by done. exists r.
      split_and!; [done|by left|done].
    + rewrite bool_decide_eq_false_2 by done.
      apply elem_of_cons in Hn as [Hn|Hn]; [congruence|].
      destruct (IH Hn) as (r' & Hf & Hr' & Hname).
      exists r'. split_and!; [done|by right|done].
Qed.

Lemma names_Permutation (l l' : list MetadataComponent) n :
  l ≡ₚ l' → n ∈ names l ↔ n ∈ names l'.
Proof. intros Hp. unfold names. by rewrite Hp. Qed.

(** C2: whatever the two inventories are, a full name they share is a full
    name of [synced] and of neither [localOnly] nor [remoteOnly]; the entry
    of [synced] is the local component with status [Synced] and the
    [lastModifiedDate] and [lastModifiedBy] of the remote component of that
    name; nothing else is in [synced]; the full names of [synced] do not
    depend on the order of the inputs; and local [A] against remote [A; B]
    gives [localOnly = []], [remoteOnly = [B]], [synced = [A]]. *)
Theorem compareMetadata_shared_names_synced (svc : InventorySource) (ty : string) :
  (∀ n, n ∈ names (listLocalComponents svc ty) →
        n ∈ names (listRemoteComponents svc ty) →
        (n ∈ names (synced (compareMetadata svc ty)))
        ∧ (n ∉ names (localOnly (compareMetadata svc ty)))
        ∧ (n ∉ names (remoteOnly (compareMetadata svc ty))))
  ∧ (∀ c, c ∈ listLocalComponents svc ty →
          fullName c ∈ names (listRemoteComponents svc ty) →
          ∃ r, r ∈ listRemoteComponents svc ty
               ∧ fullName r = fullName c
               ∧ synced_with c (Some r) ∈ synced (compareMetadata svc ty))
  ∧ (∀ s, s ∈ synced (compareMetadata svc ty) →
          status s = Synced
          ∧ ∃ c r, c ∈ listLocalComponents svc ty
                   ∧ r ∈ listRemoteComponents svc ty
                   ∧ fullName r = fullName c
                   ∧ s = synced_with c (Some r)
                   ∧ lastModifiedDate s = lastModifiedDate r
                   ∧ lastModifiedBy s = lastModifiedBy r)
  ∧ (∀ svc', listLocalComponents svc' ty ≡ₚ listLocalComponents svc ty →
             listRemoteComponents svc' ty ≡ₚ listRemoteComponents svc ty →
             ∀ n, n ∈ names (synced (compareMetadata svc' ty))
                  ↔ n ∈ names (synced (compareMetadata svc ty)))
  ∧ compareMetadata scenario_svc "T"
    = {| localOnly := [];
         remoteOnly := [plain "remote-T-B-1" "T" "B" RemoteOnly];
         synced := [plain "local-T-A-0" "T" "A" Synced];
         conflicts := [] |}.
Proof.
  split_and!.
  - intros n HnL HnR.
    rewrite elem_of_synced_names, elem_of_localOnly_names,
      elem_of_remoteOnly_names.
    tauto.
  - intros c Hc Hn.
    destruct (find_by_name_Some _ _ Hn) as (r & Hfind & Hr & Hname).
    exists r. split_and!; [done..|].
    rewrite synced_spec. apply list_elem_of_fmap.
    exists c. rewrite Hfind. split; [done|].
    apply elem_of_List_filter. split; [done|]. by apply bool_decide_eq_true.
  - intros s. rewrite synced_spec.
    intros (c & -> & [Hc Hn%bool_decide_eq_true]%elem_of_List_filter)%list_elem_of_fmap.
    split; [done|].
    destruct (find_by_name_Some _ _ Hn) as (r & Hfind & Hr & Hname).
    exists c, r. rewrite Hfind. by split_and!.
  - intros svc' HL HR n. rewrite !elem_of_synced_names.
    by rewrite (names_Permutation _ _ n HL), (names_Permutation _ _ n HR).
  - vm_compute. reflexivity.
Qed.

(** ** Facts about the selection model *)

Section Selection.

Implicit Types (s prev : gset string) (ids others : list string) (i : string).

Lemma delete_each_spec ids s : delete_each ids s = s ∖ list_to_set ids.
Proof.
  unfold delete_each. revert s.
  induction ids as [|i ids IH]; intros s; simpl; [set_solver|].
  rewrite IH. set_solver.
Qed.

Lemma add_each_spec ids s : add_each ids s = s ∪ list_to_set ids.
Proof.
  unfold add_each. revert s.
  induction ids as [|i ids IH]; intros s; simpl; [set_solver|].
  rewrite IH. set_solver.
Qed.

Lemma every_selected_spec ids s :
  forallb (λ i, bool_decide (i ∈ s)) ids = true ↔ ∀ i, i ∈ ids → i ∈ s.
Proof.
  rewrite forallb_forall. split.
  - intros H i Hi. eapply bool_decide_eq_true_1, H. by apply list_elem_of_In.
  - intros H i Hi. apply bool_decide_eq_true_2, H. by apply list_elem_of_In.
Qed.

Lemma toggleMultiple_all ids s :
  (∀ i, i ∈ ids → i ∈ s) → toggleMultiple ids s = s ∖ list_to_set ids.
Proof.
  intros H. unfold toggleMultiple.
  apply every_selected_spec in H. rewrite H. apply delete_each_spec.
Qed.

Lemma toggleMultiple_not_all ids s :
  ¬ (∀ i, i ∈ ids → i ∈ s) → toggleMultiple ids s = s ∪ list_to_set ids.
Proof.
  intros H. unfold toggleMultiple.
  destruct (forallb _ ids) eqn:E.
  - exfalso. apply H. by apply (proj1 (every_selected_spec ids s)).
  - apply add_each_spec.
Qed.

Lemma toggle_union i s (X : gset string) :
  i ∉ X → toggle i (s ∪ X) = toggle i s ∪ X.
Proof.
  intros Hi. unfold toggle.
  destruct (decide (i ∈ s)) as [Hs|Hs].
  - rewrite !bool_decide_eq_true_2 by set_solver. set_solver.
  - rewrite !bool_decide_eq_false_2 by set_solver. set_solver.
Qed.

Lemma toggle_difference i s (X : gset string) :
  i ∉ X → toggle i (s ∖ X) = toggle i s ∖ X.
Proof.
  intros Hi. unfold toggle.
  destruct (decide (i ∈ s)) as [Hs|Hs].
  - rewrite !bool_decide_eq_true_2 by set_solver. set_solver.
  - rewrite !bool_decide_eq_false_2 by set_solver. set_solver.
Qed.

Lemma toggle_each_union others s (X : gset string) :
  (∀ i, i ∈ others → i ∉ X) →
  toggle_each others (s ∪ X) = toggle_each others s ∪ X.
Proof.
  unfold toggle_each. revert s.
  induction others as [|o others IH]; intros s H; simpl; [done|].
  rewrite toggle_union by (apply H; by left).
  apply IH. intros i Hi. apply H. by right.
Qed.

Lemma toggle_each_difference others s (X : gset string) :
  (∀ i, i ∈ others → i ∉ X) →
  toggle_each others (s ∖ X) = toggle_each others s ∖ X.
Proof.
  unfold toggle_each. revert s.
  induction others as [|o others IH]; intros s H; simpl; [done|].
  rewrite toggle_difference by (apply H; by left).
  apply IH. intros i Hi. apply H. by right.
Qed.

Lemma toggle_each_untouched others s i :
  i ∉ others → i ∈ toggle_each others s ↔ i ∈ s.
Proof.
  unfold toggle_each. revert s.
  induction others as [|o others IH]; intros s H; simpl; [done|].
  apply not_elem_of_cons in H as [Hne Hi].
  rewrite IH by done. unfold toggle. case_bool_decide; set_solver.
Qed.

End Selection.

(** C3: [toggleMultiple] acts on the group as a whole.  When every id of
    the input is selected, the ids of the input leave the selection; in any
    other case they all join it; membership of every other id is kept.  On
    the empty selection [toggleMultiple ["1"; "2"]] gives [{1, 2}], and
    once more gives the empty selection.  It is not a run of single
    toggles: on [{1}] the two disagree. *)
Theorem toggleMultiple_group_toggle (prev : gset string) (ids : list string) :
  ((∀ i, i ∈ ids → i ∈ prev) →
     ∀ i, i ∈ toggleMultiple ids prev ↔ (i ∈ prev) ∧ (i ∉ ids))
  ∧ (¬ (∀ i, i ∈ ids → i ∈ prev) →
     ∀ i, i ∈ toggleMultiple ids prev ↔ (i ∈ prev) ∨ (i ∈ ids))
  ∧ (∀ i, i ∉ ids → i ∈ toggleMultiple ids prev ↔ i ∈ prev)
  ∧ toggleMultiple ["1"; "2"] ∅ = {["1"; "2"]}
  ∧ toggleMultiple ["1"; "2"] (toggleMultiple ["1"; "2"] ∅) = ∅
  ∧ toggleMultiple ["1"; "2"] {["1"]} = {["1"; "2"]}
  ∧ toggle_each ["1"; "2"] {["1"]} = {["2"]}.
Proof.
  split_and!.
  - intros H i. rewrite toggleMultiple_all by done.
    rewrite elem_of_difference, elem_of_list_to_set. done.
  - intros H i. rewrite toggleMultiple_not_all by done.
    rewrite elem_of_union, elem_of_list_to_set. done.
  - intros i Hi.
    destruct (decide (Forall (λ j, j ∈ prev) ids)) as [H|H];
      rewrite Forall_forall in H.
    + rewrite toggleMultiple_all by done.
      rewrite elem_of_difference, elem_of_list_to_set. tauto.
    + rewrite toggleMultiple_not_all by done.
      rewrite elem_of_union, elem_of_list_to_set. tauto.
  - by vm_compute.
  - by vm_compute.
  - by vm_compute.
  - by vm_compute.
Qed.

(** C4, as stated, fails: with only ["1"] selected, two applications of
    [toggleMultiple ["1"; "2"]] end on the empty selection. *)
Lemma toggleMultiple_twice_counterexample :
  ¬ (∀ (prev : gset string) (ids : list string),
       toggleMultiple ids (toggleMultiple ids prev) = prev).
Proof.
  intros H. specialize (H {["1"]} ["1"; "2"]).
  assert (Hin : "1" ∈ ({["1"]} : gset string)) by set_solver.
  rewrite <- H in Hin. revert Hin. by vm_compute.
Qed.

(** C4, amended: when the ids of the group are all selected or all
    unselected, two applications of [toggleMultiple ids] restore the
    selection, also when ids outside the group are toggled one by one in
    between; what those toggles did is kept. *)
Theorem toggleMultiple_round_trip (prev : gset string) (ids others : list string) :
  (∀ i, i ∈ ids → i ∈ prev) ∨ (∀ i, i ∈ ids → i ∉ prev) →
  (∀ i, i ∈ others → i ∉ ids) →
  toggleMultiple ids (toggle_each others (toggleMultiple ids prev))
  = toggle_each others prev.
Proof.
  intros Huniform Hothers.
  assert (Hdisj : ∀ i, i ∈ others → i ∉ (list_to_set ids : gset string)).
  { intros i Hi. rewrite elem_of_list_to_set. by apply Hothers. }
  assert (Hkeep : ∀ i, i ∈ ids → i ∈ toggle_each others prev ↔ i ∈ prev).
  { intros i Hi. apply toggle_each_untouched. intros Ho. by apply (Hothers i). }
  destruct ids as [|j ids'] eqn:Hids.
  { rewrite (toggleMultiple_all [] prev) by (intros i Hi; by apply elem_of_nil in Hi).
    rewrite toggleMultiple_all by (intros i Hi; by apply elem_of_nil in Hi).
    rewrite toggle_each_difference by done. set_solver. }
  rewrite <- Hids in *.
  assert (Hj : j ∈ ids) by (rewrite Hids; by left).
  clear Hids.
  destruct Huniform as [Hall|Hnone].
  - rewrite (toggleMultiple_all ids prev) by done.
    rewrite toggle_each_difference by done.
    rewrite toggleMultiple_not_all.
    + apply set_eq. intros i.
      rewrite elem_of_union, elem_of_difference, elem_of_list_to_set.
      split; [|destruct (decide (i ∈ ids)); tauto].
      intros [[? _]|Hi]; [done|]. apply Hkeep; [done|]. by apply Hall.
    + intros H. specialize (H j Hj).
      rewrite elem_of_difference, elem_of_list_to_set in H. tauto.
  - rewrite (toggleMultiple_not_all ids prev)
      by (intros H; by apply (Hnone j Hj), H).
    rewrite toggle_each_union by done.
    rewrite toggleMultiple_all by set_solver.
    apply set_eq. intros i.
    rewrite elem_of_difference, elem_of_union, elem_of_list_to_set.
    split; [tauto|]. intros Hi. split; [by left|].
    intros Hin. apply (Hnone i Hin). by apply Hkeep.
Qed.

Lemma toggleMultiple_round_trip_witness :
  toggleMultiple ["1"; "2"]
    (toggle_each ["3"] (toggleMultiple ["1"; "2"] {["1"; "2"; "4"]}))
  = toggle_each ["3"] {["1"; "2"; "4"]}.
Proof.
  apply (toggleMultiple_round_trip {["1"; "2"; "4"]} ["1"; "2"] ["3"]).
  - left. intros i Hi. set_solver.
  - intros i Hi. set_solver.
Defined.

(** C5: after [selectAll xs] and then [selectAll ys] the selection is the
    set of the ids of [ys], whatever was selected before and whatever [xs]
    was: an id is selected iff some component of [ys] carries it. *)
Theorem selectAll_replaces (prev : gset string) (xs ys : list MetadataComponent) :
  selectAll ys (selectAll xs prev) = list_to_set (id <$> ys)
  ∧ (∀ i, i ∈ selectAll ys (selectAll xs prev) ↔ ∃ c, c ∈ ys ∧ id c = i)
  ∧ (∀ i, (i ∈ prev) ∨ (i ∈ id <$> xs) → i ∉ id <$> ys →
          i ∉ selectAll ys (selectAll xs prev)).
Proof.
  unfold selectAll. split_and!.
  - done.
  - intros i. rewrite elem_of_list_to_set, list_elem_of_fmap. naive_solver.
  - intros i _ Hi. by rewrite elem_of_list_to_set.
Qed.

Lemma selectedComponents_filter (allComponents : list MetadataComponent)
    (selectedIds : gset string) :
  selectedComponents allComponents selectedIds
  = filter (λ c, id c ∈ selectedIds) allComponents.
Proof.
  unfold selectedComponents.
  induction allComponents as [|c l IH]; [done|].
  cbn [List.filter]. rewrite filter_cons, IH.
  destruct (decide (id c ∈ selectedIds)) as [Hc|Hc].
  - by rewrite bool_decide_eq_true_2.
  - by rewrite bool_decide_eq_false_2.
Qed.

Lemma selectedComponents_dangling (allComponents : list MetadataComponent)
    (selectedIds : gset string) (i : string) :
  i ∉ id <$> allComponents →
  selectedComponents allComponents (selectedIds ∪ {[i]})
  = selectedComponents allComponents selectedIds.
Proof.
  intros Hi. unfold selectedComponents.
  induction allComponents as [|c l IH]; [done|].
  rewrite fmap_cons in Hi. apply not_elem_of_cons in Hi as [Hne Hi].
  cbn [List.filter]. rewrite (IH Hi).
  destruct (decide (id c ∈ selectedIds)) as [Hc|Hc].
  - rewrite !bool_decide_eq_true_2 by set_solver. done.
  - rewrite !bool_decide_eq_false_2 by set_solver. done.
Qed.

(** C10: [selectedComponents] holds exactly the components of the supplied
    list whose id is selected, in the order of that list, and [count] is
    its length.  A selected id that no component of the list carries adds
    no member and does not change [count]. *)
Theorem selectedComponents_exact (allComponents : list MetadataComponent)
    (selectedIds : gset string) :
  (∀ c, c ∈ selectedComponents allComponents selectedIds
        ↔ c ∈ allComponents ∧ id c ∈ selectedIds)
  ∧ selectedComponents allComponents selectedIds
    = filter (λ c, id c ∈ selectedIds) allComponents
  ∧ count allComponents selectedIds
    = length (selectedComponents allComponents selectedIds)
  ∧ (∀ i, i ∉ id <$> allComponents →
       selectedComponents allComponents (selectedIds ∪ {[i]})
       = selectedComponents allComponents selectedIds
       ∧ count allComponents (selectedIds ∪ {[i]})
         = count allComponents selectedIds
       ∧ ∀ c, c ∈ selectedComponents allComponents (selectedIds ∪ {[i]}) →
              id c ≠ i).
Proof.
  split_and!.
  - intros c. unfold selectedComponents.
    rewrite elem_of_List_filter, bool_decide_eq_true. done.
  - apply selectedComponents_filter.
  - done.
  - intros i Hi. split_and!.
    + by apply selectedComponents_dangling.
    + unfold count. by rewrite selectedComponents_dangling.
    + intros c. rewrite selectedComponents_dangling by done.
      unfold selectedComponents.
      rewrite elem_of_List_filter. intros [Hc _] Heq. subst i.
      apply Hi, list_elem_of_fmap. by exists c.
Qed.

(** ** Cache freshness *)

Lemma truthy_Some (v : option string) :
  truthy v = true ↔ ∃ s, v = Some s ∧ s ≠ "".
Proof.
  destruct v as [s|]; simpl.
  - rewrite negb_true_iff, bool_decide_eq_false. naive_solver.
  - naive_solver.
Qed.

(** C6, as stated, fails: a sync record whose stored identity is the empty
    string differs from the connected identity and yet is not reported
    stale; the status is [Empty]. *)
Lemma isCacheStale_empty_identity_counterexample :
  ¬ (∀ (org : OrgInfo) (st : SyncState),
       isCacheStale (Some org) (lastSyncOrg (Some st)) = true
       ↔ ∃ ls, lastSync st = Some ls ∧ orgUsername ls ≠ username org).
Proof.
  intros H.
  pose (org := mkOrg "dev@example.com" "00D" "https://example.com"
                 true false false None).
  pose (st := mkSyncState (Some (mkLastSync "" "2026-01-01T00:00:00.000Z" []))
                ∅ None).
  destruct (H org st) as [_ Hstale].
  assert (Hfalse : isCacheStale (Some org) (lastSyncOrg (Some st)) = false)
    by reflexivity.
  rewrite Hstale in Hfalse; [discriminate|].
  eexists. split; [reflexivity|]. simpl. discriminate.
Qed.

(** C6, amended: with a remote connected, the cache is reported stale iff a
    sync record exists whose stored identity is not the empty string and
    differs from the identity of the connected remote; the status is
    [Stale] exactly then; and with no sync record (state not loaded, or
    loaded without one) the cache is not stale and the status is [Empty]. *)
Theorem isCacheStale_iff (org : OrgInfo) (state : option SyncState) :
  (isCacheStale (Some org) (lastSyncOrg state) = true
   ↔ ∃ st ls, state = Some st ∧ lastSync st = Some ls
              ∧ orgUsername ls ≠ "" ∧ orgUsername ls ≠ username org)
  ∧ (cacheStatus (Some org) (lastSyncOrg state) = Stale
     ↔ isCacheStale (Some org) (lastSyncOrg state) = true)
  ∧ (state ≫= lastSync = None →
     isCacheStale (Some org) (lastSyncOrg state) = false
     ∧ cacheStatus (Some org) (lastSyncOrg state) = Empty).
Proof.
  split_and!.
  - unfold isCacheStale, lastSyncOrg.
    destruct state as [st|]; simpl; [|naive_solver].
    destruct (lastSync st) as [ls|] eqn:Hls; simpl; [|naive_solver].
    destruct (decide (orgUsername ls = "")) as [He|He].
    + rewrite bool_decide_eq_true_2 by done. simpl. naive_solver.
    + rewrite bool_decide_eq_false_2 by done. simpl.
      rewrite negb_true_iff, bool_decide_eq_false. split.
      * intros Hne. exists st, ls. split_and!; [done..|]. congruence.
      * intros (st' & ls' & [= <-] & Hls' & _ & Hne). congruence.
  - unfold cacheStatus.
    destruct (isCacheStale _ _); [done|].
    destruct (truthy _); split; discriminate.
  - intros Hnone. unfold cacheStatus, isCacheStale, lastSyncOrg.
    destruct state as [st|]; simpl in *; [|done].
    rewrite Hnone. done.
Qed.

(** ** Commit preload *)

Section CommitBatch.

Variable git : Git.

Lemma collect_commits_from acc commitHashes :
  foldl (collect_commit git) acc commitHashes
  = (acc.1 ++ (collect_commits git commitHashes).1,
     acc.2 ++ (collect_commits git commitHashes).2).
Proof.
  unfold collect_commits. revert acc.
  induction commitHashes as [|h hs IH]; intros [w f].
  - simpl. by rewrite !app_nil_r.
  - cbn [foldl]. rewrite IH. rewrite (IH (collect_commit git ([], []) h)).
    unfold collect_commit; cbn [fst snd].
    destruct (truthy (warning (getModifiedFilesFromCommit git h)));
      cbn [fst snd]; by rewrite <- ?app_assoc.
Qed.

Lemma collect_commits_app before after :
  collect_commits git (before ++ after)
  = ((collect_commits git before).1 ++ (collect_commits git after).1,
     (collect_commits git before).2 ++ (collect_commits git after).2).
Proof.
  unfold collect_commits at 1. rewrite foldl_app.
  apply collect_commits_from.
Qed.

Lemma collect_commits_cons h after :
  collect_commits git (h :: after)
  = ((if truthy (warning (getModifiedFilesFromCommit git h))
      then [default "" (warning (getModifiedFilesFromCommit git h))] else [])
     ++ (collect_commits git after).1,
     files (getModifiedFilesFromCommit git h) ++ (collect_commits git after).2).
Proof.
  unfold collect_commits at 1. cbn [foldl]. rewrite collect_commits_from.
  unfold collect_commit; cbn [fst snd].
  by destruct (truthy (warning (getModifiedFilesFromCommit git h))).
Qed.

Lemma collect_commits_around before h after :
  collect_commits git (before ++ h :: after)
  = ((collect_commits git before).1
       ++ (if truthy (warning (getModifiedFilesFromCommit git h))
           then [default "" (warning (getModifiedFilesFromCommit git h))]
           else [])
       ++ (collect_commits git after).1,
     (collect_commits git before).2
       ++ files (getModifiedFilesFromCommit git h)
       ++ (collect_commits git after).2).
Proof. rewrite collect_commits_app, collect_commits_cons. done. Qed.

Lemma invalid_warning_truthy h :
  truthy (Some ("Invalid commit hash format: " +:+ h)) = true.
Proof. done. Qed.

Lemma result_files_of_collected packageDirs commitHashes :
  result_files (getModifiedFilesFromCommits git packageDirs commitHashes)
  = filterFilesToPackages
      (List.filter (λ file, 0 <? String.length file)
         (unique_from ∅ (normalizePath <$> (collect_commits git commitHashes).2)))
      packageDirs.
Proof.
  unfold getModifiedFilesFromCommits.
  by destruct (collect_commits git commitHashes).
Qed.

Lemma warnings_of_collected packageDirs commitHashes w :
  w ∈ (collect_commits git commitHashes).1 →
  w ∈ warnings (getModifiedFilesFromCommits git packageDirs commitHashes).
Proof.
  unfold getModifiedFilesFromCommits.
  destruct (collect_commits git commitHashes) as [ws fs]; simpl.
  intros Hw. destruct (_ && _); [|done]. apply elem_of_app. by left.
Qed.

End CommitBatch.

(** C7: an identifier that fails the shape check yields the warning
    [Invalid commit hash format: ...] and no file; in a batch, the commits
    before and after it are processed as they would be without it: their
    warnings and files are all there, in order, the warning for the invalid
    identifier sits between them, and the files of the whole batch are those
    of the batch without the invalid identifier. *)
Theorem invalid_commit_does_not_abort_batch (git : Git)
    (packageDirs before after : list string) (bad : string) :
  COMMIT_HASH_REGEX bad = false →
  getModifiedFilesFromCommit git bad
  = {| files := []; warning := Some ("Invalid commit hash format: " +:+ bad) |}
  ∧ collect_commits git (before ++ bad :: after)
    = ((collect_commits git before).1
         ++ ["Invalid commit hash format: " +:+ bad]
         ++ (collect_commits git after).1,
       (collect_commits git before).2 ++ (collect_commits git after).2)
  ∧ result_files (getModifiedFilesFromCommits git packageDirs (before ++ bad :: after))
    = result_files (getModifiedFilesFromCommits git packageDirs (before ++ after))
  ∧ ("Invalid commit hash format: " +:+ bad)
    ∈ warnings (getModifiedFilesFromCommits git packageDirs (before ++ bad :: after))
  ∧ (∀ w, w ∈ (collect_commits git (before ++ after)).1 →
          w ∈ warnings (getModifiedFilesFromCommits git packageDirs
                          (before ++ bad :: after))).
Proof.
  intros Hbad.
  assert (Hone : getModifiedFilesFromCommit git bad
    = {| files := []; warning := Some ("Invalid commit hash format: " +:+ bad) |}).
  { unfold getModifiedFilesFromCommit. by rewrite Hbad. }
  assert (Hbatch : collect_commits git (before ++ bad :: after)
    = ((collect_commits git before).1
         ++ ["Invalid commit hash format: " +:+ bad]
         ++ (collect_commits git after).1,
       (collect_commits git before).2 ++ (collect_commits git after).2)).
  { rewrite collect_commits_around, Hone. done. }
  split_and!; [done|done|..].
  - rewrite !result_files_of_collected, Hbatch, collect_commits_app. done.
  - apply warnings_of_collected. rewrite Hbatch. simpl.
    apply elem_of_app. right. by left.
  - intros w Hw. apply warnings_of_collected. rewrite Hbatch.
    rewrite collect_commits_app in Hw. simpl in *.
    apply elem_of_app in Hw as [Hw|Hw]; apply elem_of_app; [by left|].
    right. by right.
Qed.

Lemma invalid_commit_does_not_abort_batch_witness :
  result_files (getModifiedFilesFromCommits demo_git []
                  (["abc1234"] ++ "zzz" :: ["0f0f0f0f"]))
  = result_files (getModifiedFilesFromCommits demo_git []
                    (["abc1234"] ++ ["0f0f0f0f"])).
Proof.
  apply (invalid_commit_does_not_abort_batch demo_git [] ["abc1234"]
           ["0f0f0f0f"] "zzz").
  reflexivity.
Defined.

(** C8: for a well-formed identifier whose direct diff lists no file, the
    files are those of the diff between the commit and the merge base of
    its first parent and its second parent; when a step of that fallback
    fails, the commit yields the warning [Could not resolve merge files for
    ...] and no file; in both cases the commits before and after it in the
    batch are processed as usual. *)
Theorem empty_direct_diff_falls_back_to_merge_base (git : Git)
    (commitHash out : string) :
  COMMIT_HASH_REGEX commitHash = true →
  git ["diff-tree"; "-r"; "--no-commit-id"; "--name-only";
       "--diff-filter=ACMRT"; commitHash] = Returns out →
  output_lines out = [] →
  (∀ parentOut baseOut diffOut,
     git ["rev-parse"; commitHash +:+ "^2"] = Returns parentOut →
     git ["merge-base"; commitHash +:+ "^1"; trim parentOut] = Returns baseOut →
     git ["diff"; "--name-only"; "--diff-filter=ACMRT"; trim baseOut; commitHash]
     = Returns diffOut →
     getModifiedFilesFromCommit git commitHash
     = {| files := output_lines diffOut; warning := None |})
  ∧ (∀ e, merge_base_diff git commitHash = Throws e →
     getModifiedFilesFromCommit git commitHash
     = {| files := [];
          warning := Some ("Could not resolve merge files for "
                           +:+ commitHash +:+ ".") |})
  ∧ ((∃ e, merge_base_diff git commitHash = Throws e)
     ↔ (∃ e, git ["rev-parse"; commitHash +:+ "^2"] = Throws e)
       ∨ (∃ parentOut e,
            git ["rev-parse"; commitHash +:+ "^2"] = Returns parentOut
            ∧ git ["merge-base"; commitHash +:+ "^1"; trim parentOut] = Throws e)
       ∨ (∃ parentOut baseOut e,
            git ["rev-parse"; commitHash +:+ "^2"] = Returns parentOut
            ∧ git ["merge-base"; commitHash +:+ "^1"; trim parentOut]
              = Returns baseOut
            ∧ git ["diff"; "--name-only"; "--diff-filter=ACMRT"; trim baseOut;
                   commitHash] = Throws e))
  ∧ (∀ before after,
       (collect_commits git (before ++ commitHash :: after)).2
       = (collect_commits git before).2
           ++ files (getModifiedFilesFromCommit git commitHash)
           ++ (collect_commits git after).2
       ∧ ∀ w, (w ∈ (collect_commits git before).1)
              ∨ (w ∈ (collect_commits git after).1) →
              w ∈ (collect_commits git (before ++ commitHash :: after)).1).
Proof.
  intros Hvalid Hdirect Hempty.
  assert (Hstep : getModifiedFilesFromCommit git commitHash
    = match merge_base_diff git commitHash with
      | Returns mergeOutput => {| files := mergeOutput; warning := None |}
      | Throws _ =>
          {| files := [];
             warning := Some ("Could not resolve merge files for "
                              +:+ commitHash +:+ ".") |}
      end).
  { unfold getModifiedFilesFromCommit. rewrite Hvalid, Hdirect, Hempty. done. }
  split_and!.
  - intros parentOut baseOut diffOut Hp Hb Hd. rewrite Hstep.
    unfold merge_base_diff. rewrite Hp; simpl. rewrite Hb; simpl.
    rewrite Hd; simpl. done.
  - intros e He. by rewrite Hstep, He.
  - unfold merge_base_diff.
    destruct (git ["rev-parse"; _]) as [parentOut|e1]; simpl.
    2:{ split; [intros _; left; by exists e1 | intros _; by exists e1]. }
    destruct (git ["merge-base"; _; _]) as [baseOut|e2] eqn:Hb; simpl.
    2:{ split; [|intros _; by exists e2].
        intros _. right; left. by exists parentOut, e2. }
    destruct (git ["diff"; _; _; _; _]) as [diffOut|e3] eqn:Hd; simpl.
    + split.
      * intros [e He]. discriminate.
      * intros [[e He]|[(p & e & [= <-] & He)|(p & b & e & [= <-] & Hb' & He)]].
        -- discriminate.
        -- rewrite Hb in He. discriminate.
        -- rewrite Hb in Hb'. injection Hb' as <-. rewrite Hd in He.
           discriminate.
    + split; [|intros _; by exists e3].
      intros _. right; right. by exists parentOut, baseOut, e3.
  - intros before after. rewrite collect_commits_around. simpl. split; [done|].
    intros w [Hw|Hw]; rewrite !elem_of_app; [by left|by right; right].
Qed.

Lemma empty_direct_diff_falls_back_to_merge_base_witness :
  getModifiedFilesFromCommit demo_git "0f0f0f0f"
  = {| files := ["force-app/main/default/classes/B.cls"]; warning := None |}.
Proof.
  refine (proj1 (empty_direct_diff_falls_back_to_merge_base demo_git
                   "0f0f0f0f" "" _ _ _)
            ("1111111" +:+ String newline "")
            ("2222222" +:+ String newline "")
            ("force-app/main/default/classes/B.cls" +:+ String newline "")
            _ _ _);
    reflexivity.
Defined.

(** ** Retrieve and deploy: no fault escapes *)

Section Containment.

Lemma try_catch_cases {A : Type} (body : Outcome A) (handler : Thrown → Outcome A) :
  (∃ a, body = Returns a ∧ try_catch body handler = Returns a)
  ∨ (∃ e, body = Throws e ∧ try_catch body handler = handler e).
Proof. destruct body as [a|e]; [left; by exists a | right; by exists e]. Qed.

Lemma bindO_Returns {A B : Type} (m : Outcome A) (k : A → Outcome B) b :
  bindO m k = Returns b → ∃ a, m = Returns a ∧ k a = Returns b.
Proof. destruct m as [a|e]; simpl; [|discriminate]. intros H. by exists a. Qed.

Lemma retrieve_catch_returns e :
  ∃ r, retrieve_catch e = Returns r
       ∧ success r = false ∧ details r = None
       ∧ message r
         = if isCanceled (error_message e) then "Retrieve cancelled"
           else "Retrieve error: " +:+ default "Unknown error" (error_message e).
Proof.
  unfold retrieve_catch. destruct (isCanceled _); eexists; by split_and!.
Qed.

Lemma deploy_catch_returns e :
  ∃ r, deploy_catch e = Returns r
       ∧ success r = false ∧ details r = None
       ∧ message r
         = if isCanceled (error_message e) then "Deploy cancelled"
           else "Deploy error: " +:+ default "Unknown error" (error_message e).
Proof.
  unfold deploy_catch. destruct (isCanceled _); eexists; by split_and!.
Qed.

Lemma retrieve_try_success startRetrieve comps onProgress onCancelable r :
  retrieve_try startRetrieve comps onProgress onCancelable = Returns r →
  success r = true →
  ∃ op response,
    startRetrieve ((λ c, (type c, fullName c)) <$> comps) = Returns op
    ∧ pollStatus op = Returns response
    ∧ isCanceled (retrieve_status response) = false
    ∧ retrieve_success response = true.
Proof.
  unfold retrieve_try. intros Hr Hs.
  apply bindO_Returns in Hr as (op & Hop & Hr).
  apply bindO_Returns in Hr as ([] & _ & Hr).
  apply bindO_Returns in Hr as ([] & _ & Hr).
  apply bindO_Returns in Hr as (response & Hpoll & Hr).
  apply bindO_Returns in Hr as ([] & _ & Hr).
  exists op, response.
  destruct (isCanceled (retrieve_status response)).
  { injection Hr as <-. discriminate. }
  destruct (retrieve_success response).
  - done.
  - injection Hr as <-. discriminate.
Qed.

Lemma deploy_try_success tr comps onProgress onCancelable r :
  deploy_try tr comps onProgress onCancelable = Returns r →
  success r = true →
  ∃ sources op response,
    startDeploy tr sources = Returns op
    ∧ pollStatus op = Returns response
    ∧ isCanceled (deploy_status response) = false
    ∧ deploy_success response = true.
Proof.
  unfold deploy_try. intros Hr Hs.
  apply bindO_Returns in Hr as (getSource & _ & Hr).
  apply bindO_Returns in Hr as (sources & _ & Hr).
  destruct (length sources =? 0).
  { injection Hr as <-. discriminate. }
  apply bindO_Returns in Hr as (op & Hop & Hr).
  apply bindO_Returns in Hr as ([] & _ & Hr).
  apply bindO_Returns in Hr as ([] & _ & Hr).
  apply bindO_Returns in Hr as (response & Hpoll & Hr).
  apply bindO_Returns in Hr as ([] & _ & Hr).
  exists sources, op, response.
  destruct (isCanceled (deploy_status response)).
  { injection Hr as <-. discriminate. }
  destruct (deploy_success response).
  - done.
  - injection Hr as <-. discriminate.
Qed.

Lemma retrieve_returns startRetrieve comps onProgress onCancelable :
  ∃ r, retrieve startRetrieve comps onProgress onCancelable = Returns r.
Proof.
  unfold retrieve.
  destruct (try_catch_cases
              (retrieve_try startRetrieve comps onProgress onCancelable)
              retrieve_catch) as [(r & _ & ->)|(e & _ & ->)]; [by exists r|].
  destruct (retrieve_catch_returns e) as (r & -> & _). by exists r.
Qed.

Lemma deploy_returns tr comps onProgress onCancelable :
  ∃ r, deploy tr comps onProgress onCancelable = Returns r.
Proof.
  unfold deploy.
  destruct (try_catch_cases
              (deploy_try tr comps onProgress onCancelable)
              deploy_catch) as [(r & _ & ->)|(e & _ & ->)]; [by exists r|].
  destruct (deploy_catch_returns e) as (r & -> & _). by exists r.
Qed.

End Containment.

(** Runs the body in [Hr] along the outcomes that the context fixes. *)
Ltac run_along Hr :=
  repeat first [split | intro]; revert Hr;
  repeat match goal with
         | H : ?call = _ |- context [?call] =>
             rewrite H; cbn [bindO try_catch length Nat.eqb]
         end.

Ltac by_cases_of_result :=
  repeat match goal with
         | |- context [if ?b then _ else _] => destruct b
         end;
  by intros [= <-].

(** C9: whatever the transport and the callbacks do, also when one of them
    throws, [retrieve] and [deploy] return a result and never throw, and
    the result is fixed by what happened:
    - a fault raised inside gives [success = false], no details, and as
      message the cancellation notice when the fault's message names a
      cancellation and else the error text with the fault's own message
      (["Unknown error"] when the fault is not an [Error]); this for every
      place a fault can come from: the start of the operation (for
      [deploy] also the resolution of the local sources), the call of
      [onCancelable], the registration of the listener, the wait for the
      terminal response and the completion report to [onProgress];
    - a terminal response that names a cancellation gives [success = false]
      with the cancellation notice; one that reports success gives
      [success = true] with the count and the list of the components; any
      other gives [success = false] with the failure notice and the
      problems of the response as details;
    - [deploy] with no local source for the components gives
      [success = false] with ["No local components found to deploy"].
    A result has [success = true] only when the operation was started, its
    terminal response arrived, was not a cancellation and reported
    success. *)
Theorem retrieve_deploy_contain_faults
    (components : list MetadataComponent)
    (onProgress : option ProgressCallback)
    (onCancelable : option CancelableCallback) :
  (∀ startRetrieve : RetrieveTransport,
     ∃ r, retrieve startRetrieve components onProgress onCancelable = Returns r
          ∧ (∀ e, retrieve_try startRetrieve components onProgress onCancelable
                  = Throws e →
                  success r = false
                  ∧ details r = None
                  ∧ message r
                    = if isCanceled (error_message e) then "Retrieve cancelled"
                      else "Retrieve error: "
                           +:+ default "Unknown error" (error_message e))
          ∧ (success r = true →
             ∃ op response,
               startRetrieve ((λ c, (type c, fullName c)) <$> components)
               = Returns op
               ∧ pollStatus op = Returns response
               ∧ isCanceled (retrieve_status response) = false
               ∧ retrieve_success response = true)
          ∧ (let fault e :=
               if isCanceled (error_message e)
               then mkResult false "Retrieve cancelled" None
               else mkResult false
                      ("Retrieve error: "
                       +:+ default "Unknown error" (error_message e))
                      None in
             let start :=
               startRetrieve ((λ c, (type c, fullName c)) <$> components) in
             (∀ e, start = Throws e → r = fault e)
             ∧ (∀ op, start = Returns op →
                (∀ e, call_optional onCancelable (cancel_closure op) = Throws e →
                      r = fault e)
                ∧ (call_optional onCancelable (cancel_closure op) = Returns () →
                   (∀ e, register_listener op = Throws e → r = fault e)
                   ∧ (register_listener op = Returns () →
                      (∀ e, pollStatus op = Throws e → r = fault e)
                      ∧ (∀ response, pollStatus op = Returns response →
                         (∀ e, report_completed onProgress (length components)
                               = Throws e →
                               r = fault e)
                         ∧ (report_completed onProgress (length components)
                            = Returns () →
                            r = if isCanceled (retrieve_status response)
                                then mkResult false "Retrieve cancelled" None
                                else if retrieve_success response
                                then mkResult true
                                       ("Successfully retrieved "
                                        +:+ decimal (length components)
                                        +:+ " component(s)")
                                       (Some (describe components))
                                else mkResult false "Retrieve failed"
                                       (Some (retrieve_details
                                                (retrieve_messages
                                                   response))))))))))
  ∧ (∀ tr : DeployTransport,
     ∃ r, deploy tr components onProgress onCancelable = Returns r
          ∧ (∀ e, deploy_try tr components onProgress onCancelable = Throws e →
                  success r = false
                  ∧ details r = None
                  ∧ message r
                    = if isCanceled (error_message e) then "Deploy cancelled"
                      else "Deploy error: "
                           +:+ default "Unknown error" (error_message e))
          ∧ (success r = true →
             ∃ sources op response,
               startDeploy tr sources = Returns op
               ∧ pollStatus op = Returns response
               ∧ isCanceled (deploy_status response) = false
               ∧ deploy_success response = true)
          ∧ (let fault e :=
               if isCanceled (error_message e)
               then mkResult false "Deploy cancelled" None
               else mkResult false
                      ("Deploy error: "
                       +:+ default "Unknown error" (error_message e))
                      None in
             (∀ e, fromSource tr (getPackagePaths tr) = Throws e → r = fault e)
             ∧ (∀ getSourceComponents,
                fromSource tr (getPackagePaths tr) = Returns getSourceComponents →
                (∀ e, gather_sources getSourceComponents components []
                      = Throws e →
                      r = fault e)
                ∧ (gather_sources getSourceComponents components [] = Returns [] →
                   r = mkResult false "No local components found to deploy"
                         None)
                ∧ (∀ sources,
                   gather_sources getSourceComponents components []
                   = Returns sources →
                   sources ≠ [] →
                   (∀ e, startDeploy tr sources = Throws e → r = fault e)
                   ∧ (∀ op, startDeploy tr sources = Returns op →
                      (∀ e, call_optional onCancelable (cancel_closure op)
                            = Throws e →
                            r = fault e)
                      ∧ (call_optional onCancelable (cancel_closure op)
                         = Returns () →
                         (∀ e, register_listener op = Throws e → r = fault e)
                         ∧ (register_listener op = Returns () →
                            (∀ e, pollStatus op = Throws e → r = fault e)
                            ∧ (∀ response, pollStatus op = Returns response →
                               (∀ e, report_completed onProgress
                                       (length components)
                                     = Throws e →
                                     r = fault e)
                               ∧ (report_completed onProgress
                                    (length components)
                                  = Returns () →
                                  r = if isCanceled (deploy_status response)
                                      then mkResult false "Deploy cancelled"
                                             None
                                      else if deploy_success response
                                      then mkResult true
                                             ("Successfully deployed "
                                              +:+ decimal (length components)
                                              +:+ " component(s)")
                                             (Some (describe components))
                                      else mkResult false "Deploy failed"
                                             (Some (deploy_details
                                                      (componentFailures
                                                         response)))))))))))).
Proof.
  split.
  - intros startRetrieve.
    destruct (retrieve_returns startRetrieve components onProgress onCancelable)
      as [r Hr].
    exists r. split; [done|]. unfold retrieve in Hr. split_and!.
    + intros e He. rewrite He in Hr.
      destruct (retrieve_catch_returns e) as (r' & Hr' & ?).
      simpl in Hr. rewrite Hr' in Hr. by injection Hr as <-.
    + intros Hs.
      destruct (retrieve_try startRetrieve components onProgress onCancelable)
        as [r'|e] eqn:Hb; simpl in Hr.
      * injection Hr as ->. by apply (retrieve_try_success _ _ _ _ _ Hb).
      * destruct (retrieve_catch_returns e) as (r' & Hr' & Hf & _).
        rewrite Hr' in Hr. injection Hr as <-. congruence.
    + unfold retrieve_try, retrieve_catch in Hr. cbv zeta.
      run_along Hr; by_cases_of_result.
  - intros tr.
    destruct (deploy_returns tr components onProgress onCancelable) as [r Hr].
    exists r. split; [done|]. unfold deploy in Hr. split_and!.
    + intros e He. rewrite He in Hr.
      destruct (deploy_catch_returns e) as (r' & Hr' & ?).
      simpl in Hr. rewrite Hr' in Hr. by injection Hr as <-.
    + intros Hs.
      destruct (deploy_try tr components onProgress onCancelable)
        as [r'|e] eqn:Hb; simpl in Hr.
      * injection Hr as ->. by apply (deploy_try_success _ _ _ _ _ Hb).
      * destruct (deploy_catch_returns e) as (r' & Hr' & Hf & _).
        rewrite Hr' in Hr. injection Hr as <-. congruence.
    + unfold deploy_try, deploy_catch in Hr. cbv zeta.
      run_along Hr;
        try match goal with
            | H : ?sources ≠ [] |- _ =>
                destruct sources; [done|];
                cbn [bindO try_catch length Nat.eqb]; intros Hr; run_along Hr
            end;
        by_cases_of_result.
Qed.

(** ** More on the selection model *)

Section TriState.

Implicit Types (s prev : gset string) (comps : list MetadataComponent).

Lemma filter_length_zero {A : Type} (P : A → bool) (l : list A) :
  length (List.filter P l) = 0 ↔ ∀ x, x ∈ l → P x = false.
Proof.
  induction l as [|x l IH]; cbn [List.filter].
  - split; [intros _ y Hy; by apply elem_of_nil in Hy|done].
  - destruct (P x) eqn:E; cbn [length].
    + split; [done|]. intros H. specialize (H x (list_elem_of_here _ _)).
      congruence.
    + rewrite IH. split.
      * intros H y [->|Hy]%elem_of_cons; [done|by apply H].
      * intros H y Hy. apply H. by right.
Qed.

Lemma filter_length_full {A : Type} (P : A → bool) (l : list A) :
  length (List.filter P l) = length l ↔ ∀ x, x ∈ l → P x = true.
Proof.
  induction l as [|x l IH]; cbn [List.filter].
  - split; [intros _ y Hy; by apply elem_of_nil in Hy|done].
  - pose proof (List.filter_length_le P l) as Hle.
    destruct (P x) eqn:E; cbn [length].
    + split.
      * intros H y [->|Hy]%elem_of_cons; [done|]. apply IH; [lia|done].
      * intros H. f_equal. apply IH. intros y Hy. apply H. by right.
    + split; [lia|]. intros H. specialize (H x (list_elem_of_here _ _)).
      congruence.
Qed.

Lemma getSelectionState_all s comps :
  getSelectionState s comps = SelectedAll
  ↔ comps ≠ [] ∧ ∀ c, c ∈ comps → id c ∈ s.
Proof.
  unfold getSelectionState, isSelected.
  destruct comps as [|c0 l]; [simpl; naive_solver|].
  set (comps := c0 :: l). replace (length comps =? 0) with false by done.
  destruct (Nat.eqb_spec (length (List.filter (λ c, bool_decide (id c ∈ s)) comps)) 0)
    as [H0|H0].
  { split; [done|]. intros [_ H].
    pose proof (proj1 (filter_length_zero _ _) H0 c0 (list_elem_of_here _ _)) as H0'.
    specialize (H c0 (list_elem_of_here _ _)).
    apply bool_decide_eq_false in H0'. done. }
  destruct (Nat.eqb_spec (length (List.filter (λ c, bool_decide (id c ∈ s)) comps))
              (length comps)) as [H1|H1].
  - split; [|done]. intros _. split; [done|]. intros c Hc.
    pose proof (proj1 (filter_length_full _ _) H1 c Hc) as H1'.
    by apply bool_decide_eq_true in H1'.
  - split; [done|]. intros [_ H]. exfalso. apply H1.
    apply filter_length_full. intros c Hc. by apply bool_decide_eq_true, H.
Qed.

Lemma getSelectionState_none s comps :
  getSelectionState s comps = SelectedNone ↔ ∀ c, c ∈ comps → id c ∉ s.
Proof.
  unfold getSelectionState, isSelected.
  destruct comps as [|c0 l].
  { simpl. split; [intros _ c Hc; by apply elem_of_nil in Hc|done]. }
  set (comps := c0 :: l). replace (length comps =? 0) with false by done.
  destruct (Nat.eqb_spec (length (List.filter (λ c, bool_decide (id c ∈ s)) comps)) 0)
    as [H0|H0].
  - split; [|done]. intros _ c Hc.
    pose proof (proj1 (filter_length_zero _ _) H0 c Hc) as H0'.
    by apply bool_decide_eq_false in H0'.
  - assert (Hno : ¬ ∀ c, c ∈ comps → id c ∉ s).
    { intros H. apply H0, filter_length_zero. intros c Hc.
      by apply bool_decide_eq_false, H. }
    destruct (_ =? _); split; done.
Qed.

Lemma toggle_involutive i s : toggle i (toggle i s) = s.
Proof.
  unfold toggle. destruct (decide (i ∈ s)) as [Hs|Hs].
  - rewrite (bool_decide_eq_true_2 (i ∈ s)) by done.
    rewrite bool_decide_eq_false_2 by set_solver.
    apply set_eq. intros j. destruct (decide (j = i)); set_solver.
  - rewrite (bool_decide_eq_false_2 (i ∈ s)) by done.
    rewrite bool_decide_eq_true_2 by set_solver. set_solver.
Qed.

End TriState.

(** X1: [toggle] flips the membership of its id and of no other id, and two
    [toggle]s of the same id cancel. *)
Theorem toggle_flips_exactly_one (prev : gset string) (i : string) :
  (i ∈ toggle i prev ↔ i ∉ prev)
  ∧ (∀ j, j ≠ i → j ∈ toggle i prev ↔ j ∈ prev)
  ∧ toggle i (toggle i prev) = prev.
Proof.
  split_and!.
  - unfold toggle. case_bool_decide; set_solver.
  - intros j Hj. unfold toggle. case_bool_decide; set_solver.
  - apply toggle_involutive.
Qed.

(** X2: [toggleMultiple] depends on its ids only as a set: order and
    repetitions do not matter; on one id it is [toggle], on no id it
    changes nothing. *)
Theorem toggleMultiple_ids_as_set (prev : gset string) (ids ids' : list string)
    (i : string) :
  ((∀ j, j ∈ ids ↔ j ∈ ids') → toggleMultiple ids prev = toggleMultiple ids' prev)
  ∧ toggleMultiple [i] prev = toggle i prev
  ∧ toggleMultiple [] prev = prev.
Proof.
  split_and!.
  - intros Hsame.
    assert (Hset : (list_to_set ids : gset string) = list_to_set ids').
    { apply set_eq. intros j. rewrite !elem_of_list_to_set. apply Hsame. }
    destruct (decide (Forall (λ j, j ∈ prev) ids)) as [H|H];
      rewrite Forall_forall in H.
    + rewrite (toggleMultiple_all ids) by done.
      rewrite (toggleMultiple_all ids') by (intros j Hj; by apply H, Hsame).
      by rewrite Hset.
    + rewrite (toggleMultiple_not_all ids) by done.
      rewrite (toggleMultiple_not_all ids')
        by (intros H'; apply H; intros j Hj; by apply H', Hsame).
      by rewrite Hset.
  - unfold toggleMultiple, toggle. simpl. rewrite andb_true_r.
    by destruct (bool_decide (i ∈ prev)).
  - done.
Qed.

(** X3: [getSelectionState] is [SelectedAll] iff the group is not empty and
    every member is selected, [SelectedNone] iff no member is selected (so
    also for the empty group), and [SelectedPartial] iff some member is
    selected and some member is not. *)
Theorem getSelectionState_spec (selectedIds : gset string)
    (comps : list MetadataComponent) :
  (getSelectionState selectedIds comps = SelectedAll
   ↔ comps ≠ [] ∧ ∀ c, c ∈ comps → id c ∈ selectedIds)
  ∧ (getSelectionState selectedIds comps = SelectedNone
     ↔ ∀ c, c ∈ comps → id c ∉ selectedIds)
  ∧ (getSelectionState selectedIds comps = SelectedPartial
     ↔ (∃ c, c ∈ comps ∧ id c ∈ selectedIds)
       ∧ (∃ c, c ∈ comps ∧ id c ∉ selectedIds)).
Proof.
  split_and!; [apply getSelectionState_all|apply getSelectionState_none|].
  pose proof (getSelectionState_all selectedIds comps) as Hall.
  pose proof (getSelectionState_none selectedIds comps) as Hnone.
  split.
  - intros Hp. split.
    + destruct (decide (Exists (λ c, id c ∈ selectedIds) comps)) as [H|H].
      * apply Exists_exists in H. naive_solver.
      * rewrite <- Forall_Exists_neg, Forall_forall in H.
        pose proof (proj2 Hnone H). congruence.
    + destruct (decide (Exists (λ c, id c ∉ selectedIds) comps)) as [H|H].
      * apply Exists_exists in H. naive_solver.
      * rewrite <- Forall_Exists_neg, Forall_forall in H.
        assert (getSelectionState selectedIds comps = SelectedAll); [|congruence].
        apply Hall. split.
        -- intros ->. discriminate.
        -- intros c Hc. specialize (H c Hc).
           destruct (decide (id c ∈ selectedIds)); tauto.
  - intros [(c1 & Hc1 & Hin) (c2 & Hc2 & Hout)].
    destruct (getSelectionState selectedIds comps) eqn:E; [|done|].
    + exfalso. by apply (proj1 Hnone eq_refl c1 Hc1).
    + exfalso. destruct (proj1 Hall eq_refl) as [_ E']. by apply Hout, E'.
Qed.

(** X4: the key that toggles all listed components ([handleToggleAll])
    turns a fully selected list into an unselected one and any other
    non-empty list into a fully selected one; the list is never left
    partly selected, and selections outside the list are kept. *)
Theorem handleToggleAll_flips_tri_state (selectedIds : gset string)
    (comps : list MetadataComponent) :
  getSelectionState (handleToggleAll comps selectedIds) comps
  = match getSelectionState selectedIds comps with
    | SelectedAll => SelectedNone
    | _ => if length comps =? 0 then SelectedNone else SelectedAll
    end
  ∧ (∀ i, i ∉ id <$> comps →
          i ∈ handleToggleAll comps selectedIds ↔ i ∈ selectedIds).
Proof.
  unfold handleToggleAll.
  destruct comps as [|c0 l].
  { split; [done|]. intros i _. done. }
  set (comps := c0 :: l). replace (length comps =? 0) with false by done.
  assert (Hids : ∀ c, c ∈ comps → id c ∈ id <$> comps).
  { intros c Hc. apply list_elem_of_fmap. by exists c. }
  destruct (decide (Forall (λ j, j ∈ selectedIds) (id <$> comps))) as [H|H];
    rewrite Forall_forall in H.
  - rewrite toggleMultiple_all by done.
    assert (Hbefore : getSelectionState selectedIds comps = SelectedAll).
    { apply getSelectionState_all. split; [done|]. intros c Hc. by apply H, Hids. }
    rewrite Hbefore. split.
    + apply getSelectionState_none. intros c Hc.
      rewrite elem_of_difference, elem_of_list_to_set. specialize (Hids c Hc). tauto.
    + intros i Hi. rewrite elem_of_difference, elem_of_list_to_set. tauto.
  - rewrite toggleMultiple_not_all by done.
    assert (Hbefore : getSelectionState selectedIds comps ≠ SelectedAll).
    { intros [_ Hall]%getSelectionState_all. apply H.
      intros j (c & -> & Hc)%list_elem_of_fmap. by apply Hall. }
    assert (Hafter : getSelectionState (selectedIds ∪ list_to_set (id <$> comps))
                       comps = SelectedAll).
    { apply getSelectionState_all. split; [done|]. intros c Hc.
      rewrite elem_of_union, elem_of_list_to_set. right. by apply Hids. }
    split.
    + rewrite Hafter. by destruct (getSelectionState selectedIds comps).
    + intros i Hi. rewrite elem_of_union, elem_of_list_to_set. tauto.
Qed.

(** X5: after [selectAll] of the whole list every component is selected
    and the list is in state [SelectedAll] (when not empty); after
    [deselectAll] none is and [count] is 0; and selecting the components
    that are selected already leaves [selectedComponents] as it was. *)
Theorem selectAll_deselectAll_views (allComponents : list MetadataComponent)
    (prev : gset string) :
  selectedComponents allComponents (selectAll allComponents prev) = allComponents
  ∧ count allComponents (selectAll allComponents prev) = length allComponents
  ∧ (allComponents ≠ [] →
     getSelectionState (selectAll allComponents prev) allComponents = SelectedAll)
  ∧ selectedComponents allComponents (deselectAll prev) = []
  ∧ count allComponents (deselectAll prev) = 0
  ∧ selectedComponents allComponents
      (selectAll (selectedComponents allComponents prev) prev)
    = selectedComponents allComponents prev.
Proof.
  assert (Hnone : selectedComponents allComponents (deselectAll prev) = []).
  { unfold selectedComponents, deselectAll.
    induction allComponents as [|c l IH]; [done|]. cbn [List.filter].
    by rewrite bool_decide_eq_false_2 by set_solver. }
  assert (Hall : selectedComponents allComponents (selectAll allComponents prev)
                 = allComponents).
  { unfold selectedComponents, selectAll.
    apply List.forallb_filter_id, forallb_forall. intros c Hc.
    apply bool_decide_eq_true_2, elem_of_list_to_set, list_elem_of_fmap.
    exists c. split; [done|]. by apply list_elem_of_In. }
  split_and!; [done| |..|done| |].
  - unfold count. by rewrite Hall.
  - intros Hne. apply getSelectionState_all. split; [done|]. intros c Hc.
    unfold selectAll. apply elem_of_list_to_set, list_elem_of_fmap. by exists c.
  - unfold count. by rewrite Hnone.
  - unfold selectedComponents, selectAll. apply List.filter_ext_in.
    intros c Hc%list_elem_of_In. apply bool_decide_ext.
    rewrite elem_of_list_to_set, list_elem_of_fmap. split.
    + intros (c' & -> & [_ H]%elem_of_List_filter). by apply bool_decide_eq_true in H.
    + intros H. exists c. split; [done|]. apply elem_of_List_filter.
      split; [done|]. by apply bool_decide_eq_true.
Qed.

(** ** Strings: prefixes, slices and splits *)

Section Strings.

Implicit Types (a b s p rest : string) (c sep : ascii).

Abbreviation chars := list_ascii_of_string.

Lemma append_cons c a b : String c a +:+ b = String c (a +:+ b).
Proof. reflexivity. Qed.

Lemma append_nil b : "" +:+ b = b.
Proof. reflexivity. Qed.

Lemma string_app_assoc a b s : (a +:+ b) +:+ s = a +:+ (b +:+ s).
Proof.
  induction a as [|c a IH]; [done|]. rewrite !append_cons. by f_equal.
Qed.

Lemma string_app_empty_r a : a +:+ "" = a.
Proof.
  induction a as [|c a IH]; [done|]. rewrite append_cons. by f_equal.
Qed.

Lemma string_app_length a b :
  String.length (a +:+ b) = String.length a + String.length b.
Proof.
  induction a as [|c a IH]; [done|]. rewrite append_cons. simpl. by f_equal.
Qed.

Lemma string_app_inv_head a s1 s2 : a +:+ s1 = a +:+ s2 → s1 = s2.
Proof.
  induction a as [|c a IH]; [done|]. rewrite !append_cons.
  intros [= H]. by apply IH.
Qed.

Lemma chars_app a b : chars (a +:+ b) = chars a ++ chars b.
Proof.
  induction a as [|c a IH]; [done|]. rewrite append_cons. simpl. by f_equal.
Qed.

Lemma startsWith_app a b : startsWith a (a +:+ b) = true.
Proof.
  induction a as [|c a IH]; [done|]. rewrite append_cons. simpl.
  by rewrite bool_decide_eq_true_2, IH.
Qed.

Lemma startsWith_inv p s : startsWith p s = true → ∃ rest, s = p +:+ rest.
Proof.
  revert s. induction p as [|c p IH]; intros s; simpl.
  - intros _. by exists s.
  - destruct s as [|d s]; [done|].
    intros [Hc Hp]%andb_true_iff. apply bool_decide_eq_true in Hc as ->.
    destruct (IH _ Hp) as [rest ->]. by exists rest.
Qed.

Lemma slice_from_app a b : slice_from (String.length a) (a +:+ b) = b.
Proof.
  induction a as [|c a IH]; [by destruct b|]. rewrite append_cons. by simpl.
Qed.

Lemma slice_to_app a b : slice_to (String.length a) (a +:+ b) = a.
Proof.
  induction a as [|c a IH]; [done|]. rewrite append_cons. simpl. by f_equal.
Qed.

Lemma startsWith_app_char a c rest :
  startsWith (a +:+ String c "") (a +:+ String c rest) = true.
Proof.
  induction a as [|d a IH].
  - rewrite !append_nil. simpl. by rewrite bool_decide_eq_true_2.
  - rewrite !append_cons. simpl. by rewrite bool_decide_eq_true_2, IH.
Qed.

Lemma slice_from_app_char a c rest :
  slice_from (String.length a + 1) (a +:+ String c rest) = rest.
Proof.
  induction a as [|d a IH]; [by destruct rest|]. rewrite append_cons. by simpl.
Qed.

Lemma remove_first_unfold p s :
  remove_first p s
  = if startsWith p s then slice_from (String.length p) s
    else match s with
         | EmptyString => EmptyString
         | String c rest => String c (remove_first p rest)
         end.
Proof. by destruct s. Qed.

Lemma remove_first_prefix p rest : remove_first p (p +:+ rest) = rest.
Proof. by rewrite remove_first_unfold, startsWith_app, slice_from_app. Qed.

Lemma split_char_cons sep s : ∃ w ws, split_char sep s = w :: ws.
Proof.
  induction s as [|c s (w & ws & IH)]; simpl; [by eexists _, _|].
  case_bool_decide; [by eexists _, _|]. rewrite IH. by eexists _, _.
Qed.

Lemma split_char_no_sep sep p : sep ∉ chars p → split_char sep p = [p].
Proof.
  induction p as [|c p IH]; simpl; [done|].
  intros [Hne Hp]%not_elem_of_cons.
  rewrite bool_decide_eq_false_2 by done. by rewrite IH.
Qed.

Lemma split_char_app_sep sep p rest :
  sep ∉ chars p →
  split_char sep (p +:+ String sep rest) = p :: split_char sep rest.
Proof.
  induction p as [|c p IH].
  - intros _. rewrite append_nil. simpl. by rewrite bool_decide_eq_true_2.
  - intros H. change (chars (String c p)) with (c :: chars p) in H.
    apply not_elem_of_cons in H as [Hne Hp].
    rewrite append_cons. cbn [split_char].
    rewrite bool_decide_eq_false_2 by done. by rewrite IH.
Qed.

(** A string that holds [sep] is the first piece of its split, [sep], and
    a rest. *)
Lemma split_char_head sep s :
  sep ∈ chars s →
  ∃ h rest, split_char sep s !! 0 = Some h ∧ s = h +:+ String sep rest
            ∧ sep ∉ chars h.
Proof.
  induction s as [|c s IH]; simpl.
  - intros H. by apply elem_of_nil in H.
  - intros H. destruct (decide (c = sep)) as [->|Hne].
    + rewrite bool_decide_eq_true_2 by done. exists "", s.
      split_and!; [done..|]. apply not_elem_of_nil.
    + rewrite bool_decide_eq_false_2 by done.
      apply elem_of_cons in H as [H|H]; [congruence|].
      destruct (IH H) as (h & rest & Hh & -> & Hno).
      destruct (split_char sep (h +:+ String sep rest)) as [|w ws]; [done|].
      injection Hh as ->. exists (String c h), rest.
      split_and!; [done..|]. simpl. by apply not_elem_of_cons.
Qed.

Lemma includes_char sep s :
  includes (String sep "") s = true ↔ sep ∈ chars s.
Proof.
  induction s as [|c s IH]; simpl.
  - split; [done|]. intros H. by apply elem_of_nil in H.
  - rewrite orb_true_iff, IH, elem_of_cons.
    destruct s; simpl; rewrite ?andb_true_r, bool_decide_eq_true; naive_solver.
Qed.

Lemma includes_char_false sep s :
  sep ∉ chars s → includes (String sep "") s = false.
Proof. intros H. apply not_true_iff_false. by rewrite includes_char. Qed.

Lemma startsWith_chars p s c :
  startsWith p s = true → c ∈ chars p → c ∈ chars s.
Proof.
  intros [rest ->]%startsWith_inv Hc. rewrite chars_app, elem_of_app. by left.
Qed.

End Strings.

(** X6: the ids that the type tree gives to its entries parse back to the
    scope and the type they were made from, provided the package and type
    names hold no colon and the type name is not empty; the ids of the two
    group headings parse to nothing. *)
Theorem parseNodeId_round_trip (packageName0 typeName0 : string) :
  colon ∉ list_ascii_of_string packageName0 →
  colon ∉ list_ascii_of_string typeName0 →
  typeName0 ≠ "" →
  parseNodeId (unpackaged_node_id typeName0)
  = Some (mkParsed (mkScope Unpackaged None) (Some typeName0))
  ∧ parseNodeId (package_type_node_id packageName0 typeName0)
    = Some (mkParsed (mkScope InPackage (Some packageName0)) (Some typeName0))
  ∧ parseNodeId (package_node_id packageName0)
    = Some (mkParsed (mkScope InPackage (Some packageName0)) None)
  ∧ parseNodeId "unpackaged" = None
  ∧ parseNodeId "packages" = None.
Proof.
  intros Hp Ht Hne. split_and!; [| | |done|done].
  - unfold parseNodeId, unpackaged_node_id.
    by rewrite startsWith_app, remove_first_prefix.
  - unfold parseNodeId, package_type_node_id.
    replace (startsWith "unpackaged:type:" _) with false by done.
    rewrite startsWith_app, remove_first_prefix.
    change (packageName0 +:+ ":type:" +:+ typeName0)
      with (packageName0 +:+ String colon ("type" +:+ String colon typeName0)).
    rewrite split_char_app_sep by done.
    rewrite (split_char_app_sep colon "type") by (by vm_compute; set_solver).
    rewrite split_char_no_sep by done. simpl.
    rewrite (bool_decide_eq_false_2 (typeName0 = "")) by done. done.
  - unfold parseNodeId, package_node_id.
    replace (startsWith "unpackaged:type:" _) with false by done.
    rewrite startsWith_app, remove_first_prefix.
    rewrite split_char_no_sep by done. done.
Qed.

Lemma parseNodeId_round_trip_witness :
  parseNodeId (package_type_node_id "ns" "ApexClass")
  = Some (mkParsed (mkScope InPackage (Some "ns")) (Some "ApexClass")).
Proof.
  apply (parseNodeId_round_trip "ns" "ApexClass").
  - vm_compute. set_solver.
  - vm_compute. set_solver.
  - discriminate.
Defined.

(** X7: in the grouped view, the object a component is filed under and the
    label it gets there recompose its full name: [object.label] for names
    with a dot, [object-label] for names with a dash and no dot; a
    [CustomObject] is filed under its own name, and a name with neither
    sign goes under [Uncategorized] with its full name as label. *)
Theorem objectName_displayName_recompose (component : MetadataComponent) :
  (type component = "CustomObject" →
     objectName component = fullName component
     ∧ displayName (objectName component) component = fullName component)
  ∧ (type component ≠ "CustomObject" →
     dot ∈ list_ascii_of_string (fullName component) →
     fullName component
     = objectName component +:+ "."
       +:+ displayName (objectName component) component
     ∧ dot ∉ list_ascii_of_string (objectName component))
  ∧ (type component ≠ "CustomObject" →
     dot ∉ list_ascii_of_string (fullName component) →
     dash ∈ list_ascii_of_string (fullName component) →
     fullName component
     = objectName component +:+ "-"
       +:+ displayName (objectName component) component
     ∧ dash ∉ list_ascii_of_string (objectName component))
  ∧ (type component ≠ "CustomObject" →
     dot ∉ list_ascii_of_string (fullName component) →
     dash ∉ list_ascii_of_string (fullName component) →
     objectName component = "Uncategorized"
     ∧ displayName (objectName component) component = fullName component).
Proof.
  unfold objectName, displayName.
  destruct (decide (type component = "CustomObject")) as [Hty|Hty].
  { rewrite !bool_decide_eq_true_2 by done. by split_and!. }
  rewrite !bool_decide_eq_false_2 by done.
  change "." with (String dot ""). change "-" with (String dash "").
  split_and!; [done|..].
  - intros _ Hdot.
    rewrite (proj2 (includes_char dot _) Hdot).
    destruct (split_char_head _ _ Hdot) as (h & rest & -> & Hfull & Hno).
    simpl. rewrite Hfull.
    by rewrite startsWith_app_char, slice_from_app_char.
  - intros _ Hnodot Hdash.
    rewrite (includes_char_false dot) by done.
    rewrite (proj2 (includes_char dash _) Hdash).
    destruct (split_char_head _ _ Hdash) as (h & rest & -> & Hfull & Hno).
    simpl. rewrite Hfull.
    rewrite startsWith_app_char, slice_from_app_char.
    by destruct (startsWith _ _).
  - intros _ Hnodot Hnodash.
    rewrite (includes_char_false dot) by done.
    rewrite (includes_char_false dash) by done.
    split; [done|].
    destruct (startsWith ("Uncategorized" +:+ String dot "") (fullName component))
      eqn:E1.
    { exfalso. apply Hnodot. apply (startsWith_chars _ _ dot E1).
      vm_compute. set_solver. }
    destruct (startsWith ("Uncategorized" +:+ String dash "") (fullName component))
      eqn:E2.
    { exfalso. apply Hnodash. apply (startsWith_chars _ _ dash E2).
      vm_compute. set_solver. }
    done.
Qed.

(** ** The package name of a component *)

Section PackageName.

Implicit Types (s p rest : string) (k : nat).

Lemma namespace_length_sound s k :
  namespace_length s = Some k →
  1 ≤ k ∧ String.length (slice_to k s) = k ∧ all_word (slice_to k s) = true
  ∧ ∃ rest, s = slice_to k s +:+ "__" +:+ rest.
Proof.
  revert k. induction s as [|c s IH]; intros k; [done|].
  cbn [namespace_length]. destruct (is_word c) eqn:Hc; [|done].
  destruct (namespace_length s) as [k'|] eqn:Hs.
  - intros [= <-]. destruct (IH k' eq_refl) as (Hk & Hlen & Hw & rest & Hrest).
    split_and!; [lia|by simpl; f_equal| |].
    + unfold all_word in *. simpl. by rewrite Hc, Hw.
    + exists rest. cbn [slice_to]. rewrite append_cons. by f_equal.
  - destruct (startsWith "__" s) eqn:Hpre; [|done]. intros [= <-].
    apply startsWith_inv in Hpre as [rest ->].
    split_and!; [done|done| |].
    + unfold all_word. simpl. by rewrite Hc.
    + by exists rest.
Qed.

Lemma namespace_length_complete p rest :
  p ≠ "" → all_word p = true →
  ∃ k, namespace_length (p +:+ "__" +:+ rest) = Some k ∧ String.length p ≤ k.
Proof.
  induction p as [|c p IH]; [done|]. intros _ Hw.
  unfold all_word in Hw. simpl in Hw. apply andb_true_iff in Hw as [Hc Hw].
  rewrite append_cons. cbn [namespace_length]. rewrite Hc.
  destruct p as [|d p].
  - rewrite append_nil.
    destruct (namespace_length ("__" +:+ rest)) as [k'|] eqn:E.
    + exists (S k'). split; [done|simpl; lia].
    + rewrite startsWith_app. exists 1. by split.
  - destruct IH as (k' & -> & Hk'); [done|done|].
    exists (S k'). split; [done|]. simpl in *. lia.
Qed.

End PackageName.

(** X8: the object-structure types never get a package name.  For any
    other type the package name is the longest non-empty run of
    [[A-Za-z0-9_]] characters at the start of the full name that two
    underscores follow ([ns__Foo__c] gives [ns__Foo]); there is none iff
    the full name has no such start. *)
Theorem getPackageName_spec (type0 fullName0 : string) :
  (type0 ∈ MetadataService.OBJECT_TYPES →
     MetadataService.getPackageName type0 fullName0 = None)
  ∧ (∀ p, MetadataService.getPackageName type0 fullName0 = Some p →
       (type0 ∉ MetadataService.OBJECT_TYPES)
       ∧ p ≠ "" ∧ all_word p = true
       ∧ (∃ rest, fullName0 = p +:+ "__" +:+ rest)
       ∧ (∀ p' rest', p' ≠ "" → all_word p' = true →
            fullName0 = p' +:+ "__" +:+ rest' →
            String.length p' ≤ String.length p))
  ∧ (type0 ∉ MetadataService.OBJECT_TYPES →
     MetadataService.getPackageName type0 fullName0 = None →
     ∀ p' rest', p' ≠ "" → all_word p' = true →
       fullName0 ≠ p' +:+ "__" +:+ rest')
  ∧ MetadataService.getPackageName "ApexClass" "ns__Foo__c" = Some "ns__Foo"
  ∧ MetadataService.getPackageName "CustomField" "ns__Foo__c" = None.
Proof.
  unfold MetadataService.getPackageName. split_and!; [| | |done|done].
  - intros H. by rewrite bool_decide_eq_true_2.
  - intros p. case_bool_decide as Hty; [done|].
    destruct (namespace_length fullName0) as [k|] eqn:E; [|done].
    intros [= <-].
    destruct (namespace_length_sound _ _ E) as (Hk & Hlen & Hw & rest & Hrest).
    split_and!; [done| |done|by exists rest|].
    + intros Hp. rewrite Hp in Hlen. simpl in Hlen. lia.
    + intros p' rest' Hne Hw' Hfull. rewrite Hlen.
      destruct (namespace_length_complete p' rest' Hne Hw') as (k' & Hk' & Hle).
      rewrite <- Hfull, E in Hk'. injection Hk' as <-. done.
  - intros Hty. rewrite bool_decide_eq_false_2 by done.
    destruct (namespace_length fullName0) as [k|] eqn:E; [done|].
    intros _ p' rest' Hne Hw' Hfull.
    destruct (namespace_length_complete p' rest' Hne Hw') as (k' & Hk' & _).
    rewrite <- Hfull, E in Hk'. done.
Qed.

(** ** The ids and tags issued by the inventory sources *)

Section Ids.

Implicit Types (a b d s : string) (i j : nat).

Lemma string_of_uint_no_dash (u : Decimal.uint) :
  dash ∉ list_ascii_of_string (NilEmpty.string_of_uint u).
Proof.
  induction u; simpl; [apply not_elem_of_nil|..];
    (apply not_elem_of_cons; split; [by vm_compute|done]).
Qed.

Lemma decimal_no_dash i : dash ∉ list_ascii_of_string (decimal i).
Proof. apply string_of_uint_no_dash. Qed.

Lemma decimal_inj i j : decimal i = decimal j → i = j.
Proof.
  unfold decimal. intros H.
  assert (Hu : Some (Nat.to_uint i) = Some (Nat.to_uint j)).
  { by rewrite <- !NilEmpty.usu, H. }
  injection Hu as Hu.
  by rewrite <- (DecimalNat.Unsigned.of_to i), <- (DecimalNat.Unsigned.of_to j), Hu.
Qed.

(** The text after the last dash of a string is determined by the string. *)
Lemma append_dash_inj a b d1 d2 :
  dash ∉ list_ascii_of_string d1 → dash ∉ list_ascii_of_string d2 →
  a +:+ String dash d1 = b +:+ String dash d2 → d1 = d2.
Proof.
  intros H1 H2. revert b. induction a as [|c a IH]; intros b.
  - rewrite append_nil. destruct b as [|c' b].
    + rewrite append_nil. by intros [= ->].
    + rewrite append_cons. intros [= <- ->]. exfalso. apply H1.
      rewrite chars_app, elem_of_app. right. by left.
  - rewrite append_cons. destruct b as [|c' b].
    + rewrite append_nil. intros [= -> <-]. exfalso. apply H2.
      rewrite chars_app, elem_of_app. right. by left.
    + rewrite append_cons. intros [= <- H]. by apply (IH b).
Qed.

Lemma indexed_id_inj a b i j :
  a +:+ "-" +:+ decimal i = b +:+ "-" +:+ decimal j → i = j.
Proof.
  intros H. apply decimal_inj.
  by apply (append_dash_inj a b); [apply decimal_no_dash..|].
Qed.

Lemma id_shape pre t n d :
  pre +:+ t +:+ "-" +:+ n +:+ "-" +:+ d
  = (pre +:+ t +:+ "-" +:+ n) +:+ "-" +:+ d.
Proof. by rewrite !string_app_assoc. Qed.

Lemma NoDup_imap_index {A B : Type} (f : nat → A → B) (l : list A) :
  (∀ i j x y, l !! i = Some x → l !! j = Some y → f i x = f j y → i = j) →
  NoDup (imap f l).
Proof.
  intros Hinj. apply NoDup_alt. intros i j z Hi Hj.
  apply list_lookup_imap_Some in Hi as (x & Hx & ->).
  apply list_lookup_imap_Some in Hj as (y & Hy & Heq).
  by apply (Hinj i j x y).
Qed.

Lemma filter_complement_Permutation {A : Type} (P : A → bool) (l : list A) :
  List.filter (λ x, negb (P x)) l ++ List.filter P l ≡ₚ l.
Proof.
  induction l as [|x l IH]; [done|]. cbn [List.filter].
  destruct (P x); cbn [negb].
  - rewrite <- Permutation_middle. by constructor.
  - simpl. by constructor.
Qed.

Lemma List_filter_sublist {A : Type} (P : A → bool) (l : list A) :
  List.filter P l `sublist_of` l.
Proof.
  induction l as [|x l IH]; [done|]. cbn [List.filter].
  destruct (P x); by constructor.
Qed.

Lemma ids_with_status (l : list MetadataComponent) st :
  id <$> ((λ c, with_status c st) <$> l) = id <$> l.
Proof. rewrite <- list_fmap_compose. by apply list_fmap_ext. Qed.

Lemma ids_synced_with (l : list MetadataComponent) g :
  id <$> ((λ c, synced_with c (g c)) <$> l) = id <$> l.
Proof. rewrite <- list_fmap_compose. by apply list_fmap_ext. Qed.

Variables (connection : Connection) (newDate : string → Z).
Variables (project : DeployTransport) (resolver : Resolver).

Lemma remote_lookup ty i c :
  MetadataService.listRemoteComponents connection newDate ty !! i = Some c →
  ∃ n, id c = "remote-" +:+ ty +:+ "-" +:+ n +:+ "-" +:+ decimal i
       ∧ fullName c = n ∧ type c = ty ∧ status c = RemoteOnly
       ∧ packageName c = MetadataService.getPackageName ty n
       ∧ isThirdParty c = Some (bool_decide (packageName c ≠ None)).
Proof.
  unfold MetadataService.listRemoteComponents.
  destruct (connection ty) as [listResult|e]; [|done].
  intros (item & _ & ->)%list_lookup_imap_Some.
  exists (fp_fullName item). by split_and!.
Qed.

Lemma local_lookup ty i c :
  MetadataService.listLocalComponents project resolver ty !! i = Some c →
  ∃ n, id c = "local-" +:+ ty +:+ "-" +:+ n +:+ "-" +:+ decimal i
       ∧ fullName c = n ∧ type c = ty ∧ status c = LocalOnly
       ∧ packageName c = MetadataService.getPackageName ty n
       ∧ isThirdParty c = Some (bool_decide (packageName c ≠ None))
       ∧ lastModifiedDate c = None ∧ lastModifiedBy c = None.
Proof.
  unfold MetadataService.listLocalComponents.
  destruct (MetadataService.listAllLocalSourceComponents _ _) as [cs|e]; [|done].
  intros (sc & Hsc & ->)%list_lookup_imap_Some.
  apply list_elem_of_lookup_2, elem_of_List_filter in Hsc as [_ Hty].
  apply bool_decide_eq_true in Hty.
  exists (source_fullName sc).
  unfold MetadataService.toLocalMetadataComponent. simpl. rewrite Hty.
  by split_and!.
Qed.

Lemma remote_ids_NoDup ty :
  NoDup (id <$> MetadataService.listRemoteComponents connection newDate ty).
Proof.
  apply NoDup_alt. intros i j z Hi Hj.
  apply list_lookup_fmap_Some in Hi as (c & -> & Hc).
  apply list_lookup_fmap_Some in Hj as (c' & Heq & Hc').
  destruct (remote_lookup _ _ _ Hc) as (n & Hid & _).
  destruct (remote_lookup _ _ _ Hc') as (n' & Hid' & _).
  rewrite Hid, Hid', !id_shape in Heq. by apply indexed_id_inj in Heq.
Qed.

Lemma local_ids_NoDup ty :
  NoDup (id <$> MetadataService.listLocalComponents project resolver ty).
Proof.
  apply NoDup_alt. intros i j z Hi Hj.
  apply list_lookup_fmap_Some in Hi as (c & -> & Hc).
  apply list_lookup_fmap_Some in Hj as (c' & Heq & Hc').
  destruct (local_lookup _ _ _ Hc) as (n & Hid & _).
  destruct (local_lookup _ _ _ Hc') as (n' & Hid' & _).
  rewrite Hid, Hid', !id_shape in Heq. by apply indexed_id_inj in Heq.
Qed.

Lemma local_remote_ids_apart ty ty' c c' :
  c ∈ MetadataService.listRemoteComponents connection newDate ty →
  c' ∈ MetadataService.listLocalComponents project resolver ty' →
  id c ≠ id c'.
Proof.
  intros [i Hc]%list_elem_of_lookup_1 [j Hc']%list_elem_of_lookup_1.
  destruct (remote_lookup _ _ _ Hc) as (n & -> & _).
  destruct (local_lookup _ _ _ Hc') as (n' & -> & _).
  discriminate.
Qed.

End Ids.

(** X9: whatever the remote listing and the source resolver answer, every
    component of [listRemoteComponents] carries the requested type and the
    status [RemoteOnly], every component of [listLocalComponents] the
    requested type, the status [LocalOnly] and no modification stamp; the
    package name of each is [getPackageName] of its type and full name, and
    [isThirdParty] says whether there is one.  A remote call that rejects
    or answers nothing, and a resolver that throws, give the empty list. *)
Theorem inventory_sources_tag_and_degrade (connection : Connection)
    (newDate : string → Z) (project : DeployTransport) (resolver : Resolver)
    (ty : string) :
  Forall (λ c, status c = RemoteOnly ∧ type c = ty
               ∧ packageName c = MetadataService.getPackageName ty (fullName c)
               ∧ isThirdParty c = Some (bool_decide (packageName c ≠ None)))
         (MetadataService.listRemoteComponents connection newDate ty)
  ∧ Forall (λ c, status c = LocalOnly ∧ type c = ty
                 ∧ packageName c = MetadataService.getPackageName ty (fullName c)
                 ∧ isThirdParty c = Some (bool_decide (packageName c ≠ None))
                 ∧ lastModifiedDate c = None ∧ lastModifiedBy c = None)
           (MetadataService.listLocalComponents project resolver ty)
  ∧ ((∃ e, connection ty = Throws e) ∨ connection ty = Returns None →
     MetadataService.listRemoteComponents connection newDate ty = [])
  ∧ ((∃ path e, path ∈ getPackagePaths project ∧ resolver path = Throws e) →
     MetadataService.listLocalComponents project resolver ty = []).
Proof.
  split_and!.
  - apply Forall_lookup. intros i c Hc.
    destruct (remote_lookup _ _ _ _ _ Hc) as (n & _ & <- & ? & ? & ? & ?).
    by split_and!.
  - apply Forall_lookup. intros i c Hc.
    destruct (local_lookup _ _ _ _ _ Hc) as (n & _ & <- & ? & ? & ? & ? & ? & ?).
    by split_and!.
  - unfold MetadataService.listRemoteComponents.
    intros [[e ->]| ->]; done.
  - intros (path & e & Hpath & Hthrow).
    unfold MetadataService.listLocalComponents,
      MetadataService.listAllLocalSourceComponents.
    assert (Hg : ∀ acc, ∃ e', MetadataService.gather_paths resolver
                          (getPackagePaths project) acc = Throws e').
    { induction (getPackagePaths project) as [|p ps IH]; intros acc.
      - by apply elem_of_nil in Hpath.
      - cbn [MetadataService.gather_paths].
        destruct (resolver p) as [roots|e0] eqn:Hp; simpl; [|by exists e0].
        apply elem_of_cons in Hpath as [->|Hpath]; [congruence|].
        by apply IH. }
    destruct (Hg (∅, [])) as [e' ->]. done.
Qed.

(** X10: the ids issued by one listing call are pairwise distinct, a local
    id is never a remote id, and so the components that [getTypeComponents]
    hands to the cache for a type have pairwise distinct ids. *)
Theorem service_ids_distinct (connection : Connection) (newDate : string → Z)
    (project : DeployTransport) (resolver : Resolver) (ty ty' : string) :
  NoDup (id <$> MetadataService.listRemoteComponents connection newDate ty)
  ∧ NoDup (id <$> MetadataService.listLocalComponents project resolver ty)
  ∧ (∀ c c', c ∈ MetadataService.listRemoteComponents connection newDate ty →
             c' ∈ MetadataService.listLocalComponents project resolver ty' →
             id c ≠ id c')
  ∧ NoDup (id <$> typeComponentsOf
                    (service_inventory connection newDate project resolver) ty).
Proof.
  split_and!.
  - apply remote_ids_NoDup.
  - apply local_ids_NoDup.
  - apply local_remote_ids_apart.
  - unfold typeComponentsOf, compareMetadata, service_inventory.
    cbn [localOnly remoteOnly synced conflicts listRemoteComponents
         listLocalComponents].
    rewrite !push_when_spec, !app_nil_l, app_nil_r, !fmap_app.
    set (L := MetadataService.listLocalComponents project resolver ty).
    set (R := MetadataService.listRemoteComponents connection newDate ty).
    rewrite !ids_with_status.
    rewrite (ids_synced_with _ (λ c, find_by_name (fullName c) R)).
    set (P := λ c : MetadataComponent,
           bool_decide (fullName c ∈ (list_to_set (names R) : gset string))).
    rewrite app_assoc. apply NoDup_app. split_and!.
    + rewrite <- fmap_app.
      pose proof (filter_complement_Permutation P L) as Hperm.
      subst P. cbv beta in Hperm. rewrite Hperm.
      apply local_ids_NoDup.
    + intros z Hz Hr.
      apply list_elem_of_fmap in Hr as (r & -> & [Hr _]%elem_of_List_filter).
      assert (Hloc : ∃ c, c ∈ L ∧ id c = id r).
      { apply elem_of_app in Hz as [Hz|Hz];
          apply list_elem_of_fmap in Hz as (c & Hid & [Hc _]%elem_of_List_filter);
          by exists c. }
      destruct Hloc as (c & Hc & Hid).
      by apply (local_remote_ids_apart connection newDate project resolver
                  ty ty r c Hr Hc).
    + eapply sublist_NoDup; [apply (remote_ids_NoDup connection newDate ty)|].
      apply fmap_sublist, List_filter_sublist.
Qed.

(** ** Walking the source trees *)

Section Walk.

Implicit Types (c root : SourceComponent) (stack : list SourceComponent).

Abbreviation stack_size stack := (list_sum (List.map tree_size stack)).
Abbreviation visit stack := (concat (List.map preorder stack)).

Lemma tree_size_unfold c :
  tree_size c = S (stack_size (getChildren c)).
Proof. by destruct c. Qed.

Lemma preorder_unfold c :
  preorder c = c :: concat (rev (List.map preorder (getChildren c))).
Proof. by destruct c. Qed.

Lemma elem_of_rev {A : Type} (l : list A) x : x ∈ rev l ↔ x ∈ l.
Proof. rewrite !list_elem_of_In. symmetry. apply in_rev. Qed.

Lemma list_sum_rev (l : list nat) : list_sum (rev l) = list_sum l.
Proof.
  induction l as [|x l IH]; [done|]. simpl. rewrite list_sum_app, IH. simpl. lia.
Qed.

Lemma stack_size_push c stack :
  stack_size (rev (getChildren c) ++ stack) + 1 = stack_size (c :: stack).
Proof.
  rewrite List.map_app, list_sum_app, List.map_rev, list_sum_rev.
  simpl. rewrite tree_size_unfold. lia.
Qed.

Lemma visit_push c stack :
  visit (c :: stack) = c :: visit (rev (getChildren c) ++ stack).
Proof.
  simpl. rewrite preorder_unfold. simpl. f_equal.
  by rewrite List.map_app, concat_app, List.map_rev.
Qed.

Lemma collect_loop_enough fuel stack collected :
  stack_size stack ≤ fuel →
  MetadataService.collect_loop fuel stack collected
  = Some (collected ++ visit stack).
Proof.
  revert stack collected. induction fuel as [|fuel IH]; intros stack collected H.
  - destruct stack as [|c stack].
    + simpl. by rewrite app_nil_r.
    + pose proof (stack_size_push c stack). lia.
  - destruct stack as [|c stack].
    + simpl. by rewrite app_nil_r.
    + cbn [MetadataService.collect_loop].
      pose proof (stack_size_push c stack).
      rewrite IH by lia. rewrite visit_push, <- app_assoc. done.
Qed.

(** Induction on the size of the stack. *)
Lemma stack_ind (P : list SourceComponent → Prop) :
  P [] →
  (∀ c stack, P (rev (getChildren c) ++ stack) → P (c :: stack)) →
  ∀ stack, P stack.
Proof.
  intros Hnil Hcons stack.
  remember (stack_size stack) as n eqn:Hn. revert stack Hn.
  induction n as [n IH] using lt_wf_ind. intros [|c stack] Hn; [done|].
  apply Hcons. pose proof (stack_size_push c stack).
  apply (IH (stack_size (rev (getChildren c) ++ stack))); [lia|done].
Qed.

Lemma visit_length stack : length (visit stack) = stack_size stack.
Proof.
  induction stack as [|c stack IH] using stack_ind; [done|].
  rewrite visit_push. pose proof (stack_size_push c stack).
  cbn [length]. lia.
Qed.

Lemma within_trans_child c p r :
  within c p → p ∈ getChildren r → within c r.
Proof.
  induction 1 as [p|child parent p Hchild Hparent IH]; intros Hp.
  - by apply (within_child p r r); [|constructor].
  - by apply (within_child child parent r); [|apply IH].
Qed.

Lemma visit_within stack c :
  c ∈ visit stack → ∃ root, root ∈ stack ∧ within c root.
Proof.
  induction stack as [|r stack IH] using stack_ind.
  - intros H. by apply elem_of_nil in H.
  - rewrite visit_push. intros [->|H]%elem_of_cons.
    + exists r. split; [by left|constructor].
    + destruct (IH H) as (root & [Hroot|Hroot]%elem_of_app & Hw).
      * exists r. split; [by left|].
        apply (within_trans_child _ root); [done|].
        by apply elem_of_rev.
      * exists root. split; [by right|done].
Qed.

Lemma visit_roots stack root : root ∈ stack → root ∈ visit stack.
Proof.
  intros H. apply list_elem_of_In, in_concat. exists (preorder root). split.
  - apply in_map. by apply list_elem_of_In.
  - rewrite preorder_unfold. by left.
Qed.

Lemma visit_children stack p child :
  p ∈ visit stack → child ∈ getChildren p → child ∈ visit stack.
Proof.
  induction stack as [|r stack IH] using stack_ind.
  - intros H. by apply elem_of_nil in H.
  - rewrite visit_push. intros [->|H]%elem_of_cons Hchild.
    + right. apply visit_roots. apply elem_of_app. left. by apply elem_of_rev.
    + right. by apply IH.
Qed.

Lemma within_visit c root : within c root → c ∈ preorder root.
Proof.
  assert (Hone : ∀ r, visit [r] = preorder r).
  { intros r. simpl. by rewrite app_nil_r. }
  induction 1 as [root|child parent root Hchild Hparent IH].
  - rewrite preorder_unfold. by left.
  - rewrite <- Hone in *. by apply (visit_children _ parent).
Qed.

Lemma collectComponentTree_preorder root :
  MetadataService.collectComponentTree root = preorder root.
Proof.
  unfold MetadataService.collectComponentTree.
  rewrite collect_loop_enough by (simpl; lia). simpl. by rewrite app_nil_r.
Qed.

Lemma collectComponentTree_within root c :
  c ∈ MetadataService.collectComponentTree root ↔ within c root.
Proof.
  rewrite collectComponentTree_preorder. split.
  - intros H. destruct (visit_within [root] c) as (r & Hr & Hw).
    + simpl. by rewrite app_nil_r.
    + by apply list_elem_of_singleton in Hr as ->.
  - apply within_visit.
Qed.

End Walk.

(** X11: [collectComponentTree] ends: as many turns of its loop as the tree
    has components are enough.  It answers the root first, then the trees
    of the children, last child first; it holds exactly the components of
    the tree, as many entries as the tree has components. *)
Theorem collectComponentTree_visits_tree (root : SourceComponent) :
  (∀ fuel, tree_size root ≤ fuel →
     MetadataService.collect_loop fuel [root] [] = Some (preorder root))
  ∧ MetadataService.collectComponentTree root
    = root :: concat (rev (MetadataService.collectComponentTree
                             <$> getChildren root))
  ∧ length (MetadataService.collectComponentTree root) = tree_size root
  ∧ (∀ c, c ∈ MetadataService.collectComponentTree root ↔ within c root).
Proof.
  split_and!.
  - intros fuel H. rewrite collect_loop_enough by (simpl; lia).
    simpl. by rewrite app_nil_r.
  - rewrite collectComponentTree_preorder, preorder_unfold. do 3 f_equal.
    apply List.map_ext. intros c. by rewrite collectComponentTree_preorder.
  - rewrite collectComponentTree_preorder.
    pose proof (visit_length [root]) as H. simpl in H.
    rewrite app_nil_r in H. lia.
  - intros c. apply collectComponentTree_within.
Qed.

(** ** The local inventory: one entry per key, buckets per type *)

Section LocalInventory.

Abbreviation key := MetadataService.localComponentKey.

Implicit Types (acc : gset string * list SourceComponent)
  (cs : list SourceComponent).

Lemma keep_unseen_fold acc cs :
  seen_all acc →
  seen_all (foldl MetadataService.keep_unseen acc cs)
  ∧ (∀ c, c ∈ (foldl MetadataService.keep_unseen acc cs).2 →
          c ∈ acc.2 ∨ c ∈ cs)
  ∧ (∀ c, c ∈ acc.2 ∨ c ∈ cs →
          key c ∈ key <$> (foldl MetadataService.keep_unseen acc cs).2).
Proof.
  revert acc. induction cs as [|x cs IH]; intros acc Hacc.
  - simpl. split_and!; [done|by left|].
    intros c [Hc|Hc]; [|by apply elem_of_nil in Hc].
    apply list_elem_of_fmap. by exists c.
  - cbn [foldl].
    assert (Hstep : seen_all (MetadataService.keep_unseen acc x)
      ∧ (∀ c, c ∈ (MetadataService.keep_unseen acc x).2 → c ∈ acc.2 ∨ c = x)
      ∧ (∀ c, c ∈ acc.2 ∨ c = x →
              key c ∈ key <$> (MetadataService.keep_unseen acc x).2)).
    { destruct Hacc as [Hseen Hnd]. unfold MetadataService.keep_unseen.
      case_bool_decide as Hx.
      - split_and!; [done|by left|].
        intros c [Hc| ->]; [apply list_elem_of_fmap; by exists c|].
        rewrite Hseen in Hx. by apply elem_of_list_to_set in Hx.
      - cbn [fst snd]. split_and!.
        + split; cbn [fst snd].
          * rewrite fmap_app, list_to_set_app_L, Hseen. simpl. set_solver.
          * rewrite fmap_app. apply NoDup_app. split_and!; [done| |].
            -- intros k Hk [->|H]%elem_of_cons; [|by apply elem_of_nil in H].
               apply Hx. rewrite Hseen. by apply elem_of_list_to_set.
            -- simpl. apply NoDup_singleton.
        + intros c [Hc|Hc]%elem_of_app; [by left|].
          right. by apply list_elem_of_singleton in Hc.
        + intros c Hc. rewrite fmap_app, elem_of_app.
          destruct Hc as [Hc| ->]; [left; apply list_elem_of_fmap; by exists c|].
          right. simpl. by left. }
    destruct Hstep as (Hinv & Hin & Hout).
    destruct (IH _ Hinv) as (Hinv' & Hin' & Hout').
    split_and!; [done|..].
    + intros c Hc. destruct (Hin' c Hc) as [H|H]; [|by right; right].
      destruct (Hin c H) as [H'| ->]; [by left|right; by left].
    + intros c [Hc|[->|Hc]%elem_of_cons].
      * destruct (proj1 (list_elem_of_fmap _ _ _) (Hout c (or_introl Hc)))
          as (c' & -> & Hc').
        apply Hout'. by left.
      * destruct (proj1 (list_elem_of_fmap _ _ _) (Hout x (or_intror eq_refl)))
          as (c' & -> & Hc').
        apply Hout'. by left.
      * apply Hout'. by right.
Qed.

Lemma roots_fold acc (roots : list SourceComponent) :
  foldl (λ acc0 root,
           foldl MetadataService.keep_unseen acc0
                 (MetadataService.collectComponentTree root)) acc roots
  = foldl MetadataService.keep_unseen acc
          (roots ≫= MetadataService.collectComponentTree).
Proof.
  revert acc. induction roots as [|r roots IH]; intros acc; [done|].
  cbn [foldl]. rewrite IH. by rewrite bind_cons, foldl_app.
Qed.

Lemma gather_paths_Returns resolver paths acc acc' :
  MetadataService.gather_paths resolver paths acc = Returns acc' →
  ∃ rootss, Forall2 (λ path roots, resolver path = Returns roots) paths rootss
            ∧ acc' = foldl MetadataService.keep_unseen acc (candidates rootss).
Proof.
  revert acc. induction paths as [|p paths IH]; intros acc.
  - intros [= <-]. exists []. by split.
  - cbn [MetadataService.gather_paths].
    destruct (resolver p) as [roots|e] eqn:Hp; [|done]. simpl.
    intros (rootss & Hall & ->)%IH. exists (roots :: rootss).
    split; [by constructor|].
    unfold candidates. by rewrite bind_cons, foldl_app, roots_fold.
Qed.

End LocalInventory.

(** X12: when no resolver call throws, [listAllLocalSourceComponents]
    answers components with pairwise distinct keys, each a component of
    the tree of some root of some package path, and every such component
    has its key among them: of several components with one key the first
    met is kept. *)
Theorem listAllLocalSourceComponents_unique_keys (project : DeployTransport)
    (resolver : Resolver) (all : list SourceComponent) :
  MetadataService.listAllLocalSourceComponents project resolver = Returns all →
  NoDup (MetadataService.localComponentKey <$> all)
  ∧ (∀ c, c ∈ all →
       ∃ path roots root,
         path ∈ getPackagePaths project ∧ resolver path = Returns roots
         ∧ root ∈ roots ∧ within c root)
  ∧ (∀ path roots root c,
       path ∈ getPackagePaths project → resolver path = Returns roots →
       root ∈ roots → within c root →
       MetadataService.localComponentKey c
       ∈ MetadataService.localComponentKey <$> all).
Proof.
  unfold MetadataService.listAllLocalSourceComponents.
  destruct (MetadataService.gather_paths _ _ _) as [acc'|e] eqn:Hg; [|done].
  simpl. intros [= <-].
  apply gather_paths_Returns in Hg as (rootss & Hall & ->).
  assert (Hinit : seen_all (∅, [])).
  { split; simpl; [set_solver|constructor]. }
  destruct (keep_unseen_fold (∅, []) (candidates rootss) Hinit)
    as ([_ Hnd] & Hin & Hout).
  assert (Hcand : ∀ c, c ∈ candidates rootss ↔
    ∃ path roots root, path ∈ getPackagePaths project
      ∧ resolver path = Returns roots ∧ root ∈ roots ∧ within c root).
  { intros c. unfold candidates. rewrite list_elem_of_bind. split.
    - intros (roots & (root & Hc & Hroot)%list_elem_of_bind & Hroots).
      apply list_elem_of_lookup_1 in Hroots as [i Hi].
      destruct (Forall2_lookup_r _ _ _ _ _ Hall Hi) as (path & Hpath & Hres).
      exists path, roots, root. split_and!; [|done|done|].
      + by apply list_elem_of_lookup_2 in Hpath.
      + by apply collectComponentTree_within.
    - intros (path & roots & root & Hpath & Hres & Hroot & Hw).
      apply list_elem_of_lookup_1 in Hpath as [i Hi].
      destruct (Forall2_lookup_l _ _ _ _ _ Hall Hi) as (roots' & Hroots' & Hres').
      rewrite Hres in Hres'. injection Hres' as <-.
      exists roots. split; [|by apply list_elem_of_lookup_2 in Hroots'].
      apply list_elem_of_bind. exists root. split; [|done].
      by apply collectComponentTree_within. }
  split_and!; [done|..].
  - intros c Hc. destruct (Hin c Hc) as [H|H]; [by apply elem_of_nil in H|].
    by apply Hcand.
  - intros path roots root c Hpath Hres Hroot Hw. apply Hout. right.
    apply Hcand. by exists path, roots, root.
Qed.

Lemma listAllLocalSourceComponents_unique_keys_witness :
  NoDup (MetadataService.localComponentKey <$> demo_sources).
Proof.
  apply (listAllLocalSourceComponents_unique_keys demo_project demo_resolver).
  reflexivity.
Defined.

Section Buckets.

Variable typeNames : list string.

Abbreviation requested := (list_to_set typeNames : gset string).

Lemma empty_buckets_lookup (m : gmap string (list MetadataComponent))
    (tns : list string) t :
  foldl (λ buckets typeName0, <[typeName0 := []]> buckets) m tns !! t
  = if decide (t ∈ tns) then Some [] else m !! t.
Proof.
  revert m. induction tns as [|x tns IH]; intros m; cbn [foldl].
  - case_decide as H; [by apply elem_of_nil in H|done].
  - rewrite IH. destruct (decide (t ∈ tns)) as [Hin|Hin].
    + by rewrite decide_True by (by right).
    + destruct (decide (t = x)) as [->|Hne].
      * rewrite lookup_insert_eq. by rewrite decide_True by (by left).
      * rewrite lookup_insert_ne by done.
        rewrite decide_False; [done|]. by intros [?|?]%elem_of_cons.
Qed.

(** What the loop of [listLocalComponentsByTypes] keeps true of the
    buckets once the components [seen0] have been handled. *)
Lemma bucket_fold (seen0 : list SourceComponent)
    (start : gmap string (list MetadataComponent)) :
  (∀ t, start !! t = if decide (t ∈ typeNames) then Some [] else None) →
  ∀ t,
    match (foldl (MetadataService.bucket_component requested) (0, start) seen0).2
          !! t with
    | Some cs =>
        t ∈ typeNames
        ∧ Forall (λ c, type c = t ∧ status c = LocalOnly) cs
        ∧ names cs
          = source_fullName
              <$> List.filter (λ c, bool_decide (source_type c = t)) seen0
    | None => t ∉ typeNames
    end.
Proof.
  intros Hstart. induction seen0 as [|x seen0 IH] using rev_ind; intros t.
  - cbn [foldl snd]. rewrite Hstart. by case_decide.
  - rewrite foldl_snoc, List.filter_app.
    set (acc := foldl _ _ seen0) in *.
    unfold MetadataService.bucket_component.
    case_bool_decide as Hreq; cbn [negb].
    + cbn [snd]. apply elem_of_list_to_set in Hreq.
      pose proof (IH (source_type x)) as Hx.
      destruct (acc.2 !! source_type x) as [current0|] eqn:Hcur; [|done].
      destruct Hx as (_ & Hall & Hnames).
      destruct (decide (t = source_type x)) as [->|Hne].
      * rewrite lookup_insert_eq. split_and!; [done| |].
        -- apply Forall_app. split; [done|]. by repeat constructor.
        -- unfold names in *. rewrite !fmap_app, Hnames. cbn [List.filter].
           by rewrite bool_decide_eq_true_2.
      * rewrite lookup_insert_ne by done. specialize (IH t).
        destruct (acc.2 !! t) as [cs|]; [|done].
        destruct IH as (? & ? & ->). split_and!; [done..|].
        cbn [List.filter]. rewrite bool_decide_eq_false_2 by done.
        by rewrite app_nil_r.
    + specialize (IH t). destruct (acc.2 !! t) as [cs|]; [|done].
      destruct IH as (Ht & ? & ->). split_and!; [done..|].
      cbn [List.filter]. rewrite bool_decide_eq_false_2.
      * by rewrite app_nil_r.
      * intros Heq. apply Hreq. rewrite Heq. by apply elem_of_list_to_set.
Qed.

End Buckets.

Lemma names_imap_local (l : list SourceComponent) :
  names (imap (λ index component,
                 MetadataService.toLocalMetadataComponent component index) l)
  = source_fullName <$> l.
Proof.
  unfold names. apply list_eq. intros i.
  rewrite !list_lookup_fmap, list_lookup_imap. by destruct (l !! i).
Qed.

(** X13: [listLocalComponentsByTypes] answers one bucket for each requested
    type and no other; a bucket holds only components of its type, tagged
    [LocalOnly], with the full names that [listLocalComponents] gives for
    that type, in the same order.  When the resolver fails every requested
    type still has its bucket, empty. *)
Theorem listLocalComponentsByTypes_buckets (project : DeployTransport)
    (resolver : Resolver) (typeNames : list string) :
  dom (MetadataService.listLocalComponentsByTypes project resolver typeNames)
  = list_to_set typeNames
  ∧ (∀ t cs,
       MetadataService.listLocalComponentsByTypes project resolver typeNames !! t
       = Some cs →
       Forall (λ c, type c = t ∧ status c = LocalOnly) cs
       ∧ names cs
         = names (MetadataService.listLocalComponents project resolver t))
  ∧ ((∃ e, MetadataService.listAllLocalSourceComponents project resolver
           = Throws e) →
     ∀ t, t ∈ typeNames →
       MetadataService.listLocalComponentsByTypes project resolver typeNames !! t
       = Some []).
Proof.
  unfold MetadataService.listLocalComponentsByTypes,
    MetadataService.listLocalComponents.
  set (start := foldl (λ buckets typeName0, <[typeName0 := []]> buckets)
                      (∅ : gmap string (list MetadataComponent)) typeNames).
  assert (Hstart : ∀ t, start !! t
                        = if decide (t ∈ typeNames) then Some [] else None).
  { intros t. unfold start. by rewrite empty_buckets_lookup, lookup_empty. }
  destruct (MetadataService.listAllLocalSourceComponents project resolver)
    as [comps|e].
  - pose proof (bucket_fold typeNames comps start Hstart) as Hfold.
    split_and!.
    + apply set_eq. intros t. rewrite elem_of_dom, elem_of_list_to_set.
      specialize (Hfold t). destruct (_ !! t).
      * split; [by intros _; apply Hfold|by eexists].
      * split; [by intros [? ?]|done].
    + intros t cs Hcs. specialize (Hfold t). rewrite Hcs in Hfold.
      destruct Hfold as (_ & Hall & ->). split; [done|].
      by rewrite names_imap_local.
    + by intros [e' ?].
  - split_and!.
    + apply set_eq. intros t. rewrite elem_of_dom, elem_of_list_to_set, Hstart.
      case_decide; split; try done; by intros [? ?].
    + intros t cs. rewrite Hstart. case_decide; [|done]. by intros [= <-].
    + intros _ t Ht. rewrite Hstart. by rewrite decide_True.
Qed.

(** ** More on the changed files of commits *)

Section ChangedFiles.

Implicit Types (s file dir : string) (c : ascii).

Lemma normalizePath_no_backslash s :
  backslash ∉ list_ascii_of_string (normalizePath s).
Proof.
  induction s as [|c s IH]; simpl; [apply not_elem_of_nil|].
  apply not_elem_of_cons. split; [|done].
  case_bool_decide; [by vm_compute|done].
Qed.

Lemma normalizePath_fixed s :
  backslash ∉ list_ascii_of_string s → normalizePath s = s.
Proof.
  induction s as [|c s IH]; simpl; [done|].
  intros [Hc Hs]%not_elem_of_cons.
  rewrite bool_decide_eq_false_2 by done. by rewrite IH.
Qed.

Lemma normalizePath_length s :
  String.length (normalizePath s) = String.length s.
Proof. induction s as [|c s IH]; simpl; [done|by rewrite IH]. Qed.

Lemma unique_from_spec (seen : gset string) (xs : list string) :
  NoDup (unique_from seen xs)
  ∧ ∀ x, x ∈ unique_from seen xs ↔ x ∈ xs ∧ x ∉ seen.
Proof.
  revert seen. induction xs as [|y xs IH]; intros seen; simpl.
  - split; [constructor|]. intros x. split; [by intros ?%elem_of_nil|].
    by intros [?%elem_of_nil _].
  - case_bool_decide as Hy.
    + destruct (IH seen) as [Hnd Hin]. split; [done|].
      intros x. rewrite Hin, elem_of_cons. split; [naive_solver|].
      intros [[->|?] ?]; [done|by split].
    + destruct (IH (seen ∪ {[y]})) as [Hnd Hin]. split.
      * constructor; [|done]. rewrite Hin. set_solver.
      * intros x. rewrite !elem_of_cons, Hin.
        destruct (decide (x = y)) as [->|Hne]; [naive_solver|set_solver].
Qed.

Lemma collect_commits_files (git : Git) (hs : list string) f :
  f ∈ (collect_commits git hs).2
  ↔ ∃ h, h ∈ hs ∧ f ∈ files (getModifiedFilesFromCommit git h).
Proof.
  induction hs as [|h hs IH].
  - simpl. split; [by intros ?%elem_of_nil|]. by intros (? & ?%elem_of_nil & _).
  - rewrite collect_commits_cons. cbn [snd]. rewrite elem_of_app, IH. split.
    + intros [H|(h' & Hh' & H)]; [exists h; split; [by left|done]|].
      exists h'. split; [by right|done].
    + intros (h' & [->|Hh']%elem_of_cons & H); [by left|].
      right. by exists h'.
Qed.

Lemma collect_commits_warnings_length (git : Git) (hs : list string) :
  length (collect_commits git hs).1 ≤ length hs.
Proof.
  induction hs as [|h hs IH]; [done|].
  rewrite collect_commits_cons. cbn [fst]. rewrite length_app.
  destruct (truthy _); simpl; lia.
Qed.

Lemma filterFilesToPackages_sublist (files0 packageDirs : list string) :
  filterFilesToPackages files0 packageDirs `sublist_of` files0.
Proof.
  unfold filterFilesToPackages. destruct (length packageDirs =? 0); [done|].
  apply List_filter_sublist.
Qed.

End ChangedFiles.

(** X14: without package directories [filterFilesToPackages] keeps every
    file.  With some, it keeps, in their order, exactly the files that are
    a package directory or lie under one, after the directory has had its
    backslashes turned and one trailing slash dropped; filtering twice is
    filtering once. *)
Theorem filterFilesToPackages_spec (files0 packageDirs : list string) :
  filterFilesToPackages files0 [] = files0
  ∧ filterFilesToPackages files0 packageDirs `sublist_of` files0
  ∧ (packageDirs ≠ [] →
     ∀ file, file ∈ filterFilesToPackages files0 packageDirs
             ↔ file ∈ files0
               ∧ ∃ dir, dir ∈ packageDirs
                  ∧ (file = drop_trailing_slash (normalizePath dir)
                     ∨ ∃ rest, file = drop_trailing_slash (normalizePath dir)
                                       +:+ "/" +:+ rest))
  ∧ filterFilesToPackages (filterFilesToPackages files0 packageDirs) packageDirs
    = filterFilesToPackages files0 packageDirs.
Proof.
  split_and!.
  - done.
  - apply filterFilesToPackages_sublist.
  - intros Hne file. unfold filterFilesToPackages.
    destruct packageDirs as [|d ds]; [done|].
    replace (length (d :: ds) =? 0) with false by done.
    rewrite elem_of_List_filter, existsb_exists.
    apply and_iff_compat_l. split.
    + intros (nd & Hnd & Hmatch).
      apply list_elem_of_In, list_elem_of_fmap in Hnd as (dir & -> & Hdir).
      exists dir. split; [done|].
      apply orb_true_iff in Hmatch as [Heq|Hpre].
      * left. by apply bool_decide_eq_true in Heq.
      * right. apply startsWith_inv in Hpre as [rest ->].
        exists rest. by rewrite string_app_assoc.
    + intros (dir & Hdir & Hmatch).
      exists (drop_trailing_slash (normalizePath dir)). split.
      * apply list_elem_of_In, list_elem_of_fmap. by exists dir.
      * apply orb_true_iff. destruct Hmatch as [->|[rest ->]].
        -- left. by apply bool_decide_eq_true.
        -- right. rewrite <- string_app_assoc. apply startsWith_app.
  - unfold filterFilesToPackages. destruct (length packageDirs =? 0); [done|].
    apply List.forallb_filter_id, forallb_forall.
    intros file Hfile. by apply List.filter_In in Hfile as [_ ?].
Qed.

(** X15: the files that [getModifiedFilesFromCommits] answers are pairwise
    distinct, non-empty and free of backslashes; each is the normalized
    form of a file of some commit of the batch; and when package
    directories are configured each is one of them or lies under one. *)
Theorem getModifiedFilesFromCommits_files (git : Git)
    (packageDirs commitHashes : list string) :
  NoDup (result_files (getModifiedFilesFromCommits git packageDirs commitHashes))
  ∧ (∀ file,
       file ∈ result_files
                (getModifiedFilesFromCommits git packageDirs commitHashes) →
       file ≠ ""
       ∧ (backslash ∉ list_ascii_of_string file)
       ∧ (∃ h g, h ∈ commitHashes
                 ∧ g ∈ files (getModifiedFilesFromCommit git h)
                 ∧ file = normalizePath g)
       ∧ (packageDirs ≠ [] →
          ∃ dir, dir ∈ packageDirs
             ∧ startsWith (drop_trailing_slash (normalizePath dir)) file = true)).
Proof.
  rewrite result_files_of_collected.
  set (all := (collect_commits git commitHashes).2).
  destruct (unique_from_spec ∅ (normalizePath <$> all)) as [Hnd Hin].
  pose proof (filterFilesToPackages_sublist
                (List.filter (λ file, 0 <? String.length file)
                   (unique_from ∅ (normalizePath <$> all))) packageDirs) as Hsub.
  split.
  - eapply sublist_NoDup; [|exact Hsub]. by apply NoDup_List_filter.
  - intros file Hfile.
    assert (Huniq : file ∈ List.filter (λ file, 0 <? String.length file)
                             (unique_from ∅ (normalizePath <$> all))).
    { eapply elem_of_sublist; [done|exact Hsub]. }
    apply elem_of_List_filter in Huniq as [Huniq Hlen].
    apply Hin in Huniq as [(g & -> & Hg)%list_elem_of_fmap _].
    split_and!.
    + intros Heq. rewrite Heq in Hlen. done.
    + apply normalizePath_no_backslash.
    + apply collect_commits_files in Hg as (h & Hh & Hg). by exists h, g.
    + intros Hne. unfold filterFilesToPackages in Hfile.
      destruct packageDirs as [|d ds]; [done|].
      replace (length (d :: ds) =? 0) with false in Hfile by done.
      apply elem_of_List_filter in Hfile as [_ Hmatch].
      apply existsb_exists in Hmatch as (nd & Hdirs & Hmatch).
      apply list_elem_of_In, list_elem_of_fmap in Hdirs as (dir & -> & Hdir).
      exists dir. split; [done|].
      apply orb_true_iff in Hmatch as [Heq|Hpre].
      * apply bool_decide_eq_true in Heq. rewrite Heq.
        rewrite <- (string_app_empty_r (drop_trailing_slash _)) at 2.
        apply startsWith_app.
      * apply startsWith_inv in Hpre as [rest ->].
        rewrite string_app_assoc. apply startsWith_app.
Qed.

(** X16: a commit that yields a warning contributes no file, and the
    warning is not empty.  For a well-formed identifier whose direct diff
    lists files, those are its files, without warning, whatever the
    merge-base commands would do; when the direct diff itself fails the
    commit yields the warning [Error processing commit ...] with the
    message of the fault.  A batch gives at most one warning per commit and
    one more for the package directories. *)
Theorem commit_outcomes (git : Git) (commitHash : string) :
  (∀ w, warning (getModifiedFilesFromCommit git commitHash) = Some w →
        files (getModifiedFilesFromCommit git commitHash) = [] ∧ w ≠ "")
  ∧ (COMMIT_HASH_REGEX commitHash = true →
     ∀ out, git ["diff-tree"; "-r"; "--no-commit-id"; "--name-only";
                 "--diff-filter=ACMRT"; commitHash] = Returns out →
            output_lines out ≠ [] →
            getModifiedFilesFromCommit git commitHash
            = {| files := output_lines out; warning := None |})
  ∧ (COMMIT_HASH_REGEX commitHash = true →
     ∀ e, git ["diff-tree"; "-r"; "--no-commit-id"; "--name-only";
               "--diff-filter=ACMRT"; commitHash] = Throws e →
          getModifiedFilesFromCommit git commitHash
          = {| files := [];
               warning := Some ("Error processing commit " +:+ commitHash
                                +:+ ": "
                                +:+ default "Unknown error" (error_message e)) |})
  ∧ (∀ packageDirs commitHashes,
       length (warnings (getModifiedFilesFromCommits git packageDirs commitHashes))
       ≤ length commitHashes + 1).
Proof.
  split_and!.
  - intros w. unfold getModifiedFilesFromCommit.
    destruct (negb (COMMIT_HASH_REGEX commitHash)).
    { intros [= <-]. by split. }
    destruct (git _) as [out|e].
    + destruct (0 <? length (output_lines out)); [done|].
      destruct (merge_base_diff git commitHash); [done|].
      intros [= <-]. by split.
    + intros [= <-]. by split.
  - intros Hvalid out Hout Hne. unfold getModifiedFilesFromCommit.
    rewrite Hvalid, Hout. simpl.
    destruct (output_lines out); [done|]. done.
  - intros Hvalid e He. unfold getModifiedFilesFromCommit.
    by rewrite Hvalid, He.
  - intros packageDirs commitHashes. unfold getModifiedFilesFromCommits.
    pose proof (collect_commits_warnings_length git commitHashes) as Hlen.
    destruct (collect_commits git commitHashes) as [ws fs]. cbn [fst] in Hlen.
    destruct (_ && _); cbn [warnings]; rewrite ?length_app; simpl; lia.
Qed.

Section Trim.

Implicit Types (s : string) (c : ascii).

Lemma string_length_ind (P : string → Prop) :
  (∀ s, (∀ t, String.length t < String.length s → P t) → P s) → ∀ s, P s.
Proof.
  intros step s. remember (String.length s) as n eqn:Hn.
  revert s Hn. induction (lt_wf n) as [n _ IH]. intros s ->.
  apply step. intros t Ht. by apply (IH (String.length t)).
Qed.

Lemma trimStart_cons c1 rest1 :
  trimStart (String c1 rest1)
  = if is_space c1 then trimStart rest1
    else match rest1 with
         | EmptyString => String c1 rest1
         | String c2 rest2 =>
             if is_space2 c1 c2 then trimStart rest2
             else match rest2 with
                  | EmptyString => String c1 rest1
                  | String c3 rest3 =>
                      if is_space3 c1 c2 c3 then trimStart rest3
                      else String c1 rest1
                  end
         end.
Proof. done. Qed.

Lemma trimStart_no_leading s : no_leading_space (trimStart s).
Proof.
  induction s as [s IH] using string_length_ind.
  destruct s as [|c1 rest1]; [done|]. rewrite trimStart_cons.
  destruct (is_space c1) eqn:E1; [apply IH; simpl; lia|].
  unfold no_leading_space.
  destruct rest1 as [|c2 rest2].
  { cbn [starts_with_space]. by rewrite E1. }
  destruct (is_space2 c1 c2) eqn:E2; [apply IH; simpl; lia|].
  destruct rest2 as [|c3 rest3].
  { cbn [starts_with_space]. by rewrite E1, E2. }
  destruct (is_space3 c1 c2 c3) eqn:E3; [apply IH; simpl; lia|].
  cbn [starts_with_space]. by rewrite E1, E2, E3.
Qed.

Lemma trimStart_fixed s : no_leading_space s → trimStart s = s.
Proof.
  unfold no_leading_space. destruct s as [|c1 rest1]; [done|].
  rewrite trimStart_cons. cbn [starts_with_space].
  intros [-> H]%orb_false_elim.
  destruct rest1 as [|c2 rest2]; [done|].
  apply orb_false_elim in H as [-> H].
  destruct rest2 as [|c3 rest3]; [done|]. by rewrite H.
Qed.

Lemma trimEnd_prefix s : ∃ t, s = trimEnd s +:+ t.
Proof.
  induction s as [|c s [t Ht]]; [by exists ""|]. cbn [trimEnd].
  destruct (white_space _).
  - by exists (String c s).
  - exists t. change (String c s = String c (trimEnd s +:+ t)). by f_equal.
Qed.

Lemma starts_with_space_app p t :
  starts_with_space p = true → starts_with_space (p +:+ t) = true.
Proof.
  destruct p as [|c1 [|c2 [|c3 r]]]; [done|..].
  - change (String c1 "" +:+ t) with (String c1 t).
    cbn [starts_with_space]. rewrite orb_false_r. by intros ->.
  - change (String c1 (String c2 "") +:+ t) with (String c1 (String c2 t)).
    cbn [starts_with_space]. rewrite orb_false_r.
    intros [->| ->]%orb_true_iff; [done|]. apply orb_true_r.
  - change (String c1 (String c2 (String c3 r)) +:+ t)
      with (String c1 (String c2 (String c3 (r +:+ t)))).
    by cbn [starts_with_space].
Qed.

Lemma trimEnd_no_leading s : no_leading_space s → no_leading_space (trimEnd s).
Proof.
  unfold no_leading_space. intros Hs.
  destruct (starts_with_space (trimEnd s)) eqn:E; [|done].
  destruct (trimEnd_prefix s) as [t Ht].
  apply (starts_with_space_app _ t) in E. rewrite <- Ht in E. congruence.
Qed.

Lemma trimEnd_idem s : trimEnd (trimEnd s) = trimEnd s.
Proof.
  induction s as [|c s IH]; [done|]. cbn [trimEnd].
  destruct (white_space (String c (trimEnd s))) eqn:E; [done|].
  cbn [trimEnd]. by rewrite IH, E.
Qed.

Lemma trim_idem s : trim (trim s) = trim s.
Proof.
  unfold trim.
  rewrite (trimStart_fixed (trimEnd (trimStart s)))
    by apply trimEnd_no_leading, trimStart_no_leading.
  apply trimEnd_idem.
Qed.

Lemma trimStart_chars s c :
  c ∈ list_ascii_of_string (trimStart s) → c ∈ list_ascii_of_string s.
Proof.
  induction s as [s IH] using string_length_ind.
  destruct s as [|c1 rest1]; [done|]. rewrite trimStart_cons.
  destruct (is_space c1).
  { intros H. apply IH in H; [by right|simpl; lia]. }
  destruct rest1 as [|c2 rest2]; [done|].
  destruct (is_space2 c1 c2).
  { intros H. apply IH in H; [by do 2 right|simpl; lia]. }
  destruct rest2 as [|c3 rest3]; [done|].
  destruct (is_space3 c1 c2 c3); [|done].
  intros H. apply IH in H; [by do 3 right|simpl; lia].
Qed.

Lemma trimEnd_chars s c :
  c ∈ list_ascii_of_string (trimEnd s) → c ∈ list_ascii_of_string s.
Proof.
  induction s as [|d s IH]; [done|]. cbn [trimEnd].
  destruct (white_space _); [by intros ?%elem_of_nil|].
  cbn [list_ascii_of_string].
  intros [->|H]%elem_of_cons; [by left|]. right. by apply IH.
Qed.

(** [trim] strips the white space beyond ASCII as well: a no-break space, a
    byte order mark and a line separator go with the space. *)
Lemma trim_strips_unicode_space : trim demo_padded_name = "A.cls".
Proof. reflexivity. Qed.

Lemma output_lines_strips_unicode_space :
  output_lines demo_padded_output = ["classes/A.cls"].
Proof. reflexivity. Qed.

Lemma split_lines_no_newline s l :
  l ∈ split_lines s → newline ∉ list_ascii_of_string l.
Proof.
  revert l. induction s as [|c s IH]; intros l; simpl.
  - intros ->%list_elem_of_singleton. apply not_elem_of_nil.
  - case_bool_decide as Hc.
    + intros [->|H]%elem_of_cons; [apply not_elem_of_nil|by apply IH].
    + destruct (split_lines s) as [|w ws].
      * intros ->%list_elem_of_singleton. simpl.
        apply not_elem_of_cons. split; [done|apply not_elem_of_nil].
      * intros [->|H]%elem_of_cons.
        -- simpl. apply not_elem_of_cons. split; [done|]. apply IH. by left.
        -- apply IH. by right.
Qed.

Lemma output_lines_spec out l :
  l ∈ output_lines out →
  l ≠ "" ∧ trim l = l ∧ newline ∉ list_ascii_of_string l.
Proof.
  unfold output_lines. intros [Hl Hlen]%elem_of_List_filter.
  apply list_elem_of_fmap in Hl as (raw & -> & Hraw). split_and!.
  - intros Heq. by rewrite Heq in Hlen.
  - apply trim_idem.
  - intros Hin. apply (split_lines_no_newline _ _ Hraw).
    by apply trimStart_chars, trimEnd_chars.
Qed.

Lemma merge_base_diff_lines (git : Git) h ls :
  merge_base_diff git h = Returns ls → ∃ out, ls = output_lines out.
Proof.
  unfold merge_base_diff. intros H.
  apply bindO_Returns in H as (p & _ & H).
  apply bindO_Returns in H as (b & _ & H).
  apply bindO_Returns in H as (d & _ & H).
  injection H as <-. by exists d.
Qed.

End Trim.

(** X17: every file that a commit contributes is a non-empty line of a git
    answer with the white space at both ends removed: trimming it again
    changes nothing and it holds no line feed. *)
Theorem commit_files_are_trimmed_lines (git : Git) (commitHash file : string) :
  file ∈ files (getModifiedFilesFromCommit git commitHash) →
  file ≠ "" ∧ trim file = file ∧ newline ∉ list_ascii_of_string file.
Proof.
  unfold getModifiedFilesFromCommit.
  destruct (negb (COMMIT_HASH_REGEX commitHash)).
  { by intros ?%elem_of_nil. }
  destruct (git _) as [out|e]; [|by intros ?%elem_of_nil].
  destruct (0 <? length (output_lines out)).
  { apply output_lines_spec. }
  destruct (merge_base_diff git commitHash) as [ls|e] eqn:E;
    [|by intros ?%elem_of_nil].
  apply merge_base_diff_lines in E as [d ->]. apply output_lines_spec.
Qed.

Lemma commit_files_are_trimmed_lines_witness :
  trim "force-app/main/default/classes/A.cls"
  = "force-app/main/default/classes/A.cls".
Proof.
  apply (commit_files_are_trimmed_lines demo_git "abc1234").
  vm_compute. by left.
Defined.

(** ** The persisted state *)

Import SyncStateService.

Ltac open_world w :=
  destruct w as [wfile wfault wcache wsubs]; simpl in *; subst;
  unfold setCachedMetadata, clearCache, updateLastSync, setSubscriptions,
    getCachedMetadata, getSubscriptions, hook_state, save, load, snapshot,
    cache_of, subscriptions_of;
  simpl.

Ltac close_world :=
  first
    [ done
    | by rewrite lookup_insert_eq
    | by intros; rewrite lookup_insert_ne
    | by intros [?|] ].

(** X18: when the state can be written, [setCachedMetadata] followed by
    [getCachedMetadata] of the same type answers the entry just stored; the
    entries of all other types, the sync record and the subscriptions are
    as before. *)
Theorem setCachedMetadata_round_trip (w : World) (type0 : string)
    (data : CachedMetadata) :
  write_fault w = None →
  plain_key type0 = true →
  (setCachedMetadata w type0 data).2 = Returns ()
  ∧ getCachedMetadata (setCachedMetadata w type0 data).1 type0 = Some data
  ∧ (∀ t, t ≠ type0 →
       getCachedMetadata (setCachedMetadata w type0 data).1 t
       = getCachedMetadata w t)
  ∧ lastSyncOrg (hook_state (setCachedMetadata w type0 data).1)
    = lastSyncOrg (hook_state w)
  ∧ (∀ org, getSubscriptions (setCachedMetadata w type0 data).1 org
            = getSubscriptions w org).
Proof.
  intros Hw _. open_world w.
  destruct wfile as [| |[ls ch [subs|]]]; simpl; split_and!; close_world.
Qed.

Lemma setCachedMetadata_round_trip_witness :
  getCachedMetadata
    (setCachedMetadata fresh_world "ApexClass" (mkCached 0 scenario_local)).1
    "ApexClass"
  = Some (mkCached 0 scenario_local).
Proof.
  apply (setCachedMetadata_round_trip fresh_world "ApexClass"); reflexivity.
Defined.

(** X19: when the state can be written, [clearCache] leaves no cache entry
    and keeps the sync record and the subscriptions; so the cache status
    that [App] derives is the same before and after: a cleared cache is not
    reported as empty. *)
Theorem clearCache_keeps_sync_record (w : World) :
  write_fault w = None →
  (clearCache w).2 = Returns ()
  ∧ (∀ t, plain_key t = true → getCachedMetadata (clearCache w).1 t = None)
  ∧ (∀ org, getSubscriptions (clearCache w).1 org = getSubscriptions w org)
  ∧ (∀ currentOrg,
       cacheStatus currentOrg (lastSyncOrg (hook_state (clearCache w).1))
       = cacheStatus currentOrg (lastSyncOrg (hook_state w))).
Proof.
  intros Hw. open_world w.
  destruct wfile as [| |[ls ch [subs|]]]; simpl; split_and!; close_world.
Qed.

Lemma clearCache_keeps_sync_record_witness :
  (clearCache fresh_world).2 = Returns ().
Proof. apply (clearCache_keeps_sync_record fresh_world). reflexivity. Defined.

(** X20: when the state can be written, after [updateLastSync] for an org
    with a non-empty username the cache is [Fresh] while that org is
    connected and [Stale] while any other org is; the cache entries and
    the subscriptions are as before. *)
Theorem updateLastSync_then_status (w : World) (orgUsername0 now : string)
    (types : list string) :
  write_fault w = None →
  orgUsername0 ≠ "" →
  (updateLastSync w orgUsername0 types now).2 = Returns ()
  ∧ lastSyncOrg (hook_state (updateLastSync w orgUsername0 types now).1)
    = Some orgUsername0
  ∧ (∀ org,
       cacheStatus (Some org)
         (lastSyncOrg (hook_state (updateLastSync w orgUsername0 types now).1))
       = if decide (username org = orgUsername0) then Fresh else Stale)
  ∧ (∀ t, getCachedMetadata (updateLastSync w orgUsername0 types now).1 t
          = getCachedMetadata w t)
  ∧ (∀ org, getSubscriptions (updateLastSync w orgUsername0 types now).1 org
            = getSubscriptions w org).
Proof.
  intros Hw Hne. open_world w.
  assert (Hstatus : ∀ org,
    cacheStatus (Some org) (Some orgUsername0)
    = if decide (username org = orgUsername0) then Fresh else Stale).
  { intros org. unfold cacheStatus, isCacheStale, truthy.
    rewrite (bool_decide_eq_false_2 (orgUsername0 = "")) by done. simpl.
    case_decide as Heq.
    - rewrite bool_decide_eq_true_2 by congruence. done.
    - rewrite bool_decide_eq_false_2 by congruence. done. }
  destruct wfile as [| |[ls ch [subs|]]]; simpl; split_and!; close_world.
Qed.

Lemma updateLastSync_then_status_witness :
  lastSyncOrg
    (hook_state (updateLastSync fresh_world "dev@example.com" ["ApexClass"]
                   "2026-01-01T00:00:00.000Z").1)
  = Some "dev@example.com".
Proof.
  apply (updateLastSync_then_status fresh_world "dev@example.com");
    [reflexivity|discriminate].
Defined.

(** X21: when the state can be written, [setSubscriptions] followed by
    [getSubscriptions] for the same org answers the types just stored; the
    subscriptions of every other org, the cache entries and the sync
    record are as before. *)
Theorem setSubscriptions_round_trip (w : World) (orgUsername0 : string)
    (types : list string) :
  write_fault w = None →
  plain_key orgUsername0 = true →
  (setSubscriptions w orgUsername0 types).2 = Returns ()
  ∧ getSubscriptions (setSubscriptions w orgUsername0 types).1 orgUsername0
    = Some types
  ∧ (∀ org, org ≠ orgUsername0 →
       getSubscriptions (setSubscriptions w orgUsername0 types).1 org
       = getSubscriptions w org)
  ∧ (∀ t, getCachedMetadata (setSubscriptions w orgUsername0 types).1 t
          = getCachedMetadata w t)
  ∧ lastSyncOrg (hook_state (setSubscriptions w orgUsername0 types).1)
    = lastSyncOrg (hook_state w).
Proof.
  intros Hw _. open_world w.
  destruct wfile as [| |[ls ch [subs|]]]; simpl; split_and!; close_world.
Qed.

Lemma setSubscriptions_round_trip_witness :
  getSubscriptions
    (setSubscriptions fresh_world "dev@example.com" ["ApexClass"]).1
    "dev@example.com"
  = Some ["ApexClass"].
Proof.
  apply (setSubscriptions_round_trip fresh_world "dev@example.com");
    reflexivity.
Defined.

(** X22: a failed write on a project without readable state file.
    [setCachedMetadata] throws the fault of the write, but the entry was
    assigned into the shared default state before the write was tried: the
    next read answers it although the call failed, whatever the failed
    write left of the file (nothing, an empty or partial text, or the new
    text), and the entries of the other types read as before. *)
Theorem setCachedMetadata_failed_write (w : World) (type0 : string)
    (data : CachedMetadata) (fault : WriteFault) :
  write_fault w = Some fault →
  plain_key type0 = true →
  (∀ content, file w ≠ Stored content) →
  (setCachedMetadata w type0 data).2 = Throws (fault_error fault)
  ∧ getCachedMetadata (setCachedMetadata w type0 data).1 type0 = Some data
  ∧ default_cache (setCachedMetadata w type0 data).1 !! type0 = Some data
  ∧ (∀ t, t ≠ type0 →
       getCachedMetadata (setCachedMetadata w type0 data).1 t
       = getCachedMetadata w t).
Proof.
  intros Hw _ Hfile. open_world w.
  destruct wfile as [| |content]; [..|by destruct (Hfile content)];
    destruct fault as [e []]; simpl; split_and!; close_world.
Qed.

Lemma setCachedMetadata_failed_write_witness :
  getCachedMetadata
    (setCachedMetadata
       (mkWorld NoFile (Some (mkWriteFault (ErrorObject "ENOSPC") FileTruncated))
                ∅ ∅)
       "ApexClass" (mkCached 0 scenario_local)).1
    "ApexClass"
  = Some (mkCached 0 scenario_local).
Proof.
  apply (setCachedMetadata_failed_write
           (mkWorld NoFile
                    (Some (mkWriteFault (ErrorObject "ENOSPC") FileTruncated))
                    ∅ ∅)
           "ApexClass" (mkCached 0 scenario_local)
           (mkWriteFault (ErrorObject "ENOSPC") FileTruncated));
    [reflexivity|reflexivity|done].
Defined.

(** X23: a state file that is missing or cannot be read is no fault: as
    long as nothing was put into the shared default state, every cache
    entry and every subscription reads as absent, there is no sync record,
    and the cache status is [Empty] whoever is connected. *)
Theorem missing_state_reads_empty (w : World) :
  (∀ content, file w ≠ Stored content) →
  default_cache w = ∅ →
  default_subscriptions w = ∅ →
  (∀ t, plain_key t = true → getCachedMetadata w t = None)
  ∧ (∀ org, plain_key org = true → getSubscriptions w org = None)
  ∧ lastSyncOrg (hook_state w) = None
  ∧ (∀ currentOrg, cacheStatus currentOrg (lastSyncOrg (hook_state w)) = Empty).
Proof.
  intros Hfile Hc Hs. open_world w.
  destruct wfile as [| |content]; simpl; [..|by destruct (Hfile content)];
    split_and!; close_world.
Qed.

Lemma missing_state_reads_empty_witness :
  lastSyncOrg (hook_state fresh_world) = None.
Proof. apply (missing_state_reads_empty fresh_world); done. Defined.

(** ** The commit preload *)

Section Preload.

Variables (resolver : Resolver) (pathJoin : string → string).
Variable cmap : gmap string MetadataComponent.

Abbreviation resolved_of file := (resolve_file resolver pathJoin file).

Lemma hit_ids_spec (resolved : list SourceComponent) i :
  i ∈ hit_ids cmap resolved
  ↔ ∃ r cached, r ∈ resolved ∧ cmap !! resolved_key r = Some cached
                ∧ id cached = i.
Proof.
  unfold hit_ids. rewrite list_elem_of_omap. split.
  - intros (r & Hr & Hi). destruct (cmap !! resolved_key r) as [cached|] eqn:E;
      [|done]. injection Hi as <-. by exists r, cached.
  - intros (r & cached & Hr & Hc & <-). exists r. by rewrite Hc.
Qed.

Lemma hit_ids_nil (resolved : list SourceComponent) :
  hit_ids cmap resolved = []
  ↔ ∀ r, r ∈ resolved → cmap !! resolved_key r = None.
Proof.
  split.
  - intros H r Hr. destruct (cmap !! resolved_key r) as [cached|] eqn:E; [|done].
    assert (Hin : id cached ∈ hit_ids cmap resolved).
    { apply hit_ids_spec. by exists r, cached. }
    rewrite H in Hin. by apply elem_of_nil in Hin.
  - intros H. destruct (hit_ids cmap resolved) as [|i l] eqn:E; [done|].
    assert (Hin : i ∈ hit_ids cmap resolved) by (rewrite E; by left).
    apply hit_ids_spec in Hin as (r & cached & Hr & Hc & _).
    rewrite (H r Hr) in Hc. done.
Qed.

Lemma hit_ids_cons r (rs : list SourceComponent) :
  hit_ids cmap (r :: rs)
  = match cmap !! resolved_key r with
    | Some cached => id cached :: hit_ids cmap rs
    | None => hit_ids cmap rs
    end.
Proof. unfold hit_ids. simpl. by destruct (cmap !! resolved_key r). Qed.

Lemma List_filter_nil {A : Type} (P : A → bool) (l : list A) :
  (∀ x, x ∈ l → P x = false) → List.filter P l = [].
Proof.
  induction l as [|x l IH]; [done|]. intros H. cbn [List.filter].
  rewrite (H x) by (by left). apply IH. intros y Hy. apply H. by right.
Qed.

Lemma match_resolved_fold (ids : gset string) (b : bool)
    (resolved : list SourceComponent) :
  foldl (match_resolved cmap) (ids, b) resolved
  = (ids ∪ list_to_set (hit_ids cmap resolved),
     b || bool_decide (hit_ids cmap resolved ≠ [])).
Proof.
  revert ids b. induction resolved as [|r rs IH]; intros ids b.
  - simpl. rewrite orb_false_r. f_equal. set_solver.
  - cbn [foldl]. unfold match_resolved at 2. cbn [fst snd].
    rewrite hit_ids_cons.
    destruct (cmap !! resolved_key r) as [cached|].
    + rewrite IH. rewrite (bool_decide_eq_true_2 (id cached :: _ ≠ [])) by done.
      rewrite orb_true_r. f_equal. set_solver.
    + by rewrite IH.
Qed.

Lemma match_file_fold (ids : gset string) (un files0 : list string) :
  foldl (match_file resolver pathJoin cmap) (ids, un) files0
  = (ids ∪ list_to_set (files0 ≫= λ file, hit_ids cmap (resolved_of file)),
     un ++ List.filter
             (λ file, bool_decide (hit_ids cmap (resolved_of file) = []))
             files0).
Proof.
  revert ids un. induction files0 as [|file fs IH]; intros ids un.
  - simpl. rewrite app_nil_r. f_equal. set_solver.
  - cbn [foldl]. unfold match_file at 2. cbn [fst snd].
    rewrite bind_cons. cbn [List.filter].
    destruct (resolved_of file) as [|r rs] eqn:Hres.
    + simpl. rewrite IH. rewrite <- app_assoc. f_equal.
    + replace (length (r :: rs) =? 0) with false by done.
      rewrite match_resolved_fold. cbn [orb].
      case_bool_decide as Hhit.
      * rewrite IH. rewrite bool_decide_eq_false_2 by done.
        f_equal. rewrite list_to_set_app_L. set_solver.
      * rewrite Hhit.
        rewrite IH, bool_decide_eq_true_2 by done.
        rewrite <- app_assoc. f_equal. simpl. set_solver.
Qed.

End Preload.

Lemma preload_done_inv found resolver pathJoin localeSort subscribedTypes
    allCachedComponents usingLocalBaseline matched unmatched result :
  preload found resolver pathJoin localeSort subscribedTypes
          allCachedComponents usingLocalBaseline
  = PreloadDone matched unmatched result →
  result_files found ≠ []
  ∧ (∀ t, t ∈ resolvedTypes resolver pathJoin (result_files found) →
          t ∈ subscribedTypes)
  ∧ unmatched
    = List.filter
        (λ file, bool_decide
                   (hit_ids (componentMap allCachedComponents)
                            (resolve_file resolver pathJoin file) = []))
        (result_files found)
  ∧ matched
    = List.filter
        (λ c, bool_decide
                (id c ∈ (list_to_set
                           (result_files found ≫= λ file,
                              hit_ids (componentMap allCachedComponents)
                                (resolve_file resolver pathJoin file))
                         : gset string)))
        allCachedComponents
  ∧ result_success result = (0 <? length matched)
  ∧ result_title result
    = (if 0 <? length matched then "Preload complete" else "Preload incomplete").
Proof.
  unfold preload.
  destruct (result_files found) as [|f fs] eqn:Hfiles; [done|].
  replace (length (f :: fs) =? 0) with false by done.
  destruct (List.filter _ (resolvedTypes _ _ _)) as [|m ms] eqn:Hmissing; [|done].
  replace (0 <? length (@nil string)) with false by done.
  rewrite match_file_fold. rewrite app_nil_l, union_empty_l_L.
  intros [= <- <- <-]. split_and!; try done.
  intros t Ht. destruct (decide (t ∈ subscribedTypes)) as [|Hno]; [done|].
  assert (Hin : t ∈ List.filter
                      (λ typeName0, negb (bool_decide (typeName0 ∈ subscribedTypes)))
                      (resolvedTypes resolver pathJoin (f :: fs))).
  { apply elem_of_List_filter. split; [done|].
    by rewrite bool_decide_eq_false_2. }
  rewrite Hmissing in Hin. by apply elem_of_nil in Hin.
Qed.

Lemma resolvedTypes_spec resolver pathJoin files0 t :
  t ∈ resolvedTypes resolver pathJoin files0
  ↔ ∃ file r, file ∈ files0 ∧ r ∈ resolve_file resolver pathJoin file
              ∧ source_type r = t.
Proof.
  unfold resolvedTypes.
  rewrite (proj2 (unique_from_spec ∅ _)), list_elem_of_bind. split.
  - intros [(file & (r & -> & Hr)%list_elem_of_fmap & Hfile) _].
    by exists file, r.
  - intros (file & r & Hfile & Hr & <-). split; [|set_solver].
    exists file. split; [|done]. apply list_elem_of_fmap. by exists r.
Qed.

Lemma selectedComponents_reselect (allComponents : list MetadataComponent)
    (ids prev : gset string) :
  selectedComponents allComponents
    (selectAll (List.filter (λ c, bool_decide (id c ∈ ids)) allComponents) prev)
  = List.filter (λ c, bool_decide (id c ∈ ids)) allComponents.
Proof.
  unfold selectedComponents, selectAll.
  apply List.filter_ext_in. intros c Hc%list_elem_of_In. apply bool_decide_ext.
  rewrite elem_of_list_to_set, list_elem_of_fmap. split.
  - intros (c' & -> & [_ H]%elem_of_List_filter). by apply bool_decide_eq_true in H.
  - intros H. exists c. split; [done|]. apply elem_of_List_filter.
    split; [done|]. by apply bool_decide_eq_true.
Qed.

(** X24: when the preload gets to match, the unmatched files are, in
    order, the files none of whose components is in the cache under its
    [type:fullName] key (so also the files that resolve to nothing); the
    matched components are the cached components whose id belongs to a
    cached component hit by some file; the result reports success iff
    there is a match; and the selection it sets shows exactly the matched
    components. *)
Theorem preload_done_spec (found : GitFileResult) (resolver : Resolver)
    (pathJoin : string → string) (localeSort : list string → list string)
    (subscribedTypes : list string)
    (allCachedComponents : list MetadataComponent) (usingLocalBaseline : bool)
    (matched : list MetadataComponent) (unmatched : list string)
    (result : ResultState) :
  preload found resolver pathJoin localeSort subscribedTypes
          allCachedComponents usingLocalBaseline
  = PreloadDone matched unmatched result →
  unmatched `sublist_of` result_files found
  ∧ (∀ file, file ∈ unmatched
             ↔ file ∈ result_files found
               ∧ ∀ r, r ∈ resolve_file resolver pathJoin file →
                      componentMap allCachedComponents !! resolved_key r = None)
  ∧ (∀ c, c ∈ matched
          ↔ c ∈ allCachedComponents
            ∧ ∃ file r cached,
                file ∈ result_files found
                ∧ r ∈ resolve_file resolver pathJoin file
                ∧ componentMap allCachedComponents !! resolved_key r = Some cached
                ∧ id cached = id c)
  ∧ (result_success result = true ↔ matched ≠ [])
  ∧ result_title result
    = (if result_success result then "Preload complete" else "Preload incomplete")
  ∧ (∀ prev, selectedComponents allCachedComponents (selectAll matched prev)
             = matched).
Proof.
  intros (Hfiles & Hsub & -> & -> & Hsucc & Htitle)%preload_done_inv.
  split_and!.
  - apply List_filter_sublist.
  - intros file. rewrite elem_of_List_filter, bool_decide_eq_true, hit_ids_nil.
    done.
  - intros c. rewrite elem_of_List_filter, bool_decide_eq_true,
      elem_of_list_to_set, list_elem_of_bind.
    apply and_iff_compat_l. split.
    + intros (file & (r & cached & ? & ? & ?)%hit_ids_spec & Hfile).
      by exists file, r, cached.
    + intros (file & r & cached & Hfile & Hr & Hc & Hid).
      exists file. split; [|done]. apply hit_ids_spec. by exists r, cached.
  - rewrite Hsucc. destruct (List.filter _ allCachedComponents); simpl; done.
  - by rewrite Htitle, Hsucc.
  - intros prev. apply selectedComponents_reselect.
Qed.

Lemma preload_done_spec_witness :
  ["README.md"] `sublist_of` result_files demo_found.
Proof.
  refine (proj1 (preload_done_spec demo_found demo_file_resolver (λ f, f)
                   (λ l, l) ["ApexClass"] demo_cached false
                   _ ["README.md"] _ _)).
  reflexivity.
Defined.

(** X25: when the files of the commits resolve only to subscribed types
    and none of the resolved components is in the cache, the preload
    matches nothing: every file is reported unmatched and the result is
    the failure [Preload incomplete], not a fault. *)
Theorem preload_no_match (found : GitFileResult) (resolver : Resolver)
    (pathJoin : string → string) (localeSort : list string → list string)
    (subscribedTypes : list string)
    (allCachedComponents : list MetadataComponent) (usingLocalBaseline : bool) :
  result_files found ≠ [] →
  (∀ file r, file ∈ result_files found →
             r ∈ resolve_file resolver pathJoin file →
             source_type r ∈ subscribedTypes
             ∧ componentMap allCachedComponents !! resolved_key r = None) →
  ∃ result,
    preload found resolver pathJoin localeSort subscribedTypes
            allCachedComponents usingLocalBaseline
    = PreloadDone [] (result_files found) result
    ∧ result_success result = false
    ∧ result_title result = "Preload incomplete"
    ∧ result_details result
      = Some (((λ w, "Warning: " +:+ w) <$> warnings found)
              ++ ((λ file, "Unmatched: " +:+ file) <$> result_files found)).
Proof.
  intros Hfiles Hnone. unfold preload.
  destruct (result_files found) as [|f fs] eqn:Hf; [done|].
  replace (length (f :: fs) =? 0) with false by done.
  assert (Hmissing : List.filter
            (λ typeName0, negb (bool_decide (typeName0 ∈ subscribedTypes)))
            (resolvedTypes resolver pathJoin (f :: fs)) = []).
  { apply List_filter_nil. intros t Ht.
    apply resolvedTypes_spec in Ht as (file & r & Hfile & Hr & <-).
    destruct (Hnone file r Hfile Hr) as [Hsub _].
    by rewrite bool_decide_eq_true_2. }
  rewrite Hmissing. replace (0 <? length (@nil string)) with false by done.
  rewrite match_file_fold, app_nil_l, union_empty_l_L.
  assert (Hun : List.filter
            (λ file, bool_decide
               (hit_ids (componentMap allCachedComponents)
                  (resolve_file resolver pathJoin file) = [])) (f :: fs)
            = f :: fs).
  { apply List.forallb_filter_id, forallb_forall. intros file Hfile%list_elem_of_In.
    apply bool_decide_eq_true, hit_ids_nil. intros r Hr.
    by destruct (Hnone file r Hfile Hr). }
  assert (Hids : (f :: fs) ≫= (λ file,
             hit_ids (componentMap allCachedComponents)
               (resolve_file resolver pathJoin file)) = []).
  { destruct (_ ≫= _) as [|i l] eqn:E; [done|].
    assert (Hin : i ∈ (f :: fs) ≫= (λ file,
               hit_ids (componentMap allCachedComponents)
                 (resolve_file resolver pathJoin file)))
      by (rewrite E; by left).
    apply list_elem_of_bind in Hin as (file & Hi & Hfile).
    apply hit_ids_spec in Hi as (r & cached & Hr & Hc & _).
    destruct (Hnone file r Hfile Hr) as [_ Hno]. congruence. }
  rewrite Hun, Hids.
  rewrite !(List_filter_nil _ allCachedComponents)
    by (intros c _; apply bool_decide_eq_false_2; set_solver).
  eexists. split; [reflexivity|]. simpl. split_and!; try done.
  destruct (warnings found); done.
Qed.

Lemma preload_no_match_witness :
  ∃ result,
    preload demo_found demo_file_resolver (λ f, f) (λ l, l) ["ApexClass"] [] true
    = PreloadDone [] (result_files demo_found) result
    ∧ result_success result = false
    ∧ result_title result = "Preload incomplete"
    ∧ result_details result
      = Some (((λ w, "Warning: " +:+ w) <$> warnings demo_found)
              ++ ((λ file, "Unmatched: " +:+ file) <$> result_files demo_found)).
Proof.
  apply (preload_no_match demo_found demo_file_resolver (λ f, f) (λ l, l)
           ["ApexClass"] [] true).
  - discriminate.
  - intros file r Hfile Hr. split; [|done].
    unfold resolve_file, demo_file_resolver in Hr.
    case_bool_decide; simpl in Hr.
    + apply list_elem_of_singleton in Hr as ->. simpl. by left.
    + by apply elem_of_nil in Hr.
Defined.

(** X26: one fix-up pass is enough.  When the preload stops to add types,
    the added types are not empty, were not subscribed and are distinct;
    the next subscription list is the old one with the added types, each
    once; and a preload run with that list (whatever the cache then holds)
    does not stop to add types again: it gets to match. *)
Theorem preload_converges (found : GitFileResult) (resolver : Resolver)
    (pathJoin : string → string) (localeSort : list string → list string)
    (subscribedTypes : list string)
    (allCachedComponents : list MetadataComponent) (usingLocalBaseline : bool)
    (missing next : list string) (result : ResultState) :
  (∀ l, localeSort l ≡ₚ l) →
  preload found resolver pathJoin localeSort subscribedTypes
          allCachedComponents usingLocalBaseline
  = TypesAutoAdded missing next result →
  missing ≠ []
  ∧ NoDup missing
  ∧ (∀ t, t ∈ missing → t ∉ subscribedTypes)
  ∧ NoDup next
  ∧ (∀ t, t ∈ next ↔ (t ∈ subscribedTypes) ∨ (t ∈ missing))
  ∧ (∀ cache' baseline',
       ∃ matched unmatched result',
         preload found resolver pathJoin localeSort next cache' baseline'
         = PreloadDone matched unmatched result').
Proof.
  intros Hsort. unfold preload.
  destruct (result_files found) as [|f fs] eqn:Hf; [done|].
  replace (length (f :: fs) =? 0) with false by done.
  set (rts := resolvedTypes resolver pathJoin (f :: fs)).
  destruct (List.filter _ rts) as [|m ms] eqn:Hmissing.
  { simpl. by destruct (foldl _ _ _). }
  replace (0 <? length (m :: ms)) with true by done.
  intros [= <- <- _].
  assert (Hnext : ∀ t, t ∈ localeSort (unique_from ∅ (subscribedTypes ++ m :: ms))
                       ↔ (t ∈ subscribedTypes) ∨ (t ∈ m :: ms)).
  { intros t. rewrite (Hsort _), (proj2 (unique_from_spec ∅ _)), elem_of_app.
    set_solver. }
  split_and!.
  - done.
  - rewrite <- Hmissing. apply NoDup_List_filter.
    apply (proj1 (unique_from_spec ∅ _)).
  - intros t Ht. rewrite <- Hmissing in Ht.
    apply elem_of_List_filter in Ht as [_ Ht].
    by apply negb_true_iff, bool_decide_eq_false in Ht.
  - rewrite (Hsort _). apply (proj1 (unique_from_spec ∅ _)).
  - apply Hnext.
  - intros cache' baseline'.
    assert (Hnone : List.filter
              (λ typeName0,
                 negb (bool_decide
                         (typeName0 ∈ localeSort
                            (unique_from ∅ (subscribedTypes ++ m :: ms)))))
              rts = []).
    { apply List_filter_nil. intros t Ht.
      apply negb_false_iff, bool_decide_eq_true, Hnext.
      destruct (decide (t ∈ subscribedTypes)) as [|Hno]; [by left|right].
      rewrite <- Hmissing. apply elem_of_List_filter. split; [done|].
      by rewrite bool_decide_eq_false_2. }
    rewrite Hnone. replace (0 <? length (@nil string)) with false by done.
    destruct (foldl _ _ _). by eexists _, _, _.
Qed.

Lemma preload_converges_witness :
  ∃ matched unmatched result',
    preload demo_found demo_file_resolver (λ f, f) (λ l, l)
            ["Flow"; "ApexClass"] demo_cached false
    = PreloadDone matched unmatched result'.
Proof.
  refine (proj2 (proj2 (proj2 (proj2 (proj2
            (preload_converges demo_found demo_file_resolver (λ f, f) (λ l, l)
               ["Flow"] demo_cached false ["ApexClass"] ["Flow"; "ApexClass"]
               _ _ _))))) demo_cached false).
  - done.
  - reflexivity.
Defined.

(** ** What the cache receives for a type *)

(** X27: in the list that [getTypeComponents] builds for a type, the status
    of a component tells where its full name lives: [LocalOnly] only in the
    local inventory, [RemoteOnly] only in the remote one, [Synced] in both;
    no component is ever a [Conflict]. *)
Theorem typeComponentsOf_status (svc : InventorySource) (ty : string)
    (c : MetadataComponent) :
  c ∈ typeComponentsOf svc ty →
  match status c with
  | LocalOnly =>
      (fullName c ∈ names (listLocalComponents svc ty))
      ∧ (fullName c ∉ names (listRemoteComponents svc ty))
  | RemoteOnly =>
      (fullName c ∈ names (listRemoteComponents svc ty))
      ∧ (fullName c ∉ names (listLocalComponents svc ty))
  | Synced =>
      (fullName c ∈ names (listLocalComponents svc ty))
      ∧ (fullName c ∈ names (listRemoteComponents svc ty))
  | Conflict => False
  end.
Proof.
  unfold typeComponentsOf, compareMetadata.
  cbn [localOnly remoteOnly synced conflicts].
  rewrite !push_when_spec, !app_nil_l, app_nil_r, !elem_of_app.
  assert (Hname : ∀ (l : list MetadataComponent) x, x ∈ l → fullName x ∈ names l).
  { intros l x Hx. apply list_elem_of_fmap. by exists x. }
  intros [H|[H|H]];
    apply list_elem_of_fmap in H as (c0 & -> & [Hc0 Hn]%elem_of_List_filter);
    simpl.
  - apply negb_true_iff, bool_decide_eq_false in Hn.
    rewrite elem_of_list_to_set in Hn. split; [by apply Hname|done].
  - apply bool_decide_eq_true in Hn.
    rewrite elem_of_list_to_set in Hn. split; [by apply Hname|done].
  - apply negb_true_iff, bool_decide_eq_false in Hn.
    rewrite elem_of_list_to_set in Hn. split; [by apply Hname|done].
Qed.

Lemma typeComponentsOf_status_witness :
  ("B" ∈ names (listRemoteComponents scenario_svc "T"))
  ∧ ("B" ∉ names (listLocalComponents scenario_svc "T")).
Proof.
  apply (typeComponentsOf_status scenario_svc "T"
           (plain "remote-T-B-1" "T" "B" RemoteOnly)).
  vm_compute. right. by left.
Defined.

(** X28: for components whose package name is what [getPackageName] gives
    for their type and full name, as the service builds them, the package
    name is never the empty string, and the scopes of the component list
    do not overlap: a component is listed under [Unpackaged] iff it has no
    package name, and under a package iff that is its package name. *)
Theorem scopedComponents_partition (comps : list MetadataComponent)
    (c : MetadataComponent) :
  Forall (λ x, packageName x
               = MetadataService.getPackageName (type x) (fullName x)) comps →
  c ∈ comps →
  packageName c ≠ Some ""
  ∧ (c ∈ scopedComponents (mkScope Unpackaged None) comps
     ↔ packageName c = None)
  ∧ (∀ p, c ∈ scopedComponents (mkScope InPackage (Some p)) comps
          ↔ packageName c = Some p)
  ∧ (∀ p, c ∈ scopedComponents (mkScope InPackage (Some p)) comps →
          c ∉ scopedComponents (mkScope Unpackaged None) comps).
Proof.
  intros Hall Hc.
  assert (Hne : packageName c ≠ Some "").
  { rewrite Forall_forall in Hall. rewrite (Hall c Hc).
    unfold MetadataService.getPackageName. case_bool_decide; [done|].
    destruct (namespace_length (fullName c)) as [k|] eqn:E; [|done].
    destruct (namespace_length_sound _ _ E) as (Hk & Hlen & _).
    intros [= Heq]. rewrite Heq in Hlen. simpl in Hlen. lia. }
  assert (Hun : c ∈ scopedComponents (mkScope Unpackaged None) comps
                ↔ packageName c = None).
  { unfold scopedComponents. cbn [scope].
    rewrite elem_of_List_filter, negb_true_iff.
    destruct (packageName c) as [p|] eqn:Hp; simpl.
    - rewrite negb_false_iff, bool_decide_eq_true. split; [|done].
      intros [_ ->]. done.
    - by split. }
  assert (Hin : ∀ p, c ∈ scopedComponents (mkScope InPackage (Some p)) comps
                     ↔ packageName c = Some p).
  { intros p. unfold scopedComponents. cbn [scope scope_packageName].
    rewrite elem_of_List_filter, bool_decide_eq_true. by split; [intros [_ ?]|]. }
  split_and!; [done..|].
  intros p Hp%Hin Hu%Hun. congruence.
Qed.

Lemma scopedComponents_partition_witness :
  packageName (plain "1" "ApexClass" "Foo" Synced) ≠ Some "".
Proof.
  apply (scopedComponents_partition [plain "1" "ApexClass" "Foo" Synced]).
  - repeat constructor.
  - by left.
Defined.
